(** * bvhTranslator: the BVH reader of the Maya file translator

    A shallow embedding of [src/bvhTranslator.cpp]: the [Node] class, the
    token stream, [BvhTranslator::readNode], [BvhTranslator::readAnimNode],
    [BvhTranslator::reader], [Node::mayaCreate] and
    [BvhTranslator::identifyFile].

    The C++ code threads three pieces of mutable state through every call:
    the [std::istringstream] of tokens, the [Node] objects reached through
    raw pointers, and the Maya scene.  They are modelled by an explicit
    state and a small state monad whose results also record the three ways
    a C++ function body can stop early: a [return] of [reader], an
    exception that nobody catches, and a loop that is still running when
    the iteration budget of the model is used up. *)

From Stdlib Require Import ZArith String Ascii List Lia.
From stdpp Require Import base list strings.
Import ListNotations.

Local Open Scope Z_scope.

(** ** Values of the Maya API and of the C++ library *)

Inductive MStatus := kSuccess | kFailure.

Inductive MFileKind := kIsMyFileType | kCouldBeMyFileType | kNotMyFileType.

(** The two exceptions [std::stoi] and [std::stof] throw. *)
Inductive exn := invalid_argument | out_of_range.

Inductive Conv (A : Type) :=
| Converted (a : A)
| Raises (e : exn).
Arguments Converted {A} a.
Arguments Raises {A} e.

(** A [Node*]: the position of the object among those made by [new Node()]. *)
Abbreviation addr := nat (only parsing).

(** What the translator needs from outside the file: the [float] type with
    [std::stof] and the addition used for the running time, and the part
    of the Maya scene that [MFnIkJoint] acts on.  [jointCreate] answers
    [kNullObj] when Maya refuses to create the joint.  [rawMString] is
    what a local [MString] holds when it is read before its constructor
    has run, something the source does not determine. *)
Class Platform := {
  float : Type;
  fzero : float;
  fadd : float -> float -> float;
  stof : string -> Conv float;
  MObject : Type;
  kNullObj : MObject;
  Scene : Type;
  jointCreate : Scene -> MObject -> Scene * MObject;
  rawMString : string;
  jointSetName : Scene -> MObject -> string -> Scene;
  jointSetTranslation : Scene -> MObject -> list (option float) -> Scene
}.

(** ** The token stream

    [std::istringstream tokens(content)] is only read with [tokens >> str],
    which skips white space and then takes the characters up to the next
    white space.  The stream is kept as the list of tokens still to come. *)

Definition isspace (c : ascii) : bool :=
  let n := nat_of_ascii c in
  Nat.eqb n 32 || (Nat.leb 9 n && Nat.leb n 13).

Fixpoint tokenize_from (cur : string) (s : string) : list string :=
  match s with
  | EmptyString => if String.eqb cur "" then [] else [cur]
  | String c r =>
      if isspace c
      then (if String.eqb cur "" then tokenize_from "" r
            else cur :: tokenize_from "" r)
      else tokenize_from (String.append cur (String c "")) r
  end.

Definition tokenize (content : string) : list string :=
  tokenize_from "" content.

(** ** [int] arithmetic and [std::stoi] *)

Definition wrap32 (z : Z) : Z := (z + 2 ^ 31) mod 2 ^ 32 - 2 ^ 31.

Definition is_digit (c : ascii) : bool :=
  let n := nat_of_ascii c in Nat.leb 48 n && Nat.leb n 57.

Definition digit_value (c : ascii) : Z := Z.of_nat (nat_of_ascii c) - 48.

Fixpoint skip_space (s : string) : string :=
  match s with
  | String c r => if isspace c then skip_space r else s
  | EmptyString => s
  end.

(** An optional sign: [true] for a minus. *)
Definition take_sign (s : string) : bool * string :=
  match s with
  | String "-" r => (true, r)
  | String "+" r => (false, r)
  | _ => (false, s)
  end.

(** The longest run of decimal digits at the front, and what follows. *)
Fixpoint span_digits (s : string) : list ascii * string :=
  match s with
  | String c r =>
      if is_digit c
      then let '(ds, rest) := span_digits r in (c :: ds, rest)
      else ([], s)
  | EmptyString => ([], s)
  end.

Definition digits_value (ds : list ascii) : Z :=
  fold_left (fun acc c => 10 * acc + digit_value c) ds 0.

(** [std::stoi(str)]: [strtol] in base 10 on the front of [str];
    [invalid_argument] when no digit is found, [out_of_range] when the
    value does not fit an [int].  Characters after the digits are ignored. *)
Definition stoi (str : string) : Conv Z :=
  let '(neg, r) := take_sign (skip_space str) in
  let '(ds, _) := span_digits r in
  match ds with
  | [] => Raises invalid_argument
  | _ =>
      let v := if neg then - digits_value ds else digits_value ds in
      if (v <? - 2 ^ 31) || (2 ^ 31 - 1 <? v)
      then Raises out_of_range
      else Converted v
  end.

(** ** [BvhTranslator::identifyFile] *)

Definition identifyFile (fileName : string) (buffer : string) (size : Z)
  : MFileKind :=
  kIsMyFileType.

Section Translator.

Context `{P : Platform}.

(** ** [class Node] *)

Record Node := mkNode {
  name : string;
  offset : list (option float);
  channels : list string;
  jointObj : MObject;
  parent : option addr;
  children : list addr;
  channelValues : list (list float)
}.

(** [Node::Node()]: empty strings and vectors, a null [MObject], no parent;
    the three cells of [offset] hold no value yet. *)
Definition Node0 : Node :=
  {| name := ""; offset := [None; None; None]; channels := [];
     jointObj := kNullObj; parent := None; children := [];
     channelValues := [] |}.

Definition set_name (v : string) (n : Node) : Node :=
  {| name := v; offset := offset n; channels := channels n;
     jointObj := jointObj n; parent := parent n; children := children n;
     channelValues := channelValues n |}.

Definition set_offset (i : nat) (v : float) (n : Node) : Node :=
  {| name := name n; offset := <[i := Some v]> (offset n);
     channels := channels n; jointObj := jointObj n; parent := parent n;
     children := children n; channelValues := channelValues n |}.

Definition push_channel (v : string) (n : Node) : Node :=
  {| name := name n; offset := offset n; channels := channels n ++ [v];
     jointObj := jointObj n; parent := parent n; children := children n;
     channelValues := channelValues n |}.

Definition set_jointObj (v : MObject) (n : Node) : Node :=
  {| name := name n; offset := offset n; channels := channels n;
     jointObj := v; parent := parent n; children := children n;
     channelValues := channelValues n |}.

Definition set_parent (v : addr) (n : Node) : Node :=
  {| name := name n; offset := offset n; channels := channels n;
     jointObj := jointObj n; parent := Some v; children := children n;
     channelValues := channelValues n |}.

Definition push_child (v : addr) (n : Node) : Node :=
  {| name := name n; offset := offset n; channels := channels n;
     jointObj := jointObj n; parent := parent n; children := children n ++ [v];
     channelValues := channelValues n |}.

(** ** The state of a run of [reader]

    [tokens] is what is left of the stream, [heap] the objects made by
    [new Node()] (the source has no [delete], so nothing ever leaves it),
    [scene] the Maya scene.  The last three fields are not data of the
    program: they log, oldest first, the joints for which a creation
    request was sent to Maya, the joints handed to [readAnimNode], and the
    joints allocated by the [End] branch of the hierarchy loop. *)
Record State := mkState {
  tokens : list string;
  heap : list Node;
  scene : Scene;
  requests : list addr;
  visited : list addr;
  endSites : list addr
}.

Definition set_tokens (v : list string) (s : State) : State :=
  {| tokens := v; heap := heap s; scene := scene s; requests := requests s;
     visited := visited s; endSites := endSites s |}.

Definition set_heap (v : list Node) (s : State) : State :=
  {| tokens := tokens s; heap := v; scene := scene s; requests := requests s;
     visited := visited s; endSites := endSites s |}.

Definition set_scene (v : Scene) (s : State) : State :=
  {| tokens := tokens s; heap := heap s; scene := v; requests := requests s;
     visited := visited s; endSites := endSites s |}.

Definition log_request (a : addr) (s : State) : State :=
  {| tokens := tokens s; heap := heap s; scene := scene s;
     requests := requests s ++ [a];
     visited := visited s; endSites := endSites s |}.

Definition log_visit (a : addr) (s : State) : State :=
  {| tokens := tokens s; heap := heap s; scene := scene s;
     requests := requests s;
     visited := visited s ++ [a]; endSites := endSites s |}.

Definition log_endSite (a : addr) (s : State) : State :=
  {| tokens := tokens s; heap := heap s; scene := scene s;
     requests := requests s;
     visited := visited s; endSites := endSites s ++ [a] |}.

(** ** Results and the monad *)

Inductive Result (A : Type) :=
| Ok (a : A) (s : State)
| Return (r : MStatus) (s : State)
| Throw (e : exn) (s : State)
| OutOfFuel (s : State).
Arguments Ok {A} a s.
Arguments Return {A} r s.
Arguments Throw {A} e s.
Arguments OutOfFuel {A} s.

Definition M (A : Type) : Type := State -> Result A.

Definition ret {A} (a : A) : M A := fun s => Ok a s.

Definition bind {A B} (m : M A) (k : A -> M B) : M B :=
  fun s =>
    match m s with
    | Ok a s' => k a s'
    | Return r s' => Return r s'
    | Throw e s' => Throw e s'
    | OutOfFuel s' => OutOfFuel s'
    end.

Definition return_ {A} (r : MStatus) : M A := fun s => Return r s.
Definition throw {A} (e : exn) : M A := fun s => Throw e s.
Definition outOfFuel {A} : M A := fun s => OutOfFuel s.

Definition final {A} (r : Result A) : State :=
  match r with
  | Ok _ s | Return _ s | Throw _ s | OutOfFuel s => s
  end.

(** How a run ended, without the state. *)
Inductive Outcome :=
| Finished
| Returned (r : MStatus)
| Thrown (e : exn)
| StillRunning.

Definition outcome {A} (r : Result A) : Outcome :=
  match r with
  | Ok _ _ => Finished
  | Return r _ => Returned r
  | Throw e _ => Thrown e
  | OutOfFuel _ => StillRunning
  end.

(** The value a run finished with. *)
Definition value {A} (r : Result A) : option A :=
  match r with
  | Ok a _ => Some a
  | _ => None
  end.

End Translator.

Arguments Ok {P A} a s.
Arguments Return {P A} r s.
Arguments Throw {P A} e s.
Arguments OutOfFuel {P A} s.

Declare Scope bvh_scope.
Delimit Scope bvh_scope with bvh.
Notation "x <- m ; k" := (bind m (fun x => k))
  (at level 100, m at next level, right associativity,
   format "'[v' x  <-  m ; '/' k ']'") : bvh_scope.
Local Open Scope bvh_scope.

Section Reader.

Context `{P : Platform}.

(** ** Primitive operations *)

(** [tokens >> str].  At the end of the stream the extraction fails and
    [str] keeps the value it had. *)
Definition extract (old : string) : M string :=
  fun s =>
    match tokens s with
    | [] => Ok old s
    | t :: rest => Ok t (set_tokens rest s)
    end.

(** [new Node()]. *)
Definition new_Node : M addr :=
  fun s => Ok (length (heap s)) (set_heap (heap s ++ [Node0]) s).

(** Reading through a [Node*].  Every pointer the program holds comes from
    [new_Node], so the default is never used. *)
Definition node_at (a : addr) (s : State) : Node :=
  default Node0 (heap s !! a).

Definition getNode (a : addr) : M Node :=
  fun s => Ok (node_at a s) s.

(** Writing a member through a [Node*]. *)
Definition modNode (a : addr) (f : Node -> Node) : M unit :=
  fun s => Ok tt (set_heap (alter f a (heap s)) s).

Definition mark_endSite (a : addr) : M unit :=
  fun s => Ok tt (log_endSite a s).

Definition mark_visit (a : addr) : M unit :=
  fun s => Ok tt (log_visit a s).

(** [stoi] and [stof] in a position where nothing catches what they throw. *)
Definition convert {A} (c : Conv A) : M A :=
  match c with
  | Converted v => ret v
  | Raises e => throw e
  end.

(** [tokens >> currentToken; node.offset[i] = std::stof(currentToken);] *)
Definition readOffset (a : addr) (i : nat) (currentToken : string) : M string :=
  currentToken <- extract currentToken;
  v <- convert (stof currentToken);
  _ <- modNode a (set_offset i v);
  ret currentToken.

(** [for (int i = 0; i < 3; i++) { ... }] over the cells of [offset]. *)
Definition readOffsets (a : addr) (currentToken : string) : M string :=
  currentToken <- readOffset a 0 currentToken;
  currentToken <- readOffset a 1 currentToken;
  readOffset a 2 currentToken.

(** [for (int i = 0; i < nbChannels; i++)], [n] iterations to go. *)
Fixpoint readChannels (a : addr) (n : nat) (currentToken : string) : M string :=
  match n with
  | O => ret currentToken
  | S n' =>
      currentToken <- extract currentToken;
      _ <- modNode a (push_channel currentToken);
      readChannels a n' currentToken
  end.

(** ** [BvhTranslator::readNode] (lines 358-391) *)
Definition readNode (a : addr) : M bool :=
  nd <- getNode a;
  nm <- extract (name nd);
  _ <- modNode a (set_name nm);
  currentToken <- extract "";
  if negb (String.eqb currentToken "{") then ret false else
  currentToken <- extract currentToken;
  if negb (String.eqb currentToken "OFFSET") then ret false else
  currentToken <- readOffsets a currentToken;
  currentToken <- extract currentToken;
  if negb (String.eqb currentToken "CHANNELS") then ret false else
  currentToken <- extract currentToken;
  nbChannels <- convert (stoi currentToken);
  _ <- readChannels a (Z.to_nat nbChannels) currentToken;
  ret true.

(** ** [BvhTranslator::readAnimNode] (lines 393-402)

    [nbChannels] is computed and never used; the stream and the node are
    not touched. *)
Definition readAnimNode (a : addr) (currentTime : float) : M bool :=
  nd <- getNode a;
  if bool_decide (channels nd = []) then ret true else
  let nbChannels := Z.of_nat (length (channels nd)) in
  ret true.

(** ** The hierarchy loop of [reader] (lines 234-288) *)

(** The [End] branch (lines 254-278); [back] is [nodeQueue.back()]. *)
Definition readEndSite (back : addr) (currentToken : string) : M string :=
  node <- new_Node;
  _ <- mark_endSite node;
  nd <- getNode node;
  nm <- extract (name nd);
  _ <- modNode node (set_name nm);
  currentToken <- extract currentToken;
  if negb (String.eqb currentToken "{") then return_ kFailure else
  currentToken <- extract currentToken;
  if negb (String.eqb currentToken "OFFSET") then return_ kFailure else
  currentToken <- readOffsets node currentToken;
  _ <- modNode back (push_child node);
  _ <- modNode node (set_parent back);
  currentToken <- extract currentToken;
  if negb (String.eqb currentToken "}") then return_ kFailure else
  ret currentToken.

(** The [JOINT] branch (lines 244-253); the result is the new node, which
    the caller pushes on [nodeQueue]. *)
Definition readJoint (back : addr) : M addr :=
  node <- new_Node;
  state <- readNode node;
  if negb state then return_ kFailure else
  _ <- modNode back (push_child node);
  _ <- modNode node (set_parent back);
  ret node.

(** [while (!nodeQueue.empty())] (lines 242-286).  [nodeQueue] is used as
    a stack; the list has the back of the deque in front.  [n] bounds the
    number of iterations. *)
Fixpoint openLoop (n : nat) (currentToken : string) (nodeQueue : list addr)
  : M string :=
  match nodeQueue with
  | [] => ret currentToken
  | back :: below =>
      match n with
      | O => outOfFuel
      | S n' =>
          currentToken <- extract currentToken;
          if String.eqb currentToken "JOINT" then
            node <- readJoint back;
            openLoop n' currentToken (node :: nodeQueue)
          else if String.eqb currentToken "End" then
            currentToken <- readEndSite back currentToken;
            openLoop n' currentToken nodeQueue
          else if String.eqb currentToken "}" then
            openLoop n' currentToken below
          else return_ kFailure
      end
  end.

(** [while (currentToken.compare("ROOT") == 0)] (lines 234-288); the
    result is the token that ended the loop and [rootVect]. *)
Fixpoint rootsLoop (n fuel : nat) (currentToken : string) (rootVect : list addr)
  : M (string * list addr) :=
  if String.eqb currentToken "ROOT" then
    match n with
    | O => outOfFuel
    | S n' =>
        root <- new_Node;
        state <- readNode root;
        if negb state then return_ kFailure else
        currentToken <- openLoop fuel currentToken [root];
        currentToken <- extract currentToken;
        rootsLoop n' fuel currentToken (rootVect ++ [root])
    end
  else ret (currentToken, rootVect).

(** ** The motion section of [reader] (lines 290-345) *)

(** Lines 290-322: the fixed tokens, the frame count and the frame time. *)
Definition motionHeader (currentToken : string) : M (Z * float) :=
  if negb (String.eqb currentToken "MOTION") then return_ kFailure else
  currentToken <- extract currentToken;
  if negb (String.eqb currentToken "Frames:") then return_ kFailure else
  currentToken <- extract currentToken;
  nbFrames <- convert (stoi currentToken);
  currentToken <- extract currentToken;
  if negb (String.eqb currentToken "Frame") then return_ kFailure else
  currentToken <- extract currentToken;
  if negb (String.eqb currentToken "Time:") then return_ kFailure else
  currentToken <- extract currentToken;
  timeFrame <- convert (stof currentToken);
  ret (nbFrames, timeFrame).

(** [int childIndex = node->children.size() - 1]: the subtraction is done
    on [size_t], the result is converted to [int]. *)
Definition lastIndex (kids : list addr) : Z :=
  wrap32 ((Z.of_nat (length kids) - 1) mod 2 ^ 64).

(** How the loop of line 338 can end in the model: its condition became
    false, or the iteration budget ran out with the loop still going.
    Both carry the frame counter [i] and [nodeQueue]. *)
Inductive ForOut :=
| ForDone (i : Z) (nodeQueue : list addr)
| ForFuel (i : Z) (nodeQueue : list addr).

(** Lines 338-341:
    [for (int childIndex = size - 1; childIndex >= 0; i--) { push_back }].
    The step of the loop decrements the frame counter [i] of the enclosing
    loop and leaves [childIndex] as it is.  ([i--] on the least [int] is
    undefined in C++; the model wraps.)  The index is always inside
    [kids] when it is not negative, see [lastIndex_in_range]. *)
Fixpoint pushChildren (fuel : nat) (kids : list addr) (childIndex i : Z)
    (nodeQueue : list addr) : ForOut :=
  if 0 <=? childIndex then
    match fuel with
    | O => ForFuel i nodeQueue
    | S fuel' =>
        match kids !! Z.to_nat childIndex with
        | Some child =>
            pushChildren fuel' kids childIndex (wrap32 (i - 1))
              (child :: nodeQueue)
        | None => ForDone i nodeQueue
        end
    end
  else ForDone i nodeQueue.

(** Lines 331-342: [while (!nodeQueue.empty())]; the result is the frame
    counter, which the loop over the children changes. *)
Fixpoint drainQueue (n fuel : nat) (time : float) (i : Z)
    (nodeQueue : list addr) : M Z :=
  match nodeQueue with
  | [] => ret i
  | node :: rest =>
      match n with
      | O => outOfFuel
      | S n' =>
          _ <- mark_visit node;
          state <- readAnimNode node time;
          if negb state then return_ kFailure else
          nd <- getNode node;
          match pushChildren fuel (children nd) (lastIndex (children nd)) i rest
          with
          | ForDone i' nodeQueue' => drainQueue n' fuel time i' nodeQueue'
          | ForFuel _ _ => outOfFuel
          end
      end
  end.

(** Lines 329-343: [for (Node* root : rootVect)].  [nodeQueue] is empty
    when a root is pushed: it was cleared on line 326 and the loop above
    only ends on an empty queue. *)
Fixpoint eachRoot (fuel : nat) (time : float) (i : Z) (roots : list addr)
  : M Z :=
  match roots with
  | [] => ret i
  | root :: more =>
      i <- drainQueue fuel fuel time i [root];
      eachRoot fuel time i more
  end.

(** Lines 328-345: [for (int i = 0; i < nbFrames; i++)]. *)
Fixpoint framesLoop (n fuel : nat) (nbFrames : Z) (timeFrame time : float)
    (i : Z) (rootVect : list addr) : M unit :=
  if i <? nbFrames then
    match n with
    | O => outOfFuel
    | S n' =>
        i <- eachRoot fuel time i rootVect;
        framesLoop n' fuel nbFrames timeFrame (fadd time timeFrame)
          (wrap32 (i + 1)) rootVect
    end
  else ret tt.

(** ** [Node::mayaCreate] (lines 112-128) *)

Definition hostCreate (a : addr) (parentObj : MObject) : M MObject :=
  fun s =>
    let '(sc, obj) := jointCreate (scene s) parentObj in
    Ok obj (log_request a (set_scene sc s)).

Definition hostSetName (obj : MObject) (nm : string) : M unit :=
  fun s => Ok tt (set_scene (jointSetName (scene s) obj nm) s).

Definition hostSetTranslation (obj : MObject) (t : list (option float))
  : M unit :=
  fun s => Ok tt (set_scene (jointSetTranslation (scene s) obj t) s).

(** A range-based [for] whose body is [f]. *)
Fixpoint each (f : addr -> M unit) (l : list addr) : M unit :=
  match l with
  | [] => ret tt
  | a :: l' => _ <- f a; each f l'
  end.

(** [fuel] bounds the depth of the recursion.  The function returns
    [void] and passes no [MStatus*] to the host calls: what the host
    answers is stored in [jointObj] and not looked at.

    Line 120 is [MString name(name.c_str());]: the [name] inside the
    parentheses is the local [MString] that is being declared, which hides
    the member [Node::name] from its own initialiser on.  The name given
    to [setName] therefore does not come from the node. *)
Fixpoint mayaCreate (fuel : nat) (a : addr) : M unit :=
  match fuel with
  | O => outOfFuel
  | S fuel' =>
      nd <- getNode a;
      parentObj <- match parent nd with
                   | Some p => pn <- getNode p; ret (jointObj pn)
                   | None => ret kNullObj
                   end;
      obj <- hostCreate a parentObj;
      _ <- modNode a (set_jointObj obj);
      _ <- hostSetName obj rawMString;
      _ <- hostSetTranslation obj (offset nd);
      each (mayaCreate fuel') (children nd)
  end.

(** ** [BvhTranslator::reader] (lines 200-355) *)

(** Lines 221-288: the first token and the [ROOT] blocks; the result is
    the token that follows them and [rootVect]. *)
Definition hierarchy (fuel : nat) : M (string * list addr) :=
  currentToken <- extract "";
  if negb (String.eqb currentToken "HIERARCHY") then return_ kFailure else
  currentToken <- extract currentToken;
  rootsLoop fuel fuel currentToken [].

(** Lines 290-345. *)
Definition motion (fuel : nat) (currentToken : string) (rootVect : list addr)
  : M unit :=
  header <- motionHeader currentToken;
  framesLoop fuel fuel (fst header) (snd header) fzero 0 rootVect.

(** Lines 221-345: everything between opening the file and the creation
    of the Maya joints; the result is [rootVect]. *)
Definition parse (fuel : nat) : M (list addr) :=
  hier <- hierarchy fuel;
  _ <- motion fuel (fst hier) (snd hier);
  ret (snd hier).

(** Lines 349-354. *)
Definition create (fuel : nat) (rootVect : list addr) : M unit :=
  _ <- each (mayaCreate fuel) rootVect;
  return_ kSuccess.

Definition initial (sc : Scene) (toks : list string) : State :=
  {| tokens := toks; heap := []; scene := sc; requests := [];
     visited := []; endSites := [] |}.

(** [reader] on a stream of tokens. *)
Definition readTokens (fuel : nat) (sc : Scene) (toks : list string)
  : Result unit :=
  (rootVect <- parse fuel; create fuel rootVect) (initial sc toks).

(** [file] is the content of the file, [None] when it cannot be opened
    (lines 208-213); [sc] is the Maya scene at the call.  [fuel] bounds
    the number of iterations of each loop and the depth of [mayaCreate]. *)
Definition reader (fuel : nat) (sc : Scene) (file : option string)
  : Result unit :=
  match file with
  | None => Return kFailure (initial sc [])
  | Some content => readTokens fuel sc (tokenize content)
  end.

End Reader.

(** ** A platform to run the reader on

    Decimal literals stand for the [float] they denote: [stof_dec] reads
    an optional sign, digits with an optional fraction and an optional
    exponent, as [strtof] does for decimal input, and keeps mantissa and
    exponent.  It is only meant for such literals and for tokens that are
    no numbers at all: infinities, NaN, hexadecimal floats, rounding to
    [float] and the [out_of_range] of [std::stof] are not modelled, and no
    example uses them.  The scene is the list of the joints created so far
    and holds at most [limit] joints: a creation request beyond that is
    refused.  A local [MString] read before its construction is taken to
    be empty. *)

Record Dec := mkDec { mant : Z; expo : Z }.

Definition dec_add (x y : Dec) : Dec :=
  let e := Z.min (expo x) (expo y) in
  {| mant := mant x * 10 ^ (expo x - e) + mant y * 10 ^ (expo y - e);
     expo := e |}.

Definition exponent_part (s : string) : Z :=
  match s with
  | String c r =>
      if Ascii.eqb c "e" || Ascii.eqb c "E" then
        let '(neg, r') := take_sign r in
        let '(ds, _) := span_digits r' in
        match ds with
        | [] => 0
        | _ => if neg then - digits_value ds else digits_value ds
        end
      else 0
  | EmptyString => 0
  end.

Definition stof_dec (str : string) : Conv Dec :=
  let '(neg, r) := take_sign (skip_space str) in
  let '(ip, r1) := span_digits r in
  let '(fp, r2) := match r1 with
                   | String "." r' => span_digits r'
                   | _ => ([], r1)
                   end in
  match ip ++ fp with
  | [] => Raises invalid_argument
  | ds =>
      let m := digits_value ds in
      Converted {| mant := if neg then - m else m;
                   expo := exponent_part r2 - Z.of_nat (length fp) |}
  end.

Record MayaJoint := mkJoint {
  jname : string;
  jtranslation : list (option Dec);
  jparent : option nat
}.

Definition demo_create (limit : nat) (sc : list MayaJoint)
    (parentObj : option nat) : list MayaJoint * option nat :=
  if Nat.ltb (length sc) limit
  then (sc ++ [{| jname := ""; jtranslation := []; jparent := parentObj |}],
        Some (length sc))
  else (sc, None).

Definition demo_setName (sc : list MayaJoint) (obj : option nat)
    (nm : string) : list MayaJoint :=
  match obj with
  | Some j =>
      alter (fun x => {| jname := nm; jtranslation := jtranslation x;
                         jparent := jparent x |}) j sc
  | None => sc
  end.

Definition demo_setTranslation (sc : list MayaJoint) (obj : option nat)
    (t : list (option Dec)) : list MayaJoint :=
  match obj with
  | Some j =>
      alter (fun x => {| jname := jname x; jtranslation := t;
                         jparent := jparent x |}) j sc
  | None => sc
  end.

Definition demo (limit : nat) : Platform :=
  {| float := Dec; fzero := {| mant := 0; expo := 0 |}; fadd := dec_add;
     stof := stof_dec;
     MObject := option nat; kNullObj := None;
     Scene := list MayaJoint;
     rawMString := "";
     jointCreate := demo_create limit;
     jointSetName := demo_setName;
     jointSetTranslation := demo_setTranslation |}.


(** ** The files used as examples *)

(** The scenario of the specification: a root with three channels and an
    End Site, two frames. *)
Definition hips_with_end_site : string :=
  "HIERARCHY ROOT Hips { OFFSET 0 0 0 CHANNELS 3 Xposition Yposition Zposition End Site { OFFSET 0 5 0 } } MOTION Frames: 2 Frame Time: 0.0333333 0 0 0 1 0 0".

(** The same root without any child. *)
Definition hips_alone : string :=
  "HIERARCHY ROOT Hips { OFFSET 0 0 0 CHANNELS 3 Xposition Yposition Zposition } MOTION Frames: 2 Frame Time: 0.0333333 0 0 0 1 0 0".

(** A root with two joints below it, one frame. *)
Definition hips_two_legs : string :=
  "HIERARCHY ROOT Hips { OFFSET 0 0 0 CHANNELS 1 Xposition JOINT Left { OFFSET 1 0 0 CHANNELS 1 Xrotation } JOINT Right { OFFSET 2 0 0 CHANNELS 1 Xrotation } } MOTION Frames: 1 Frame Time: 0.04 7 8 9".



(** [End] followed by something else than [Site]; no frame. *)
Definition hips_end_foo : string :=
  "HIERARCHY ROOT Hips { OFFSET 0 0 0 CHANNELS 0 End Foo { OFFSET 0 5 0 } } MOTION Frames: 0 Frame Time: 0.1".



(** Four files with a token that is not a number where a number is due:
    an OFFSET component, the CHANNELS count, the frame count, the frame
    time. *)
Definition bad_offset : string :=
  "HIERARCHY ROOT Hips { OFFSET 0 zero 0 CHANNELS 0 } MOTION Frames: 1 Frame Time: 0.1".
Definition bad_channel_count : string :=
  "HIERARCHY ROOT Hips { OFFSET 0 0 0 CHANNELS three X Y Z } MOTION Frames: 1 Frame Time: 0.1".
Definition bad_frame_count : string :=
  "HIERARCHY ROOT Hips { OFFSET 0 0 0 CHANNELS 0 } MOTION Frames: many Frame Time: 0.1".
Definition bad_frame_time : string :=
  "HIERARCHY ROOT Hips { OFFSET 0 0 0 CHANNELS 0 } MOTION Frames: 1 Frame Time: fast".

(** * Properties *)

(** ** [identifyFile] *)

(** C10: whatever the file name, the buffer and the size, [identifyFile]
    answers [kIsMyFileType]; the buffer is not looked at, so a buffer that
    does not begin with the marker is claimed like any other. *)
Theorem identifyFile_claims_every_file :
  forall (fileName buffer : string) (size : Z),
    identifyFile fileName buffer size = kIsMyFileType.
Proof. intros fileName buffer size. unfold identifyFile. reflexivity. Qed.

(** ** Basic facts about the monad *)

Section MonadFacts.

Context `{P : Platform}.

Lemma bind_Ok {A B} (m : M A) (k : A -> M B) s a s' :
  m s = Ok a s' -> bind m k s = k a s'.
Proof. intros H. unfold bind. rewrite H. reflexivity. Qed.


Lemma bind_Throw {A B} (m : M A) (k : A -> M B) s e s' :
  m s = Throw e s' -> bind m k s = Throw e s'.
Proof. intros H. unfold bind. rewrite H. reflexivity. Qed.

Lemma bind_OutOfFuel {A B} (m : M A) (k : A -> M B) s s' :
  m s = OutOfFuel s' -> bind m k s = OutOfFuel s'.
Proof. intros H. unfold bind. rewrite H. reflexivity. Qed.

Lemma Ok_intro {A} (r : Result A) (a : A) :
  value r = Some a -> r = Ok a (final r).
Proof. destruct r; cbn; intros H; try discriminate. congruence. Qed.

Lemma bind_value {A B} (m : M A) (k : A -> M B) s a :
  value (m s) = Some a -> bind m k s = k a (final (m s)).
Proof.
  unfold bind. destruct (m s); cbn; intros H; try discriminate. congruence.
Qed.

(** [readAnimNode] answers [true] and changes nothing, whatever the node. *)
Lemma readAnimNode_noop (a : addr) (time : float) (s : State) :
  readAnimNode a time s = Ok true s.
Proof.
  unfold readAnimNode, bind, getNode, ret.
  destruct (bool_decide (channels (node_at a s) = [])); reflexivity.
Qed.

End MonadFacts.

(** ** The frame values are never read *)

(** C1: on a file with one root of three channels, no child and two
    frames, [reader] succeeds, the root was handed to [readAnimNode] once
    per frame, yet its rows of frame values are still empty and the six
    numbers of the motion section are still in the stream.  This holds for
    every iteration budget of two or more. *)
Theorem reader_leaves_frame_values_unread :
  forall k : nat,
    let r := reader (P := demo 10) (2 + k) [] (Some hips_alone) in
    outcome r = Returned kSuccess
    /\ map channels (heap (final r)) = [["Xposition"; "Yposition"; "Zposition"]]
    /\ visited (final r) = [0%nat; 0%nat]
    /\ map channelValues (heap (final r)) = [[]]
    /\ tokens (final r) = ["0"; "0"; "0"; "1"; "0"; "0"].
Proof. intros [|k]; vm_compute; repeat split. Qed.

(** ** Tokens that are not numbers *)

(** C5: a token that is not a number in the place of an OFFSET component,
    of the CHANNELS count, of the frame count or of the frame time makes
    [std::stof] or [std::stoi] throw [invalid_argument]; [reader] has no
    handler, so the exception leaves it and no [MStatus] is returned.  This
    holds for every iteration budget of one or more. *)
Theorem reader_lets_conversion_errors_escape :
  forall k : nat,
    outcome (reader (P := demo 10) (1 + k) [] (Some bad_offset))
      = Thrown invalid_argument
    /\ outcome (reader (P := demo 10) (1 + k) [] (Some bad_channel_count))
      = Thrown invalid_argument
    /\ outcome (reader (P := demo 10) (1 + k) [] (Some bad_frame_count))
      = Thrown invalid_argument
    /\ outcome (reader (P := demo 10) (1 + k) [] (Some bad_frame_time))
      = Thrown invalid_argument.
Proof. intros [|k]; vm_compute; repeat split. Qed.

(** ** Inputs on which the code departs from the description *)



(** C7, counterexample: with [Foo] in the place of [Site] the leaf is
    accepted: [reader] returns [kSuccess], the leaf is named [Foo], it is
    the child of Hips, and a Maya joint is requested for it. *)
Lemma End_followed_by_Foo_is_accepted :
  let r := reader (P := demo 10) 8 [] (Some hips_end_foo) in
  outcome r = Returned kSuccess
  /\ map name (heap (final r)) = ["Hips"; "Foo"]
  /\ endSites (final r) = [1%nat]
  /\ map children (heap (final r)) = [[1%nat]; []]
  /\ requests (final r) = [0%nat; 1%nat].
Proof. vm_compute. repeat split. Qed.

(** C9, counterexample: on a scene that refuses every creation request,
    the request for the root is refused, the request for its child is sent
    all the same, and [reader] returns [kSuccess]. *)
Lemma refused_creation_goes_unnoticed :
  let r := reader (P := demo 0) 8 [] (Some hips_end_foo) in
  outcome r = Returned kSuccess
  /\ requests (final r) = [0%nat; 1%nat]
  /\ map jointObj (heap (final r)) = [None; None]
  /\ scene (final r) = [].
Proof. vm_compute. repeat split. Qed.

(** ** The loop over the children *)

Lemma wrap32_small (z : Z) : - 2 ^ 31 <= z < 2 ^ 31 -> wrap32 z = z.
Proof.
  intros H. unfold wrap32.
  rewrite Z.mod_small by lia. lia.
Qed.

Lemma wrap32_pred (z : Z) : wrap32 (wrap32 z - 1) = wrap32 (z - 1).
Proof.
  unfold wrap32.
  replace ((z + 2 ^ 31) mod 2 ^ 32 - 2 ^ 31 - 1 + 2 ^ 31)
    with ((z + 2 ^ 31) mod 2 ^ 32 + (- 1)) by lia.
  rewrite Zplus_mod_idemp_l.
  replace (z + 2 ^ 31 + - 1) with (z - 1 + 2 ^ 31) by lia.
  reflexivity.
Qed.

(** [childIndex] starts inside the vector whenever it is not negative. *)
Lemma lastIndex_in_range (kids : list addr) :
  0 <= lastIndex kids -> (Z.to_nat (lastIndex kids) < length kids)%nat.
Proof.
  unfold lastIndex, wrap32. intros H.
  destruct kids as [|c kids]; [vm_compute in H; contradiction H; reflexivity|].
  set (x := (Z.of_nat (length (c :: kids)) - 1) mod 2 ^ 64) in *.
  assert (Hx : 0 <= x <= Z.of_nat (length (c :: kids)) - 1).
  { assert (0 <= Z.of_nat (length (c :: kids)) - 1)
      by (cbn [length]; lia).
    subst x. split; [apply Z.mod_pos_bound; lia|].
    apply Z.mod_le; lia. }
  assert (Hm : (x + 2 ^ 31) mod 2 ^ 32 <= x + 2 ^ 31)
    by (apply Z.mod_le; lia).
  lia.
Qed.

(** With a child under [childIndex] the loop of line 338 never ends: each
    iteration pushes that same child and decrements the frame counter. *)
Lemma pushChildren_spins (fuel : nat) (kids : list addr) (childIndex : Z)
    (child : addr) (i : Z) (nodeQueue : list addr) :
  0 <= childIndex ->
  kids !! Z.to_nat childIndex = Some child ->
  pushChildren fuel kids childIndex i nodeQueue
  = ForFuel (Nat.iter fuel (fun j => wrap32 (j - 1)) i)
      (replicate fuel child ++ nodeQueue).
Proof.
  intros Hpos Hkid. revert i nodeQueue.
  induction fuel as [|fuel IH]; intros i nodeQueue; cbn [pushChildren].
  - destruct (0 <=? childIndex) eqn:E; [reflexivity|lia].
  - destruct (0 <=? childIndex) eqn:E; [|lia].
    rewrite Hkid, IH. f_equal.
    + clear. induction fuel as [|fuel IH]; [reflexivity|].
      simpl in *. rewrite IH. reflexivity.
    + clear. cbn [replicate].
      induction fuel as [|fuel IH]; [reflexivity|].
      cbn [replicate app]. f_equal. exact IH.
Qed.

Lemma iter_decrement (n : nat) :
  Nat.iter n (fun j => wrap32 (j - 1)) 0 = wrap32 (- Z.of_nat n).
Proof.
  induction n as [|n IH]; [reflexivity|].
  rewrite Nat.iter_succ, IH, wrap32_pred. f_equal. lia.
Qed.

Section Divergence.

Context `{P : Platform}.

Lemma outcome_bind_running {A B} (m : M A) (k : A -> M B) s :
  outcome (m s) = StillRunning -> outcome (bind m k s) = StillRunning.
Proof. unfold bind. destruct (m s); cbn; congruence. Qed.

(** The header of a well-formed motion section. *)
Lemma motionHeader_reads (s : State) (n t : string) (rest : list string)
    (nbFrames : Z) (timeFrame : float) :
  tokens s = "Frames:" :: n :: "Frame" :: "Time:" :: t :: rest ->
  stoi n = Converted nbFrames ->
  stof t = Converted timeFrame ->
  motionHeader "MOTION" s = Ok (nbFrames, timeFrame) (set_tokens rest s).
Proof.
  intros Htoks Hn Ht. destruct s as [toks h sc rq vi es].
  cbn [tokens] in Htoks. subst toks.
  unfold motionHeader, bind, extract. cbn. rewrite Hn. cbn. rewrite Ht.
  reflexivity.
Qed.

(** A node with at least one child keeps [drainQueue] busy for ever: the
    node is handed to [readAnimNode], then the loop over its children uses
    up any budget. *)
Lemma drainQueue_stuck (n fuel : nat) (time : float) (i : Z) (node : addr)
    (rest : list addr) (s : State) :
  children (node_at node s) <> [] ->
  0 <= lastIndex (children (node_at node s)) ->
  drainQueue (S n) fuel time i (node :: rest) s = OutOfFuel (log_visit node s).
Proof.
  intros Hne Hpos.
  cbn [drainQueue]. unfold bind at 1. cbn [mark_visit].
  unfold bind at 1. rewrite readAnimNode_noop. cbn [negb].
  unfold bind at 1. cbn [getNode].
  change (node_at node (log_visit node s)) with (node_at node s).
  pose proof (lastIndex_in_range _ Hpos) as Hlt.
  destruct (lookup_lt_is_Some_2 _ _ Hlt) as [child Hchild].
  rewrite (pushChildren_spins fuel _ _ child) by assumption.
  reflexivity.
Qed.

Lemma framesLoop_stuck (n fuel : nat) (nbFrames : Z) (timeFrame time : float)
    (i : Z) (root : addr) (more : list addr) (s : State) :
  i < nbFrames ->
  children (node_at root s) <> [] ->
  0 <= lastIndex (children (node_at root s)) ->
  framesLoop (S n) (S fuel) nbFrames timeFrame time i (root :: more) s
  = OutOfFuel (log_visit root s).
Proof.
  intros Hi Hne Hpos. cbn [framesLoop].
  destruct (i <? nbFrames) eqn:E; [|lia].
  apply bind_OutOfFuel. cbn [eachRoot].
  apply bind_OutOfFuel. apply drainQueue_stuck; assumption.
Qed.

Lemma framesLoop_spins (n fuel : nat) (nbFrames : Z) (timeFrame time : float)
    (i : Z) (root : addr) (more : list addr) (s : State) :
  i < nbFrames ->
  children (node_at root s) <> [] ->
  0 <= lastIndex (children (node_at root s)) ->
  outcome (framesLoop n fuel nbFrames timeFrame time i (root :: more) s)
  = StillRunning.
Proof.
  intros Hi Hne Hpos. destruct n as [|n].
  - cbn [framesLoop]. destruct (i <? nbFrames) eqn:E; [reflexivity|lia].
  - destruct fuel as [|fuel].
    + cbn [framesLoop]. destruct (i <? nbFrames) eqn:E; [|lia].
      reflexivity.
    + rewrite framesLoop_stuck by assumption. reflexivity.
Qed.

(** With a frame to read and a first root that has a child, the motion
    section never ends: the root is handed to [readAnimNode] and nothing
    else happens any more. *)
Lemma motion_stuck (fuel : nat) (s : State) (root : addr) (more : list addr)
    (n t : string) (rest : list string) (nbFrames : Z) (timeFrame : float) :
  tokens s = "Frames:" :: n :: "Frame" :: "Time:" :: t :: rest ->
  stoi n = Converted nbFrames ->
  stof t = Converted timeFrame ->
  0 < nbFrames ->
  children (node_at root s) <> [] ->
  0 <= lastIndex (children (node_at root s)) ->
  motion (S fuel) "MOTION" (root :: more) s
  = OutOfFuel (log_visit root (set_tokens rest s)).
Proof.
  intros Htoks Hn Ht Hpos Hne Hidx. unfold motion.
  rewrite (bind_Ok _ _ _ _ _ (motionHeader_reads s _ _ _ _ _ Htoks Hn Ht)).
  cbn [fst snd]. apply framesLoop_stuck; assumption.
Qed.

Lemma motion_spins (fuel : nat) (s : State) (root : addr) (more : list addr)
    (n t : string) (rest : list string) (nbFrames : Z) (timeFrame : float) :
  tokens s = "Frames:" :: n :: "Frame" :: "Time:" :: t :: rest ->
  stoi n = Converted nbFrames ->
  stof t = Converted timeFrame ->
  0 < nbFrames ->
  children (node_at root s) <> [] ->
  0 <= lastIndex (children (node_at root s)) ->
  outcome (motion fuel "MOTION" (root :: more) s) = StillRunning.
Proof.
  intros Htoks Hn Ht Hpos Hne Hidx. destruct fuel as [|fuel].
  - unfold motion.
    rewrite (bind_Ok _ _ _ _ _ (motionHeader_reads s _ _ _ _ _ Htoks Hn Ht)).
    cbn [fst snd]. apply framesLoop_spins; assumption.
  - erewrite motion_stuck by eassumption. reflexivity.
Qed.

End Divergence.

(** C2: on the scenario of the specification (a root with an End Site, two
    frames) [reader] does not terminate: whatever the iteration budget, the
    run is still going when the budget is used up.  The loop over the
    children of the root is the one that does not end: after [fuel]
    iterations it has pushed the child [fuel] times and has brought the
    frame counter from 0 down to [- fuel]. *)
Theorem reader_spins_on_a_joint_with_a_child :
  forall fuel : nat,
    outcome (reader (P := demo 10) fuel [] (Some hips_with_end_site))
      = StillRunning
    /\ pushChildren fuel [1%nat] (lastIndex [1%nat]) 0 []
       = ForFuel (wrap32 (- Z.of_nat fuel)) (replicate fuel 1%nat).
Proof.
  intros fuel. split.
  - destruct fuel as [|[|[|k]]].
    1-3: vm_compute; reflexivity.
    unfold reader, readTokens. apply outcome_bind_running.
    unfold parse.
    assert (Hv : value (hierarchy (P := demo 10) (S (S (S k)))
                      (initial (P := demo 10) [] (tokenize hips_with_end_site)))
                 = Some ("MOTION", [0%nat]))
      by (vm_compute; reflexivity).
    rewrite (bind_value _ _ _ _ Hv). clear Hv.
    apply outcome_bind_running. cbn [fst snd].
    apply (motion_spins (P := demo 10) _ _ _ _ "2" "0.0333333"
             ["0"; "0"; "0"; "1"; "0"; "0"] 2 {| mant := 333333; expo := -7 |});
      vm_compute; first [reflexivity | discriminate].
  - rewrite (pushChildren_spins fuel [1%nat] _ 1%nat);
      [|vm_compute; discriminate|reflexivity].
    rewrite iter_decrement, app_nil_r. reflexivity.
Qed.

(** C3: on a file with a root and two joints below it, discovered in the
    order Hips, Left, Right, the traversal of the first frame hands the
    root to [readAnimNode] and then stays in the loop over its children:
    Left and Right are never visited, and the run is still going whatever
    the iteration budget.  (A budget of five lets the hierarchy loop read
    the whole tree.) *)
Theorem reader_never_visits_the_children :
  forall k : nat,
    outcome (reader (P := demo 10) k [] (Some hips_two_legs)) = StillRunning
    /\ let r := reader (P := demo 10) (5 + k) [] (Some hips_two_legs) in
       map name (heap (final r)) = ["Hips"; "Left"; "Right"]
       /\ map children (heap (final r)) = [[1%nat; 2%nat]; []; []]
       /\ visited (final r) = [0%nat].
Proof.
  assert (Hrun : forall k : nat,
    reader (P := demo 10) (S (S (S (S (S (S k)))))) [] (Some hips_two_legs)
    = OutOfFuel
        (log_visit 0%nat
           (set_tokens ["7"; "8"; "9"]
              (final (hierarchy (P := demo 10) (S (S (S (S (S (S k))))))
                        (initial (P := demo 10) []
                           (tokenize hips_two_legs))))))).
  { intros k.
    unfold reader, readTokens, parse.
    assert (Hv : value (hierarchy (P := demo 10) (S (S (S (S (S (S k))))))
                      (initial (P := demo 10) [] (tokenize hips_two_legs)))
                 = Some ("MOTION", [0%nat]))
      by (vm_compute; reflexivity).
    apply bind_OutOfFuel. rewrite (bind_value _ _ _ _ Hv). clear Hv.
    apply bind_OutOfFuel. cbn [fst snd].
    apply (motion_stuck (P := demo 10) _ _ _ _ "1" "0.04" ["7"; "8"; "9"] 1
             {| mant := 4; expo := -2 |});
      vm_compute; first [reflexivity | discriminate]. }
  intros k. split.
  - destruct k as [|[|[|[|[|[|k]]]]]].
    1-6: vm_compute; reflexivity.
    rewrite (Hrun k). reflexivity.
  - destruct k as [|k]; [vm_compute; repeat split|].
    cbv zeta. change (5 + S k)%nat with (S (S (S (S (S (S k)))))).
    rewrite (Hrun k). vm_compute. repeat split.
Qed.

(** ** Relations that every step of a run respects *)

Section Preserved.

Context `{P : Platform}.
Variable R : State -> State -> Prop.
Hypothesis R_refl : forall s, R s s.
Hypothesis R_trans : forall s1 s2 s3, R s1 s2 -> R s2 s3 -> R s1 s3.

(** However [m] ends, the state it ends in is related to the one it
    started from. *)
Definition preserves {A} (m : M A) : Prop := forall s, R s (final (m s)).

Lemma preserves_ret {A} (a : A) : preserves (ret a).
Proof using R_refl. intros s. apply R_refl. Qed.

Lemma preserves_return {A} (r : MStatus) : preserves (@return_ _ A r).
Proof using R_refl. intros s. apply R_refl. Qed.

Lemma preserves_throw {A} (e : exn) : preserves (@throw _ A e).
Proof using R_refl. intros s. apply R_refl. Qed.

Lemma preserves_outOfFuel {A} : preserves (@outOfFuel _ A).
Proof using R_refl. intros s. apply R_refl. Qed.

Lemma preserves_bind {A B} (m : M A) (k : A -> M B) :
  preserves m -> (forall a, preserves (k a)) -> preserves (bind m k).
Proof using R_trans.
  intros Hm Hk s. unfold bind. specialize (Hm s).
  destruct (m s) as [a s'| | |]; cbn in *; try assumption.
  eapply R_trans; [exact Hm|apply Hk].
Qed.


Lemma preserves_convert {A} (c : Conv A) : preserves (convert c).
Proof using R_refl. destruct c; intros s; apply R_refl. Qed.

Lemma preserves_getNode (a : addr) : preserves (getNode a).
Proof using R_refl. intros s. apply R_refl. Qed.

(** The ways the parser writes to a node. *)
Inductive edit : (Node -> Node) -> Prop :=
| edit_name (v : string) : edit (set_name v)
| edit_offset (i : nat) (v : float) : edit (set_offset i v)
| edit_channel (v : string) : edit (push_channel v)
| edit_child (c : nat) : edit (push_child c)
| edit_parent (p : nat) : edit (set_parent p).

(** What stays related when Maya is called. *)
Section Creating.

Hypothesis R_scene : forall s sc, R s (set_scene sc s).
Hypothesis R_request : forall s a, R s (log_request a s).
Hypothesis R_jointObj :
  forall s a obj, R s (set_heap (alter (set_jointObj obj) a (heap s)) s).

Lemma preserves_each (f : addr -> M unit) (l : list addr) :
  (forall a, preserves (f a)) -> preserves (each f l).
Proof using R_refl R_trans.
  intros Hf. induction l as [|a l IH]; cbn [each].
  - apply preserves_ret.
  - apply preserves_bind; [apply Hf|intros _; exact IH].
Qed.

Lemma preserves_mayaCreate (fuel : nat) (a : addr) :
  preserves (mayaCreate fuel a).
Proof using R_refl R_trans R_scene R_request R_jointObj.
  revert a. induction fuel as [|fuel IH]; intros a; cbn [mayaCreate].
  - apply preserves_outOfFuel.
  - apply preserves_bind; [apply preserves_getNode|intros nd].
    apply preserves_bind.
    { destruct (parent nd).
      - apply preserves_bind; [apply preserves_getNode|intros pn].
        apply preserves_ret.
      - apply preserves_ret. }
    intros parentObj. apply preserves_bind.
    { intros s. unfold hostCreate.
      destruct (jointCreate (scene s) parentObj) as [sc obj]. cbn [final].
      eapply R_trans; [apply R_scene|apply R_request]. }
    intros obj. apply preserves_bind; [intros s; apply R_jointObj|intros _].
    apply preserves_bind; [intros s; apply R_scene|intros _].
    apply preserves_bind; [intros s; apply R_scene|intros _].
    apply preserves_each. exact IH.
Qed.

Lemma preserves_create_walk (fuel : nat) (rootVect : list addr) :
  preserves (create fuel rootVect).
Proof using R_refl R_trans R_scene R_request R_jointObj.
  unfold create. apply preserves_bind.
  - apply preserves_each. intros a. apply preserves_mayaCreate.
  - intros _. apply preserves_return.
Qed.

End Creating.

(** What stays related while the file is parsed. *)
Section Parsing.

Hypothesis R_extract :
  forall s t rest, tokens s = t :: rest -> R s (set_tokens rest s).
Hypothesis R_visit : forall s a, R s (log_visit a s).

Lemma preserves_extract (old : string) : preserves (extract old).
Proof using R_refl R_extract.
  intros s. unfold extract. destruct (tokens s) as [|t rest] eqn:E.
  - apply R_refl.
  - cbn [final]. eapply R_extract. exact E.
Qed.

Lemma preserves_motionHeader (currentToken : string) :
  preserves (motionHeader currentToken).
Proof using R_refl R_trans R_extract.
  unfold motionHeader.
  repeat first
    [ apply preserves_ret | apply preserves_return | apply preserves_convert
    | apply preserves_extract
    | match goal with
      | |- preserves (if ?b then _ else _) => destruct b
      end
    | apply preserves_bind; [|intros ?] ].
Qed.

Lemma preserves_readAnimNode (a : addr) (time : float) :
  preserves (readAnimNode a time).
Proof using R_refl. intros s. rewrite readAnimNode_noop. apply R_refl. Qed.

Lemma preserves_drainQueue (n fuel : nat) (time : float) (i : Z)
    (nodeQueue : list addr) :
  preserves (drainQueue n fuel time i nodeQueue).
Proof using R_refl R_trans R_visit.
  revert i nodeQueue. induction n as [|n IH]; intros i nodeQueue;
    destruct nodeQueue as [|node rest]; cbn [drainQueue];
    try apply preserves_ret; try apply preserves_outOfFuel.
  apply preserves_bind; [intros s; apply R_visit|intros _].
  apply preserves_bind; [apply preserves_readAnimNode|intros state].
  destruct (negb state); [apply preserves_return|].
  apply preserves_bind; [apply preserves_getNode|intros nd].
  destruct (pushChildren fuel (children nd) (lastIndex (children nd)) i rest).
  - apply IH.
  - apply preserves_outOfFuel.
Qed.

Lemma preserves_eachRoot (fuel : nat) (time : float) (i : Z)
    (roots : list addr) :
  preserves (eachRoot fuel time i roots).
Proof using R_refl R_trans R_visit.
  revert i. induction roots as [|root more IH]; intros i; cbn [eachRoot].
  - apply preserves_ret.
  - apply preserves_bind; [apply preserves_drainQueue|intros j; apply IH].
Qed.

Lemma preserves_framesLoop (n fuel : nat) (nbFrames : Z)
    (timeFrame time : float) (i : Z) (rootVect : list addr) :
  preserves (framesLoop n fuel nbFrames timeFrame time i rootVect).
Proof using R_refl R_trans R_visit.
  revert time i. induction n as [|n IH]; intros time i; cbn [framesLoop];
    destruct (i <? nbFrames);
    try apply preserves_ret; try apply preserves_outOfFuel.
  apply preserves_bind; [apply preserves_eachRoot|intros j; apply IH].
Qed.

Lemma preserves_motion (fuel : nat) (currentToken : string)
    (rootVect : list addr) :
  preserves (motion fuel currentToken rootVect).
Proof using R_refl R_trans R_extract R_visit.
  unfold motion. apply preserves_bind; [apply preserves_motionHeader|].
  intros header. apply preserves_framesLoop.
Qed.

(** Filling in the node at one address: [readNode] and its loops write
    the name, the offsets and the channels of that node and of no other. *)
Section Filling.

Variable a : addr.
Hypothesis R_set_name :
  forall s v, R s (set_heap (alter (set_name v) a (heap s)) s).
Hypothesis R_set_offset :
  forall s i v, R s (set_heap (alter (set_offset i v) a (heap s)) s).
Hypothesis R_push_channel :
  forall s v, R s (set_heap (alter (push_channel v) a (heap s)) s).

Lemma preserves_readOffset (i : nat) (currentToken : string) :
  preserves (readOffset a i currentToken).
Proof using R_refl R_trans R_extract R_set_offset.
  unfold readOffset.
  apply preserves_bind; [apply preserves_extract|intros tok].
  apply preserves_bind; [apply preserves_convert|intros v].
  apply preserves_bind; [intros s; apply R_set_offset|intros _].
  apply preserves_ret.
Qed.

Lemma preserves_readOffsets (currentToken : string) :
  preserves (readOffsets a currentToken).
Proof using R_refl R_trans R_extract R_set_offset.
  unfold readOffsets.
  apply preserves_bind; [apply preserves_readOffset|intros tok].
  apply preserves_bind; [apply preserves_readOffset|intros tok'].
  apply preserves_readOffset.
Qed.

Lemma preserves_readChannels (n : nat) (currentToken : string) :
  preserves (readChannels a n currentToken).
Proof using R_refl R_trans R_extract R_push_channel.
  revert currentToken. induction n as [|n IH]; intros currentToken;
    cbn [readChannels]; [apply preserves_ret|].
  apply preserves_bind; [apply preserves_extract|intros tok].
  apply preserves_bind; [intros s; apply R_push_channel|intros _].
  apply IH.
Qed.

Lemma preserves_readNode : preserves (readNode a).
Proof using R_refl R_trans R_extract R_set_name R_set_offset R_push_channel.
  unfold readNode.
  apply preserves_bind; [apply preserves_getNode|intros nd].
  apply preserves_bind; [apply preserves_extract|intros nm].
  apply preserves_bind; [intros s; apply R_set_name|intros _].
  apply preserves_bind; [apply preserves_extract|intros tok].
  destruct (negb (String.eqb tok "{")); [apply preserves_ret|].
  apply preserves_bind; [apply preserves_extract|intros tok1].
  destruct (negb (String.eqb tok1 "OFFSET")); [apply preserves_ret|].
  apply preserves_bind; [apply preserves_readOffsets|intros tok2].
  apply preserves_bind; [apply preserves_extract|intros tok3].
  destruct (negb (String.eqb tok3 "CHANNELS")); [apply preserves_ret|].
  apply preserves_bind; [apply preserves_extract|intros tok4].
  apply preserves_bind; [apply preserves_convert|intros nbChannels].
  apply preserves_bind; [apply preserves_readChannels|intros _].
  apply preserves_ret.
Qed.

End Filling.

(** The hierarchy also allocates nodes and links them. *)
Section Building.

Hypothesis R_new : forall s, R s (set_heap (heap s ++ [Node0]) s).
Hypothesis R_alter :
  forall s a f, edit f -> R s (set_heap (alter f a (heap s)) s).
Hypothesis R_endSite : forall s a, R s (log_endSite a s).

Lemma preserves_new_Node : preserves new_Node.
Proof using R_new. intros s. apply R_new. Qed.

Lemma preserves_modNode (a : addr) (f : Node -> Node) :
  edit f -> preserves (modNode a f).
Proof using R_alter. intros He s. apply R_alter. exact He. Qed.

Lemma preserves_mark_endSite (a : addr) : preserves (mark_endSite a).
Proof using R_endSite. intros s. apply R_endSite. Qed.

Ltac preserved :=
  repeat first
    [ apply preserves_ret | apply preserves_return | apply preserves_convert
    | apply preserves_extract | apply preserves_getNode
    | apply preserves_new_Node | apply preserves_modNode; constructor
    | apply preserves_mark_endSite
    | apply preserves_readOffsets; intros; apply R_alter; constructor
    | apply preserves_readNode; intros; apply R_alter; constructor
    | match goal with
      | |- preserves (if ?b then _ else _) => destruct b
      end
    | apply preserves_bind; [|intros ?] ].

Lemma preserves_readEndSite (back : addr) (currentToken : string) :
  preserves (readEndSite back currentToken).
Proof using R_refl R_trans R_extract R_new R_alter R_endSite.
  unfold readEndSite. preserved.
Qed.

Lemma preserves_readJoint (back : addr) : preserves (readJoint back).
Proof using R_refl R_trans R_extract R_new R_alter.
  unfold readJoint. preserved.
Qed.

Lemma preserves_openLoop (n : nat) (currentToken : string)
    (nodeQueue : list addr) :
  preserves (openLoop n currentToken nodeQueue).
Proof using R_refl R_trans R_extract R_new R_alter R_endSite.
  revert currentToken nodeQueue.
  induction n as [|n IH]; intros currentToken nodeQueue;
    destruct nodeQueue as [|back below]; cbn [openLoop];
    try apply preserves_ret; try apply preserves_outOfFuel.
  apply preserves_bind; [apply preserves_extract|intros tok].
  destruct (String.eqb tok "JOINT").
  { apply preserves_bind; [apply preserves_readJoint|intros node; apply IH]. }
  destruct (String.eqb tok "End").
  { apply preserves_bind; [apply preserves_readEndSite|intros t; apply IH]. }
  destruct (String.eqb tok "}"); [apply IH|apply preserves_return].
Qed.

Lemma preserves_rootsLoop (n fuel : nat) (currentToken : string)
    (rootVect : list addr) :
  preserves (rootsLoop n fuel currentToken rootVect).
Proof using R_refl R_trans R_extract R_new R_alter R_endSite.
  revert currentToken rootVect.
  induction n as [|n IH]; intros currentToken rootVect; cbn [rootsLoop];
    destruct (String.eqb currentToken "ROOT");
    try apply preserves_ret; try apply preserves_outOfFuel.
  apply preserves_bind; [apply preserves_new_Node|intros root].
  apply preserves_bind;
    [apply preserves_readNode; intros; apply R_alter; constructor
    |intros state].
  destruct (negb state); [apply preserves_return|].
  apply preserves_bind; [apply preserves_openLoop|intros tok].
  apply preserves_bind; [apply preserves_extract|intros tok'].
  apply IH.
Qed.


Lemma preserves_hierarchy (fuel : nat) : preserves (hierarchy fuel).
Proof using R_refl R_trans R_extract R_new R_alter R_endSite.
  unfold hierarchy. preserved. apply preserves_rootsLoop.
Qed.

Lemma preserves_parse (fuel : nat) : preserves (parse fuel).
Proof using R_refl R_trans R_extract R_visit R_new R_alter R_endSite.
  unfold parse. apply preserves_bind; [apply preserves_hierarchy|].
  intros hier. apply preserves_bind; [apply preserves_motion|].
  intros _. apply preserves_ret.
Qed.

End Building.

End Parsing.

End Preserved.

(** ** The channel names of a joint *)

Section ReadNode.

Context `{P : Platform}.

(** The channel names [cs] pushed one after the other. *)
Definition add_channels (cs : list string) (n : Node) : Node :=
  fold_left (fun n c => push_channel c n) cs n.

Lemma add_channels_fields (cs : list string) (n : Node) :
  add_channels cs n
  = {| name := name n; offset := offset n; channels := channels n ++ cs;
       jointObj := jointObj n; parent := parent n; children := children n;
       channelValues := channelValues n |}.
Proof.
  revert n. induction cs as [|c cs IH]; intros n; cbn.
  - rewrite app_nil_r. destruct n; reflexivity.
  - unfold add_channels in IH. rewrite IH. cbn.
    rewrite <- app_assoc. reflexivity.
Qed.

Lemma alter_add_channels (c : string) (cs : list string) (a : nat)
    (h : list Node) :
  alter (add_channels cs) a (alter (push_channel c) a h)
  = alter (add_channels (c :: cs)) a h.
Proof.
  revert a. induction h as [|x h IH]; intros a; [reflexivity|].
  destruct a as [|a]; cbn; [reflexivity|]. f_equal. apply IH.
Qed.

Lemma alter_add_no_channels (a : nat) (h : list Node) :
  alter (add_channels []) a h = h.
Proof.
  revert a. induction h as [|x h IH]; intros a; [reflexivity|].
  destruct a as [|a]; cbn; [reflexivity|]. f_equal. apply IH.
Qed.

Lemma last_default_irrelevant {A} (x : A) (l : list A) (d d' : A) :
  List.last (x :: l) d = List.last (x :: l) d'.
Proof.
  revert x. induction l as [|y l IH]; intros x; [reflexivity|].
  change (List.last (y :: l) d = List.last (y :: l) d'). apply IH.
Qed.

(** With the channel names in the stream, the loop of lines 385-388 takes
    them in order and leaves what follows. *)
Lemma readChannels_reads (cs : list string) :
  forall (a : nat) (currentToken : string) (rest : list string) (s : State),
    tokens s = cs ++ rest ->
    readChannels a (length cs) currentToken s
    = Ok (List.last cs currentToken)
        (set_tokens rest (set_heap (alter (add_channels cs) a (heap s)) s)).
Proof.
  induction cs as [|c cs IH]; intros a currentToken rest s Htoks.
  - destruct s as [toks h sc rq vi es]. cbn in Htoks. subst toks.
    cbn. unfold ret, set_tokens, set_heap. cbn.
    rewrite alter_add_no_channels. reflexivity.
  - cbn [length readChannels]. unfold bind at 1. unfold extract.
    rewrite Htoks. cbn [app]. unfold bind at 1. cbn [modNode].
    rewrite (IH a c rest) by reflexivity.
    cbn [heap set_heap set_tokens]. rewrite alter_add_channels.
    f_equal. destruct cs as [|c' cs]; [reflexivity|].
    change (List.last (c :: c' :: cs) currentToken)
      with (List.last (c' :: cs) currentToken).
    apply last_default_irrelevant.
Qed.

(** At the end of the stream the same loop pushes the last token read,
    once per iteration. *)
Lemma readChannels_at_eof (n : nat) :
  forall (a : nat) (currentToken : string) (s : State),
    tokens s = [] ->
    readChannels a n currentToken s
    = Ok currentToken
        (set_heap (alter (add_channels (replicate n currentToken)) a (heap s))
           s).
Proof.
  induction n as [|n IH]; intros a currentToken s Htoks.
  - destruct s as [toks h sc rq vi es]. cbn in Htoks. subst toks.
    cbn. unfold ret, set_heap. cbn.
    rewrite alter_add_no_channels. reflexivity.
  - cbn [readChannels replicate]. unfold bind at 1. unfold extract.
    rewrite Htoks. unfold bind at 1. cbn [modNode].
    rewrite IH by exact Htoks.
    cbn [heap set_heap]. rewrite alter_add_channels. reflexivity.
Qed.

End ReadNode.

(** ** Well-formed hierarchies

    The hierarchy section of a file as a tree of blocks, following the
    grammar of the format: a ROOT or JOINT block has a name, an OFFSET of
    three numbers, a CHANNELS count with that many channel names, and any
    number of nested JOINT blocks and End blocks; an End block has a name
    and an OFFSET.  The fields hold the tokens as they stand in the file. *)

#[warnings="-register-all"] Inductive Block :=
| JointBlock (nm f0 f1 f2 cnt : string) (chans : list string)
    (kids : list Block)
| EndBlock (nm f0 f1 f2 : string).

Section Grammar.

Context `{P : Platform}.

Local Open Scope nat_scope.

Definition keyword (b : Block) : string :=
  match b with
  | JointBlock _ _ _ _ _ _ _ => "JOINT"
  | EndBlock _ _ _ _ => "End"
  end.

(** The tokens of a block after its keyword. *)
Fixpoint body (b : Block) : list string :=
  match b with
  | JointBlock nm f0 f1 f2 cnt chans kids =>
      nm :: "{" :: "OFFSET" :: f0 :: f1 :: f2 :: "CHANNELS" :: cnt :: chans
        ++ flat_map (fun k => keyword k :: body k) kids ++ ["}"]
  | EndBlock nm f0 f1 f2 => [nm; "{"; "OFFSET"; f0; f1; f2; "}"]
  end.

Definition child_tokens (k : Block) : list string := keyword k :: body k.

Definition root_tokens (r : Block) : list string := "ROOT" :: body r.

(** The hierarchy section with the blocks [rs] as ROOT blocks. *)
Definition hierarchy_tokens (rs : list Block) : list string :=
  "HIERARCHY" :: flat_map root_tokens rs.

Definition is_joint (b : Block) : bool :=
  match b with
  | JointBlock _ _ _ _ _ _ _ => true
  | EndBlock _ _ _ _ => false
  end.

Definition is_number (f : string) : bool :=
  match stof f with
  | Converted _ => true
  | Raises _ => false
  end.

(** The numbers are numbers and the CHANNELS count is the number of
    channel names (a count below zero stands for none). *)
Fixpoint well_formed (b : Block) : bool :=
  match b with
  | JointBlock nm f0 f1 f2 cnt chans kids =>
      is_number f0 && is_number f1 && is_number f2
      && match stoi cnt with
         | Converted k => Nat.eqb (Z.to_nat k) (length chans)
         | Raises _ => false
         end
      && forallb well_formed kids
  | EndBlock nm f0 f1 f2 => is_number f0 && is_number f1 && is_number f2
  end.

(** The number of joints of a block, the block itself included. *)
Fixpoint size (b : Block) : nat :=
  match b with
  | JointBlock _ _ _ _ _ _ kids =>
      S (fold_right (fun k n => size k + n) 0 kids)
  | EndBlock _ _ _ _ => 1
  end.

Definition sizes (ks : list Block) : nat :=
  fold_right (fun k n => size k + n) 0 ks.

(** The blocks [ks] follow one another in the file and the first of them
    is the [c]-th block of the file: the positions at which they start. *)
Fixpoint starts (c : nat) (ks : list Block) : list nat :=
  match ks with
  | [] => []
  | k :: ks' => c :: starts (c + size k) ks'
  end.

Definition number (f : string) : option float :=
  match stof f with
  | Converted v => Some v
  | Raises _ => None
  end.

(** The joints of a block as [reader] is to build them when the block is
    the [a]-th of the file and lies directly inside the block numbered
    [par]: one node per block, in the order in which the blocks begin in
    the file, so that the [a]-th block of the file is the [a]-th node
    allocated.  The children of a node are its nested blocks in the order
    of the file, and the parent of each of them is that node. *)
Fixpoint layout (par : option nat) (a : nat) (b : Block) : list Node :=
  match b with
  | JointBlock nm f0 f1 f2 cnt chans kids =>
      {| name := nm; offset := [number f0; number f1; number f2];
         channels := chans; jointObj := kNullObj; parent := par;
         children := starts (S a) kids; channelValues := [] |}
      :: (fix go (c : nat) (ks : list Block) : list Node :=
            match ks with
            | [] => []
            | k :: ks' => layout (Some a) c k ++ go (c + size k) ks'
            end) (S a) kids
  | EndBlock nm f0 f1 f2 =>
      [{| name := nm; offset := [number f0; number f1; number f2];
          channels := []; jointObj := kNullObj; parent := par;
          children := []; channelValues := [] |}]
  end.

Fixpoint layouts (par : option nat) (c : nat) (ks : list Block) : list Node :=
  match ks with
  | [] => []
  | k :: ks' => layout par c k ++ layouts par (c + size k) ks'
  end.

(** The positions of the End blocks. *)
Fixpoint ends (a : nat) (b : Block) : list nat :=
  match b with
  | JointBlock _ _ _ _ _ _ kids =>
      (fix go (c : nat) (ks : list Block) : list nat :=
         match ks with
         | [] => []
         | k :: ks' => ends c k ++ go (c + size k) ks'
         end) (S a) kids
  | EndBlock _ _ _ _ => [a]
  end.

Fixpoint ends_of (c : nat) (ks : list Block) : list nat :=
  match ks with
  | [] => []
  | k :: ks' => ends c k ++ ends_of (c + size k) ks'
  end.

(** The iterations of the loop over the open joints that a block takes
    as a child: one for an End block; for a JOINT block one for the
    keyword, those of its children, and one for its closing brace. *)
Fixpoint iterations (b : Block) : nat :=
  match b with
  | JointBlock _ _ _ _ _ _ kids =>
      S (S (fold_right (fun k n => iterations k + n) 0 kids))
  | EndBlock _ _ _ _ => 1
  end.

Definition iterations_of (ks : list Block) : nat :=
  fold_right (fun k n => iterations k + n) 0 ks.

Lemma Block_nested_ind (Q : Block -> Prop) :
  (forall nm f0 f1 f2 cnt chans kids,
     Forall Q kids -> Q (JointBlock nm f0 f1 f2 cnt chans kids)) ->
  (forall nm f0 f1 f2, Q (EndBlock nm f0 f1 f2)) ->
  forall b, Q b.
Proof.
  intros HJ HE. fix IH 1. intros [nm f0 f1 f2 cnt chans kids|nm f0 f1 f2].
  - apply HJ. revert kids. fix IHk 1. intros [|k ks].
    + constructor.
    + constructor; [apply IH|apply IHk].
  - apply HE.
Qed.

Lemma layout_joint (par : option nat) (a : nat) nm f0 f1 f2 cnt chans kids :
  layout par a (JointBlock nm f0 f1 f2 cnt chans kids)
  = {| name := nm; offset := [number f0; number f1; number f2];
       channels := chans; jointObj := kNullObj; parent := par;
       children := starts (S a) kids; channelValues := [] |}
    :: layouts (Some a) (S a) kids.
Proof.
  cbn [layout]. f_equal. generalize (S a) as c.
  induction kids as [|k ks IH]; intros c; [reflexivity|].
  cbn [layouts]. rewrite <- IH. reflexivity.
Qed.

Lemma ends_joint (a : nat) nm f0 f1 f2 cnt chans kids :
  ends a (JointBlock nm f0 f1 f2 cnt chans kids) = ends_of (S a) kids.
Proof. reflexivity. Qed.

Lemma size_joint nm f0 f1 f2 cnt chans kids :
  size (JointBlock nm f0 f1 f2 cnt chans kids) = S (sizes kids).
Proof. reflexivity. Qed.

Lemma iterations_joint nm f0 f1 f2 cnt chans kids :
  iterations (JointBlock nm f0 f1 f2 cnt chans kids)
  = S (S (iterations_of kids)).
Proof. reflexivity. Qed.

Lemma length_layouts_from (par : option nat) (ks : list Block) :
  Forall (fun b => forall par a, length (layout par a b) = size b) ks ->
  forall c, length (layouts par c ks) = sizes ks.
Proof.
  induction 1 as [|k ks Hk _ IH]; intros c; [reflexivity|].
  cbn [layouts sizes fold_right]. rewrite length_app, Hk, IH. reflexivity.
Qed.

Lemma length_layout (b : Block) :
  forall par a, length (layout par a b) = size b.
Proof.
  induction b as [nm f0 f1 f2 cnt chans kids IH|nm f0 f1 f2]
    using Block_nested_ind; intros par a; [|reflexivity].
  rewrite layout_joint, size_joint. cbn [length]. f_equal.
  apply length_layouts_from. exact IH.
Qed.

Lemma length_layouts (par : option nat) (c : nat) (ks : list Block) :
  length (layouts par c ks) = sizes ks.
Proof.
  apply length_layouts_from. apply Forall_forall. intros b _.
  apply length_layout.
Qed.

Lemma size_pos (b : Block) : 1 <= size b.
Proof. destruct b; cbn [size]; lia. Qed.

(** ** Lists of nodes *)

Lemma alter_new {A} (f : A -> A) (h : list A) (x : A) :
  alter f (length h) (h ++ [x]) = h ++ [f x].
Proof.
  pose proof (alter_app_r f h [x] 0) as H.
  rewrite Nat.add_0_r in H. exact H.
Qed.

Lemma alter_new_after {A} (f g : A -> A) (b : nat) (h : list A) (x : A) :
  alter f (length h) (alter g b h ++ [x]) = alter g b h ++ [f x].
Proof.
  rewrite <- (length_alter g h b) at 1. apply alter_new.
Qed.

Lemma alter_twice {A} (f g : A -> A) (a : nat) (h : list A) :
  alter f a (alter g a h) = alter (fun x => f (g x)) a h.
Proof.
  revert a. induction h as [|x h IH]; intros a; [reflexivity|].
  destruct a as [|a]; cbn; [reflexivity|]. f_equal. apply IH.
Qed.

Lemma alter_same {A} (f g : A -> A) (a : nat) (h : list A) :
  (forall x, f x = g x) -> alter f a h = alter g a h.
Proof.
  intros E. revert a. induction h as [|x h IH]; intros a; [reflexivity|].
  destruct a as [|a]; cbn; [rewrite E; reflexivity|]. f_equal. apply IH.
Qed.

Lemma alter_nothing {A} (f : A -> A) (a : nat) (h : list A) :
  (forall x, f x = x) -> alter f a h = h.
Proof.
  intros E. revert a. induction h as [|x h IH]; intros a; [reflexivity|].
  destruct a as [|a]; cbn; [rewrite E; reflexivity|]. f_equal. apply IH.
Qed.

(** The children [cs] pushed one after the other. *)
Definition add_children (cs : list nat) (n : Node) : Node :=
  {| name := name n; offset := offset n; channels := channels n;
     jointObj := jointObj n; parent := parent n;
     children := children n ++ cs; channelValues := channelValues n |}.

Lemma add_children_nil (n : Node) : add_children [] n = n.
Proof.
  destruct n. unfold add_children. cbn. rewrite app_nil_r. reflexivity.
Qed.

Lemma add_children_cons (c : nat) (cs : list nat) (n : Node) :
  add_children cs (push_child c n) = add_children (c :: cs) n.
Proof.
  unfold add_children, push_child. cbn. rewrite <- app_assoc. reflexivity.
Qed.

(** ** The loops of the hierarchy on well-formed blocks *)

(** The state after the children [ks] of [back] have been read. *)
Definition after_kids (back : nat) (ks : list Block) (rest : list string)
    (s : State) : State :=
  {| tokens := rest;
     heap := alter (add_children (starts (length (heap s)) ks)) back (heap s)
             ++ layouts (Some back) (length (heap s)) ks;
     scene := scene s; requests := requests s; visited := visited s;
     endSites := endSites s ++ ends_of (length (heap s)) ks |}.

Lemma after_kids_nil (back : nat) (s : State) :
  after_kids back [] (tokens s) s = s.
Proof.
  destruct s as [toks h sc rq vi es]. unfold after_kids. cbn.
  rewrite !app_nil_r. f_equal. apply alter_nothing. apply add_children_nil.
Qed.

Lemma after_kids_cons (back : nat) (k : Block) (ks : list Block)
    (rest rest' : list string) (s : State) :
  back < length (heap s) ->
  after_kids back ks rest (after_kids back [k] rest' s)
  = after_kids back (k :: ks) rest s.
Proof.
  intros Hback. destruct s as [toks h sc rq vi es]. cbn [heap] in Hback.
  unfold after_kids.
  cbn [tokens heap scene requests visited endSites layouts starts ends_of].
  rewrite !app_nil_r.
  rewrite !length_app, length_alter, length_layout.
  f_equal.
  - rewrite alter_app_l by (rewrite length_alter; exact Hback).
    rewrite alter_twice, <- app_assoc. f_equal.
    apply alter_same. intros n. unfold add_children. cbn.
    rewrite <- app_assoc. reflexivity.
  - rewrite <- app_assoc. reflexivity.
Qed.

Lemma openLoop_nil (n : nat) (tok : string) (s : State) :
  openLoop n tok [] s = Ok tok s.
Proof. destruct n; reflexivity. Qed.

(** One iteration of the loop over the open joints. *)
Lemma openLoop_step (n : nat) (tok t : string) (back : nat)
    (below : list nat) (rest : list string) (s : State) :
  tokens s = t :: rest ->
  openLoop (S n) tok (back :: below) s
  = (if String.eqb t "JOINT" then
       node <- readJoint back;
       openLoop n t (node :: back :: below)
     else if String.eqb t "End" then
       currentToken <- readEndSite back t;
       openLoop n currentToken (back :: below)
     else if String.eqb t "}" then openLoop n t below
     else return_ kFailure) (set_tokens rest s).
Proof.
  intros Htoks. cbn [openLoop]. unfold bind at 1. unfold extract.
  rewrite Htoks. reflexivity.
Qed.

Lemma is_number_number (f : string) :
  is_number f = true -> exists v, stof f = Converted v /\ number f = Some v.
Proof.
  unfold is_number, number. destruct (stof f) as [v|e]; [eauto|discriminate].
Qed.

(** [readNode] on a node that was just allocated. *)
Lemma readNode_new (h : list Node) (sc : Scene) (rq vi es : list nat)
    (nm f0 f1 f2 cnt : string) (k : Z) (chans rest : list string) :
  is_number f0 = true -> is_number f1 = true -> is_number f2 = true ->
  stoi cnt = Converted k -> Z.to_nat k = length chans ->
  readNode (length h)
    {| tokens := nm :: "{" :: "OFFSET" :: f0 :: f1 :: f2 :: "CHANNELS" :: cnt
                   :: chans ++ rest;
       heap := h ++ [Node0]; scene := sc; requests := rq; visited := vi;
       endSites := es |}
  = Ok true
      {| tokens := rest;
         heap := h ++ [{| name := nm;
                          offset := [number f0; number f1; number f2];
                          channels := chans; jointObj := kNullObj;
                          parent := None; children := [];
                          channelValues := [] |}];
         scene := sc; requests := rq; visited := vi; endSites := es |}.
Proof.
  intros H0 H1 H2 Hk Hlen.
  apply is_number_number in H0 as (v0 & H0 & N0).
  apply is_number_number in H1 as (v1 & H1 & N1).
  apply is_number_number in H2 as (v2 & H2 & N2).
  rewrite N0, N1, N2.
  unfold readNode, readOffsets, readOffset.
  unfold bind, getNode, extract, modNode.
  cbn. rewrite H0. cbn. rewrite H1. cbn. rewrite H2. cbn. rewrite Hk. cbn.
  rewrite Hlen.
  rewrite (readChannels_reads chans (length h) cnt rest) by reflexivity.
  cbn [heap set_heap set_tokens tokens scene requests visited endSites].
  rewrite !alter_new. rewrite add_channels_fields. reflexivity.
Qed.

(** The [End] branch on the tokens of an End block. *)
Lemma readEndSite_block (back : nat) (tok : string) (h : list Node)
    (sc : Scene) (rq vi es : list nat) (nm f0 f1 f2 : string)
    (rest : list string) :
  back < length h ->
  is_number f0 = true -> is_number f1 = true -> is_number f2 = true ->
  readEndSite back tok
    {| tokens := nm :: "{" :: "OFFSET" :: f0 :: f1 :: f2 :: "}" :: rest;
       heap := h; scene := sc; requests := rq; visited := vi;
       endSites := es |}
  = Ok "}"
      {| tokens := rest;
         heap := alter (push_child (length h)) back h
                 ++ [{| name := nm;
                        offset := [number f0; number f1; number f2];
                        channels := []; jointObj := kNullObj;
                        parent := Some back; children := [];
                        channelValues := [] |}];
         scene := sc; requests := rq; visited := vi;
         endSites := es ++ [length h] |}.
Proof.
  intros Hback H0 H1 H2.
  apply is_number_number in H0 as (v0 & H0 & N0).
  apply is_number_number in H1 as (v1 & H1 & N1).
  apply is_number_number in H2 as (v2 & H2 & N2).
  rewrite N0, N1, N2.
  unfold readEndSite, readOffsets, readOffset, bind, getNode, extract,
    modNode, new_Node, mark_endSite.
  cbn. rewrite H0. cbn. rewrite H1. cbn. rewrite H2. cbn.
  rewrite !alter_new.
  rewrite (alter_app_l _ h) by exact Hback.
  rewrite alter_new_after. reflexivity.
Qed.

(** The [JOINT] branch up to the children of the new joint. *)
Lemma readJoint_block (back : nat) (h : list Node)
    (sc : Scene) (rq vi es : list nat)
    (nm f0 f1 f2 cnt : string) (k : Z) (chans rest : list string) :
  back < length h ->
  is_number f0 = true -> is_number f1 = true -> is_number f2 = true ->
  stoi cnt = Converted k -> Z.to_nat k = length chans ->
  readJoint back
    {| tokens := nm :: "{" :: "OFFSET" :: f0 :: f1 :: f2 :: "CHANNELS" :: cnt
                   :: chans ++ rest;
       heap := h; scene := sc; requests := rq; visited := vi;
       endSites := es |}
  = Ok (length h)
      {| tokens := rest;
         heap := alter (push_child (length h)) back h
                 ++ [{| name := nm;
                        offset := [number f0; number f1; number f2];
                        channels := chans; jointObj := kNullObj;
                        parent := Some back; children := [];
                        channelValues := [] |}];
         scene := sc; requests := rq; visited := vi; endSites := es |}.
Proof.
  intros Hback H0 H1 H2 Hk Hlen.
  unfold readJoint. unfold bind at 1. unfold new_Node, set_heap.
  cbn [tokens heap scene requests visited endSites].
  unfold bind at 1.
  rewrite (readNode_new h sc rq vi es nm f0 f1 f2 cnt k chans rest)
    by assumption.
  cbn [negb]. unfold bind, modNode, ret, set_heap.
  cbn [tokens heap scene requests visited endSites].
  rewrite (alter_app_l _ h) by exact Hback.
  rewrite alter_new_after. reflexivity.
Qed.


(** What the loop over the open joints does on a child block of the
    joint [back] on top of the stack: after the iterations of the block
    the stack is as before and the block is in the heap. *)
Definition reads_child (k : Block) : Prop :=
  well_formed k = true ->
  forall (fuel : nat) (tok : string) (back : nat) (below : list nat)
         (s : State) (rest : list string),
    tokens s = child_tokens k ++ rest ->
    back < length (heap s) ->
    exists tok',
      openLoop (iterations k + fuel) tok (back :: below) s
      = openLoop fuel tok' (back :: below) (after_kids back [k] rest s).

Lemma openLoop_kids (ks : list Block) :
  Forall reads_child ks ->
  forallb well_formed ks = true ->
  forall (fuel : nat) (tok : string) (back : nat) (below : list nat)
         (s : State) (rest : list string),
    tokens s = flat_map child_tokens ks ++ rest ->
    back < length (heap s) ->
    exists tok',
      openLoop (iterations_of ks + fuel) tok (back :: below) s
      = openLoop fuel tok' (back :: below) (after_kids back ks rest s).
Proof.
  induction 1 as [|k ks Hk _ IH]; intros Hwf fuel tok back below s rest
    Htoks Hback.
  - exists tok. cbn in Htoks. rewrite <- Htoks, after_kids_nil. reflexivity.
  - cbn [forallb] in Hwf. apply andb_true_iff in Hwf as [Hwk Hwks].
    cbn [flat_map] in Htoks. rewrite <- app_assoc in Htoks.
    destruct (Hk Hwk (iterations_of ks + fuel) tok back below s _
                Htoks Hback) as [tok1 E1].
    destruct (IH Hwks fuel tok1 back below
                (after_kids back [k] (flat_map child_tokens ks ++ rest) s)
                rest) as [tok2 E2].
    + reflexivity.
    + unfold after_kids. cbn [heap]. rewrite length_app, length_alter. lia.
    + exists tok2.
      replace (iterations_of (k :: ks) + fuel)
        with (iterations k + (iterations_of ks + fuel))
        by (cbn [iterations_of fold_right]; unfold iterations_of; lia).
      rewrite E1, E2, after_kids_cons by exact Hback. reflexivity.
Qed.

Lemma well_formed_joint nm f0 f1 f2 cnt chans kids :
  well_formed (JointBlock nm f0 f1 f2 cnt chans kids) = true ->
  is_number f0 = true /\ is_number f1 = true /\ is_number f2 = true
  /\ (exists k, stoi cnt = Converted k /\ Z.to_nat k = length chans)
  /\ forallb well_formed kids = true.
Proof.
  cbn [well_formed]. intros H.
  apply andb_true_iff in H as [H Hkids].
  apply andb_true_iff in H as [H Hcnt].
  apply andb_true_iff in H as [H H2].
  apply andb_true_iff in H as [H0 H1].
  repeat split; try assumption.
  destruct (stoi cnt) as [k|e]; [|discriminate Hcnt].
  exists k. split; [reflexivity|]. apply Nat.eqb_eq. exact Hcnt.
Qed.

Lemma reads_every_child (k : Block) : reads_child k.
Proof.
  induction k as [nm f0 f1 f2 cnt chans kids IH|nm f0 f1 f2]
    using Block_nested_ind;
    intros Hwf fuel tok back below s rest Htoks Hback;
    destruct s as [toks h sc rq vi es]; cbn [tokens heap] in Htoks, Hback;
    subst toks.
  - apply well_formed_joint in Hwf
      as (H0 & H1 & H2 & (k & Hk & Hlen) & Hkids).
    rewrite iterations_joint. cbn [Nat.add].
    rewrite (openLoop_step _ _ "JOINT" _ _
               (body (JointBlock nm f0 f1 f2 cnt chans kids) ++ rest))
      by reflexivity.
    change (String.eqb "JOINT" "JOINT") with true. cbv iota.
    unfold bind at 1. unfold set_tokens.
    cbn [tokens heap scene requests visited endSites body app].
    rewrite <- !app_assoc.
    rewrite (readJoint_block back h sc rq vi es nm f0 f1 f2 cnt k chans)
      by assumption.
    replace (S (iterations_of kids + fuel))
      with (iterations_of kids + S fuel) by lia.
    match goal with
    | |- exists _, openLoop _ _ _ ?s2 = _ =>
        destruct (openLoop_kids kids IH Hkids (S fuel) "JOINT" (length h)
                    (back :: below) s2 ("}" :: rest)) as [tok1 E1]
    end.
    + reflexivity.
    + cbn [heap]. rewrite length_app, length_alter. cbn [length]. lia.
    + rewrite E1.
      rewrite (openLoop_step fuel tok1 "}" (length h) (back :: below) rest)
        by reflexivity.
      change (String.eqb "}" "JOINT") with false.
      change (String.eqb "}" "End") with false.
      change (String.eqb "}" "}") with true. cbv iota.
      exists "}". f_equal.
      unfold after_kids, set_tokens.
      cbn [tokens heap scene requests visited endSites layouts starts
             ends_of].
      rewrite !app_nil_r, length_app, length_alter. cbn [length].
      replace (length h + 1) with (S (length h)) by lia.
      rewrite layout_joint, ends_joint, alter_new_after.
      cbn [add_children name offset channels jointObj parent children
             channelValues app].
      rewrite <- app_assoc. reflexivity.
  - cbn [well_formed] in Hwf.
    apply andb_true_iff in Hwf as [Hwf H2].
    apply andb_true_iff in Hwf as [H0 H1].
    cbn [iterations Nat.add].
    rewrite (openLoop_step _ _ "End" _ _
               (body (EndBlock nm f0 f1 f2) ++ rest))
      by reflexivity.
    change (String.eqb "End" "JOINT") with false.
    change (String.eqb "End" "End") with true. cbv iota.
    unfold bind at 1. unfold set_tokens.
    cbn [tokens heap scene requests visited endSites body app].
    rewrite (readEndSite_block back "End" h sc rq vi es nm f0 f1 f2 rest)
      by assumption.
    exists "}". f_equal.
Qed.

(** The loop over the open joints on the children of a root and the
    closing brace of the root. *)
Lemma openLoop_root (kids : list Block) (c : nat) (tok : string)
    (rest : list string) (s : State) (fuel : nat) :
  forallb well_formed kids = true ->
  tokens s = flat_map child_tokens kids ++ "}" :: rest ->
  c < length (heap s) ->
  S (iterations_of kids) <= fuel ->
  openLoop fuel tok [c] s
  = Ok "}" (set_tokens rest (after_kids c kids ("}" :: rest) s)).
Proof.
  intros Hwf Htoks Hc Hfuel.
  replace fuel with (iterations_of kids + S (fuel - S (iterations_of kids)))
    by lia.
  destruct (openLoop_kids kids
              (proj2 (Forall_forall _ _) (fun k _ => reads_every_child k))
              Hwf (S (fuel - S (iterations_of kids))) tok c [] s
              ("}" :: rest) Htoks Hc) as [tok1 E1].
  rewrite E1.
  rewrite (openLoop_step _ tok1 "}" c [] rest) by reflexivity.
  change (String.eqb "}" "JOINT") with false.
  change (String.eqb "}" "End") with false.
  change (String.eqb "}" "}") with true. cbv iota.
  apply openLoop_nil.
Qed.


(** The state after the ROOT blocks [rs] have been read. *)
Definition after_roots (rs : list Block) (rest : list string) (s : State)
  : State :=
  {| tokens := rest;
     heap := heap s ++ layouts None (length (heap s)) rs;
     scene := scene s; requests := requests s; visited := visited s;
     endSites := endSites s ++ ends_of (length (heap s)) rs |}.

Lemma tokens_not_nil (rs : list Block) (t : string) (rest : list string) :
  flat_map root_tokens rs ++ t :: rest <> [].
Proof. destruct rs; discriminate. Qed.

(** The loop over the ROOT blocks: [tok] is the token already taken from
    the stream, [t] the token that follows the last block. *)
Lemma rootsLoop_roots (fuel : nat) (t : string) (rest : list string) :
  t <> "ROOT" ->
  forall (rs : list Block),
    forallb is_joint rs = true ->
    forallb well_formed rs = true ->
    (forall r, r ∈ rs -> iterations r <= S fuel) ->
    forall (n : nat) (rootVect : list nat) (s : State) (tok : string),
      tok :: tokens s = flat_map root_tokens rs ++ t :: rest ->
      rootsLoop (length rs + n) fuel tok rootVect s
      = Ok (t, rootVect ++ starts (length (heap s)) rs)
          (after_roots rs rest s).
Proof.
  intros Ht. induction rs as [|r rs IH];
    intros Hj Hwf Hfuel n rootVect s tok Htok;
    destruct s as [toks h sc rq vi es]; cbn [tokens heap] in *.
  - cbn in Htok. injection Htok as -> ->.
    apply String.eqb_neq in Ht.
    cbn [length Nat.add]. destruct n; cbn [rootsLoop]; rewrite Ht;
      unfold ret, after_roots; cbn; rewrite !app_nil_r; reflexivity.
  - cbn [forallb] in Hj, Hwf.
    apply andb_true_iff in Hj as [Hjr Hj].
    apply andb_true_iff in Hwf as [Hwr Hwf].
    destruct r as [nm f0 f1 f2 cnt chans kids|]; [|discriminate Hjr].
    pose proof (Hfuel _ (list_elem_of_here _ _)) as Hr.
    rewrite iterations_joint in Hr.
    apply well_formed_joint in Hwr
      as (H0 & H1 & H2 & (k & Hk & Hlen) & Hkids).
    cbn [flat_map root_tokens body app] in Htok.
    injection Htok as -> ->.
    cbn [length Nat.add rootsLoop].
    change (String.eqb "ROOT" "ROOT") with true. cbv iota.
    unfold bind at 1. unfold new_Node, set_heap.
    cbn [tokens heap scene requests visited endSites].
    unfold bind at 1. rewrite <- !app_assoc.
    rewrite (readNode_new h sc rq vi es nm f0 f1 f2 cnt k chans)
      by assumption.
    cbn [negb]. unfold bind at 1.
    erewrite (openLoop_root kids (length h) "ROOT");
      [|exact Hkids|cbn [tokens app]; reflexivity
       |cbn [heap]; rewrite length_app; cbn [length]; lia|lia].
    unfold bind at 1. unfold extract, set_tokens, after_kids.
    cbn [tokens heap scene requests visited endSites].
    destruct (flat_map root_tokens rs ++ t :: rest) as [|tok2 toks2] eqn:EL;
      [exfalso; exact (tokens_not_nil _ _ _ EL)|].
    rewrite (IH Hj Hwf) by
      first [ intros r Hin; apply Hfuel; apply list_elem_of_further; exact Hin
            | reflexivity ].
    unfold after_roots.
    cbn [tokens heap scene requests visited endSites layouts starts ends_of].
    rewrite !length_app, length_alter, length_layouts, length_app.
    cbn [length].
    rewrite layout_joint, ends_joint, size_joint, alter_new.
    cbn [add_children name offset channels jointObj parent children
           channelValues app].
    replace (length h + 1) with (S (length h)) by lia.
    replace (S (length h) + sizes kids) with (length h + S (sizes kids))
      by lia.
    rewrite <- !app_assoc. reflexivity.
Qed.

Lemma iterations_le (b : Block) : iterations b <= 2 * size b.
Proof.
  induction b as [nm f0 f1 f2 cnt chans kids IH|nm f0 f1 f2]
    using Block_nested_ind; [|cbn; lia].
  rewrite iterations_joint, size_joint.
  assert (iterations_of kids <= 2 * sizes kids); [|lia].
  induction IH as [|k ks Hk _ IHk]; [cbn; lia|].
  unfold iterations_of, sizes in *. cbn [fold_right]. lia.
Qed.

Lemma size_le_sizes (r : Block) (rs : list Block) :
  r ∈ rs -> size r <= sizes rs.
Proof.
  induction 1 as [r rs|r r' rs _ IH]; unfold sizes in *; cbn [fold_right];
    lia.
Qed.

Lemma length_le_sizes (rs : list Block) : length rs <= sizes rs.
Proof.
  induction rs as [|r rs IH]; [cbn; lia|].
  unfold sizes in *. cbn [fold_right length]. pose proof (size_pos r). lia.
Qed.

(** The hierarchy section of a well-formed file is read as it stands:
    [reader] leaves the loop over the ROOT blocks with the token that
    follows them, [rootVect] holds the roots in the order of the file, the
    heap holds the joints of the blocks, and the stream is at the token
    after [t]. *)
Lemma hierarchy_reads (fuel : nat) (sc : Scene) (rs : list Block)
    (t : string) (rest : list string) :
  forallb is_joint rs = true ->
  forallb well_formed rs = true ->
  t <> "ROOT" ->
  2 * sizes rs <= fuel ->
  hierarchy fuel (initial sc (hierarchy_tokens rs ++ t :: rest))
  = Ok (t, starts 0 rs)
      {| tokens := rest; heap := layouts None 0 rs; scene := sc;
         requests := []; visited := []; endSites := ends_of 0 rs |}.
Proof.
  intros Hj Hwf Ht Hfuel.
  unfold hierarchy, hierarchy_tokens, initial.
  unfold bind at 1. unfold extract at 1. cbn [tokens app].
  change (String.eqb "HIERARCHY" "HIERARCHY") with true. cbn [negb].
  unfold bind at 1. unfold extract, set_tokens.
  cbn [tokens heap scene requests visited endSites].
  destruct (flat_map root_tokens rs ++ t :: rest) as [|tok toks] eqn:EL;
    [exfalso; exact (tokens_not_nil _ _ _ EL)|].
  replace fuel with (length rs + (fuel - length rs)) at 1
    by (pose proof (length_le_sizes rs); lia).
  rewrite (rootsLoop_roots fuel t rest Ht rs Hj Hwf).
  - reflexivity.
  - intros r Hr. pose proof (iterations_le r).
    pose proof (size_le_sizes r rs Hr). lia.
  - cbn [tokens]. symmetry. exact EL.
Qed.


(** ** The tree of nodes and the tree of blocks *)

(** The node at [a] stands for the block [b] lying directly inside the
    block whose node is [par] ([None] for a ROOT block): it carries the
    name, the offset and the channels of the block and points to [par];
    for a ROOT or JOINT block its children stand, one by one and in the
    order of the file, for the blocks nested in it; for an End block it
    has no channel and no child and was made by the [End] branch. *)
#[warnings="-register-all"] Inductive represents (s : State)
  : option nat -> nat -> Block -> Prop :=
| represents_joint (par : option nat) (a : nat)
    (nm f0 f1 f2 cnt : string) (chans : list string) (kids : list Block) :
    a < length (heap s) ->
    name (node_at a s) = nm ->
    offset (node_at a s) = [number f0; number f1; number f2] ->
    channels (node_at a s) = chans ->
    parent (node_at a s) = par ->
    Forall2 (represents s (Some a)) (children (node_at a s)) kids ->
    represents s par a (JointBlock nm f0 f1 f2 cnt chans kids)
| represents_end (par : option nat) (a : nat) (nm f0 f1 f2 : string) :
    a < length (heap s) ->
    a ∈ endSites s ->
    name (node_at a s) = nm ->
    offset (node_at a s) = [number f0; number f1; number f2] ->
    channels (node_at a s) = [] ->
    children (node_at a s) = [] ->
    parent (node_at a s) = par ->
    represents s par a (EndBlock nm f0 f1 f2).

(** The nodes [l] are in the heap from the address [a] on. *)
Definition holds (s : State) (a : nat) (l : list Node) : Prop :=
  forall i n, l !! i = Some n -> heap s !! (a + i) = Some n.

Lemma holds_app (s : State) (a : nat) (l1 l2 : list Node) :
  holds s a (l1 ++ l2) -> holds s a l1 /\ holds s (a + length l1) l2.
Proof.
  intros H. split; intros i n Hi.
  - apply H. apply lookup_app_l_Some. exact Hi.
  - rewrite <- Nat.add_assoc. apply H.
    rewrite lookup_app_r by lia.
    replace (length l1 + i - length l1) with i by lia. exact Hi.
Qed.

Lemma holds_head (s : State) (a : nat) (n : Node) (l : list Node) :
  holds s a (n :: l) ->
  a < length (heap s) /\ node_at a s = n /\ holds s (S a) l.
Proof.
  intros H. pose proof (H 0 n eq_refl) as H0.
  rewrite Nat.add_0_r in H0. split; [|split].
  - eapply lookup_lt_Some. exact H0.
  - unfold node_at. rewrite H0. reflexivity.
  - intros i m Hi. replace (S a + i) with (a + S i) by lia.
    apply H. exact Hi.
Qed.

Lemma layouts_represent (s : State) (par : option nat) (ks : list Block) :
  Forall (fun b => forall par a,
            holds s a (layout par a b) ->
            (forall e, e ∈ ends a b -> e ∈ endSites s) ->
            represents s par a b) ks ->
  forall c,
    holds s c (layouts par c ks) ->
    (forall e, e ∈ ends_of c ks -> e ∈ endSites s) ->
    Forall2 (represents s par) (starts c ks) ks.
Proof.
  induction 1 as [|k ks Hk _ IH]; intros c Hh He; cbn [starts];
    constructor.
  - cbn [layouts] in Hh. apply holds_app in Hh as [Hh _].
    apply Hk; [exact Hh|]. intros e Hin. apply He. cbn [ends_of].
    apply elem_of_app. left. exact Hin.
  - cbn [layouts] in Hh. apply holds_app in Hh as [_ Hh].
    rewrite length_layout in Hh. apply IH; [exact Hh|].
    intros e Hin. apply He. cbn [ends_of].
    apply elem_of_app. right. exact Hin.
Qed.

Lemma layout_represents (s : State) (b : Block) :
  forall par a,
    holds s a (layout par a b) ->
    (forall e, e ∈ ends a b -> e ∈ endSites s) ->
    represents s par a b.
Proof.
  induction b as [nm f0 f1 f2 cnt chans kids IH|nm f0 f1 f2]
    using Block_nested_ind; intros par a Hh He.
  - rewrite layout_joint in Hh. apply holds_head in Hh as (Ha & Hn & Hh).
    constructor; try (rewrite Hn; reflexivity); [exact Ha|].
    rewrite Hn. cbn [children].
    apply layouts_represent; [exact IH|exact Hh|].
    intros e Hin. apply He. rewrite ends_joint. exact Hin.
  - cbn [layout] in Hh. apply holds_head in Hh as (Ha & Hn & _).
    constructor; try (rewrite Hn; reflexivity); [exact Ha|].
    apply He. cbn [ends]. apply list_elem_of_here.
Qed.

Lemma holds_all (s : State) : holds s 0 (heap s).
Proof. intros i n Hi. exact Hi. Qed.

(** The tree that the hierarchy section of a well-formed file leaves
    in the heap is the tree of its blocks. *)
Lemma hierarchy_represents (fuel : nat) (sc : Scene) (rs : list Block)
    (t : string) (rest : list string) :
  forallb is_joint rs = true ->
  forallb well_formed rs = true ->
  t <> "ROOT" ->
  2 * sizes rs <= fuel ->
  Forall2
    (represents
       (final (hierarchy fuel (initial sc (hierarchy_tokens rs ++ t :: rest))))
       None)
    (starts 0 rs) rs.
Proof.
  intros Hj Hwf Ht Hfuel.
  rewrite (hierarchy_reads fuel sc rs t rest Hj Hwf Ht Hfuel). cbn [final].
  apply layouts_represent.
  - apply Forall_forall. intros b _ par a. apply layout_represents.
  - apply (holds_all {| tokens := rest; heap := layouts None 0 rs;
                        scene := sc; requests := []; visited := [];
                        endSites := ends_of 0 rs |}).
  - intros e He. exact He.
Qed.

(** The names of the joints of a block in the order in which the blocks
    begin in the file. *)
Fixpoint names (b : Block) : list string :=
  match b with
  | JointBlock nm _ _ _ _ _ kids => nm :: flat_map names kids
  | EndBlock nm _ _ _ => [nm]
  end.

Lemma names_layouts_from (par : option nat) (ks : list Block) :
  Forall (fun b => forall par a, map name (layout par a b) = names b) ks ->
  forall c, map name (layouts par c ks) = flat_map names ks.
Proof.
  induction 1 as [|k ks Hk _ IH]; intros c; [reflexivity|].
  cbn [layouts flat_map]. rewrite map_app, Hk, IH. reflexivity.
Qed.

Lemma names_layout (b : Block) :
  forall par a, map name (layout par a b) = names b.
Proof.
  induction b as [nm f0 f1 f2 cnt chans kids IH|nm f0 f1 f2]
    using Block_nested_ind; intros par a; [|reflexivity].
  rewrite layout_joint. cbn [map names name]. f_equal.
  apply names_layouts_from. exact IH.
Qed.

Lemma names_layouts (par : option nat) (c : nat) (ks : list Block) :
  map name (layouts par c ks) = flat_map names ks.
Proof.
  apply names_layouts_from. apply Forall_forall. intros b _.
  apply names_layout.
Qed.

Lemma names_in_order (pre l : list Node) :
  map (fun a => name (default Node0 ((pre ++ l) !! a)))
    (seq (length pre) (length l))
  = map name l.
Proof.
  revert pre. induction l as [|x l IH]; intros pre; [reflexivity|].
  cbn [length seq map]. f_equal.
  - rewrite list_lookup_middle by reflexivity. reflexivity.
  - specialize (IH (pre ++ [x])). rewrite length_app in IH.
    cbn [length] in IH. rewrite Nat.add_1_r, <- app_assoc in IH. exact IH.
Qed.

Definition childless (r : Block) : bool :=
  match r with
  | JointBlock _ _ _ _ _ _ [] => true
  | _ => false
  end.

Lemma childless_starts (rs : list Block) :
  forallb childless rs = true ->
  forall c, starts c rs = seq c (length rs).
Proof.
  induction rs as [|r rs IH]; intros H c; [reflexivity|].
  cbn [forallb] in H. apply andb_true_iff in H as [Hr H].
  cbn [starts length seq]. f_equal.
  destruct r as [nm f0 f1 f2 cnt chans [|k kids]|]; try discriminate Hr.
  cbn [size fold_right]. rewrite Nat.add_1_r. apply IH. exact H.
Qed.

Lemma childless_nodes (s : State) (par : option nat) (cs : list nat)
    (rs : list Block) :
  Forall2 (represents s par) cs rs ->
  forallb childless rs = true ->
  forall r, r ∈ cs -> children (node_at r s) = [].
Proof.
  induction 1 as [|c b cs rs Hc _ IH]; intros H r Hr; [inversion Hr|].
  cbn [forallb] in H. apply andb_true_iff in H as [Hb H].
  apply elem_of_cons in Hr as [->|Hr]; [|apply IH; assumption].
  destruct b as [nm f0 f1 f2 cnt chans [|k kids]|]; try discriminate Hb.
  inversion Hc as [? ? ? ? ? ? ? ? ? _ _ _ _ _ Hk|]; subst.
  inversion Hk. reflexivity.
Qed.

End Grammar.

(** ** What a failed run leaves behind *)

Section Failure.

Context `{P : Platform}.






(** [mayaCreate] has no failure exit: it finishes or is still running. *)
Definition no_failure_exit {A} (m : M A) : Prop :=
  forall s, outcome (m s) = Finished \/ outcome (m s) = StillRunning.

Lemma no_failure_exit_bind {A B} (m : M A) (k : A -> M B) :
  no_failure_exit m -> (forall a, no_failure_exit (k a)) ->
  no_failure_exit (bind m k).
Proof.
  intros Hm Hk s. unfold bind. specialize (Hm s).
  destruct (m s) as [a s'| | |]; cbn in *;
    try (destruct Hm; discriminate); auto.
  apply Hk.
Qed.

Lemma no_failure_exit_each (f : addr -> M unit) (l : list addr) :
  (forall a, no_failure_exit (f a)) -> no_failure_exit (each f l).
Proof.
  intros Hf. induction l as [|a l IH]; cbn [each].
  - intros s. left. reflexivity.
  - apply no_failure_exit_bind; [apply Hf|intros _; exact IH].
Qed.

Lemma no_failure_exit_mayaCreate (fuel : nat) (a : addr) :
  no_failure_exit (mayaCreate fuel a).
Proof.
  revert a. induction fuel as [|fuel IH]; intros a; cbn [mayaCreate].
  - intros s. right. reflexivity.
  - apply no_failure_exit_bind; [intros s; left; reflexivity|intros nd].
    apply no_failure_exit_bind.
    { destruct (parent nd); intros s; left; reflexivity. }
    intros parentObj. apply no_failure_exit_bind.
    { intros s. unfold hostCreate.
      destruct (jointCreate (scene s) parentObj). left. reflexivity. }
    intros obj.
    do 3 (apply no_failure_exit_bind; [intros s; left; reflexivity|intros _]).
    apply no_failure_exit_each. exact IH.
Qed.

(** The last part of [reader] returns [kSuccess] if it returns at all. *)
Lemma create_outcome (fuel : nat) (rootVect : list addr) (s : State) :
  outcome (create fuel rootVect s) = Returned kSuccess
  \/ outcome (create fuel rootVect s) = StillRunning.
Proof.
  unfold create, bind.
  pose proof (no_failure_exit_each (mayaCreate fuel) rootVect
                (no_failure_exit_mayaCreate fuel) s) as H.
  destruct (each (mayaCreate fuel) rootVect s); cbn in *;
    destruct H; try discriminate; auto.
Qed.



End Failure.

Section FailureOnBlocks.

Context `{P : Platform}.

Local Open Scope nat_scope.




End FailureOnBlocks.



(** ** The CHANNELS block and the name of an End leaf *)

Section Channels.

Context `{P : Platform}.


(** [CHANNELS 0] is how a ROOT or a JOINT gets an empty channel list. *)
Lemma readNode_CHANNELS_0 (a : addr) (s : State) (nm f0 f1 f2 : string)
    (v0 v1 v2 : float) (rest : list string) :
  stof f0 = Converted v0 -> stof f1 = Converted v1 ->
  stof f2 = Converted v2 ->
  exists s',
    readNode a
      (set_tokens
         (nm :: "{" :: "OFFSET" :: f0 :: f1 :: f2 :: "CHANNELS" :: "0" :: rest)
         s)
    = Ok true s'
    /\ tokens s' = rest
    /\ channels (node_at a s') = channels (node_at a s).
Proof.
  intros H0 H1 H2. destruct s as [toks h sc rq vi es].
  unfold readNode, readOffsets, readOffset, bind, getNode, extract, modNode.
  cbn. rewrite H0. cbn. rewrite H1. cbn. rewrite H2. cbn.
  eexists. split; [reflexivity|]. split; [reflexivity|].
  unfold node_at. cbn [heap set_tokens set_heap].
  rewrite !list_lookup_alter_eq.
  destruct (h !! a) as [n|]; reflexivity.
Qed.

End Channels.



(** C7, amended: the token that follows [End] is not compared with
    anything: whatever it is, it becomes the name of the leaf.  What the
    [End] branch requires is what comes after that name: a brace, OFFSET,
    three numbers and a closing brace.  With them the branch succeeds, and
    the new node carries the name, the three offsets, no channel and no
    child, and is the last child of the joint on top of the stack; and the
    branch succeeds on nothing else: if it finishes, the stream began with
    a name, a brace, OFFSET, three numbers and a closing brace.  (The
    closing brace is no number for [std::stof].) *)
Theorem readEndSite_takes_any_name :
  forall `{P : Platform} (back : addr) (currentToken : string) (s : State),
    (back < length (heap s))%nat ->
    (forall (t f0 f1 f2 : string) (v0 v1 v2 : float) (rest : list string),
       tokens s = t :: "{" :: "OFFSET" :: f0 :: f1 :: f2 :: "}" :: rest ->
       stof f0 = Converted v0 -> stof f1 = Converted v1 ->
       stof f2 = Converted v2 ->
       exists s',
         readEndSite back currentToken s = Ok "}" s'
         /\ tokens s' = rest
         /\ heap s' !! length (heap s)
            = Some {| name := t; offset := [Some v0; Some v1; Some v2];
                      channels := []; jointObj := kNullObj;
                      parent := Some back;
                      children := []; channelValues := [] |}
         /\ children (node_at back s')
            = children (node_at back s) ++ [length (heap s)]
         /\ endSites s' = endSites s ++ [length (heap s)])
    /\ ((forall v : float, stof "}" <> Converted v) ->
        outcome (readEndSite back currentToken s) = Finished ->
        exists (t f0 f1 f2 : string) (v0 v1 v2 : float) (rest : list string),
          tokens s = t :: "{" :: "OFFSET" :: f0 :: f1 :: f2 :: "}" :: rest
          /\ stof f0 = Converted v0 /\ stof f1 = Converted v1
          /\ stof f2 = Converted v2).
Proof.
  intros P back currentToken s Hback. split.
  - intros t f0 f1 f2 v0 v1 v2 rest Htoks H0 H1 H2.
    destruct s as [toks h sc rq vi es]. cbn [heap tokens] in Hback, Htoks.
    subst toks.
    unfold readEndSite, readOffsets, readOffset, bind, getNode, extract,
      modNode, new_Node, mark_endSite.
    cbn. rewrite H0. cbn. rewrite H1. cbn. rewrite H2. cbn.
    eexists. split; [reflexivity|].
    unfold node_at.
    cbn [tokens heap endSites set_tokens set_heap log_endSite].
    assert (Hne : back <> length h) by lia.
    split; [reflexivity|]. split; [|split; [|reflexivity]].
    + rewrite list_lookup_alter_eq.
      rewrite list_lookup_alter_ne by exact Hne.
      rewrite !list_lookup_alter_eq.
      rewrite lookup_app_r by lia. rewrite Nat.sub_diag. reflexivity.
    + rewrite list_lookup_alter_ne
        by (intros E; apply Hne; symmetry; exact E).
      rewrite list_lookup_alter_eq.
      rewrite !list_lookup_alter_ne
        by (intros E; apply Hne; symmetry; exact E).
      rewrite lookup_app_l by exact Hback.
      destruct (h !! back) as [n|] eqn:E; [reflexivity|].
      apply lookup_ge_None in E. lia.
  - intros Hbrace Hfin. clear Hback.
    destruct s as [toks h sc rq vi es]. cbn [tokens].
    unfold readEndSite, readOffsets, readOffset, bind, getNode, extract,
      modNode, new_Node, mark_endSite, convert, ret, throw, return_ in Hfin.
    cbn in Hfin.
    repeat
      match type of Hfin with
      | context [match ?l with [] => _ | _ :: _ => _ end] =>
          is_var l; destruct l; cbn in Hfin
      | context [String.eqb ?x ?y] =>
          destruct (String.eqb_spec x y); [subst|]; cbn in Hfin
      | context [stof ?x] =>
          let E := fresh "E" in destruct (stof x) eqn:E; cbn in Hfin
      end;
      try discriminate Hfin;
      try (exfalso; eapply Hbrace; eassumption).
    repeat eexists; eassumption.
Qed.

Lemma readEndSite_takes_any_name_witness :
  (0 < length (heap (set_tokens ["Foo"; "{"; "OFFSET"; "0"; "5"; "0"; "}"]
                       (set_heap [Node0] (initial (P := demo 10) [] [])))))%nat
  /\ exists s',
       readEndSite (P := demo 10) 0%nat "End"
         (set_tokens ["Foo"; "{"; "OFFSET"; "0"; "5"; "0"; "}"]
            (set_heap [Node0] (initial (P := demo 10) [] [])))
       = Ok "}" s'
       /\ tokens s' = []
       /\ endSites s' = [1%nat]
       /\ forall v : Dec, stof_dec "}" <> Converted v.
Proof.
  assert (H : (0 < length (heap (set_tokens
                                   ["Foo"; "{"; "OFFSET"; "0"; "5"; "0"; "}"]
                                   (set_heap [Node0]
                                      (initial (P := demo 10) [] [])))))%nat)
    by (cbn; lia).
  split; [exact H|].
  destruct (proj1 (readEndSite_takes_any_name (P := demo 10) 0%nat "End"
                     (set_tokens ["Foo"; "{"; "OFFSET"; "0"; "5"; "0"; "}"]
                        (set_heap [Node0] (initial (P := demo 10) [] [])))
                     H)
              "Foo" "0" "5" "0"
              {| mant := 0; expo := 0 |} {| mant := 5; expo := 0 |}
              {| mant := 0; expo := 0 |} [] eq_refl eq_refl eq_refl eq_refl)
    as (s' & Hrun & Htoks & _ & _ & Hends).
  exists s'. split; [exact Hrun|]. split; [exact Htoks|].
  split; [exact Hends|]. intros v. discriminate.
Defined.

(** ** End Site joints *)

Section EndSites.

Context `{P : Platform}.

Lemma bind_Ok_inv {A B} (m : M A) (k : A -> M B) s b s' :
  bind m k s = Ok b s' -> exists a s1, m s = Ok a s1 /\ k a s1 = Ok b s'.
Proof.
  unfold bind. destruct (m s) as [a s1| | |]; intros H; try discriminate.
  eauto.
Qed.

(** What filling in the node at [a] leaves alone: the log of End Sites,
    the size of the heap, every other node, and the links of [a]. *)
Definition node_frame (a : nat) (s s' : State) : Prop :=
  endSites s' = endSites s
  /\ length (heap s') = length (heap s)
  /\ (forall b, b <> a -> heap s' !! b = heap s !! b)
  /\ children (node_at a s') = children (node_at a s)
  /\ parent (node_at a s') = parent (node_at a s).

(** The same, and the channels of [a] as well. *)
Definition leaf_frame (a : nat) (s s' : State) : Prop :=
  node_frame a s s' /\ channels (node_at a s') = channels (node_at a s).

Lemma node_frame_refl (a : nat) (s : State) : node_frame a s s.
Proof. unfold node_frame. auto. Qed.

Lemma node_frame_trans (a : nat) (s1 s2 s3 : State) :
  node_frame a s1 s2 -> node_frame a s2 s3 -> node_frame a s1 s3.
Proof.
  unfold node_frame.
  intros (E1 & L1 & O1 & C1 & P1) (E2 & L2 & O2 & C2 & P2).
  repeat split; try congruence.
  intros b Hb. rewrite O2, O1 by exact Hb. reflexivity.
Qed.

Lemma leaf_frame_refl (a : nat) (s : State) : leaf_frame a s s.
Proof. split; [apply node_frame_refl|reflexivity]. Qed.

Lemma leaf_frame_trans (a : nat) (s1 s2 s3 : State) :
  leaf_frame a s1 s2 -> leaf_frame a s2 s3 -> leaf_frame a s1 s3.
Proof.
  intros [F1 C1] [F2 C2]. split; [|congruence].
  eapply node_frame_trans; eassumption.
Qed.

Lemma node_frame_tokens (a : nat) (s : State) (toks : list string) :
  node_frame a s (set_tokens toks s).
Proof. unfold node_frame. cbn. auto. Qed.

Lemma node_at_alter (a : nat) (f : Node -> Node) (s : State) :
  f Node0 = Node0 \/ (a < length (heap s))%nat ->
  node_at a (set_heap (alter f a (heap s)) s) = f (node_at a s).
Proof.
  intros H. unfold node_at. cbn [heap set_heap].
  rewrite list_lookup_alter_eq.
  destruct (heap s !! a) as [n|] eqn:E; [reflexivity|].
  destruct H as [H|H]; [cbn; symmetry; exact H|].
  apply lookup_ge_None in E. lia.
Qed.

Lemma field_alter {B} (proj : Node -> B) (a : nat) (f : Node -> Node)
    (s : State) :
  (forall n, proj (f n) = proj n) ->
  proj (node_at a (set_heap (alter f a (heap s)) s)) = proj (node_at a s).
Proof.
  intros H. unfold node_at. cbn [heap set_heap].
  rewrite list_lookup_alter_eq.
  destruct (heap s !! a) as [n|]; cbn; [apply H|reflexivity].
Qed.

Lemma node_frame_alter (a : nat) (f : Node -> Node) (s : State) :
  (forall n, children (f n) = children n) ->
  (forall n, parent (f n) = parent n) ->
  node_frame a s (set_heap (alter f a (heap s)) s).
Proof.
  intros Hc Hp. unfold node_frame. repeat split.
  - cbn [heap set_heap]. apply length_alter.
  - intros b Hb. cbn [heap set_heap].
    apply list_lookup_alter_ne. intros E. apply Hb. symmetry. exact E.
  - apply (field_alter children). exact Hc.
  - apply (field_alter parent). exact Hp.
Qed.

(** [readNode] on the node at [a] respects [node_frame a]. *)
Lemma readNode_frame (a : nat) (s : State) :
  node_frame a s (final (readNode a s)).
Proof.
  revert s. apply preserves_readNode.
  - apply node_frame_refl.
  - apply node_frame_trans.
  - intros s t rest _. apply node_frame_tokens.
  - intros s v. apply node_frame_alter; reflexivity.
  - intros s i v. apply node_frame_alter; reflexivity.
  - intros s v. apply node_frame_alter; reflexivity.
Qed.

(** Reading the three offsets of the node at [a] respects [leaf_frame a]. *)
Lemma readOffsets_frame (a : nat) (currentToken : string) (s : State) :
  leaf_frame a s (final (readOffsets a currentToken s)).
Proof.
  revert s. apply preserves_readOffsets.
  - apply leaf_frame_refl.
  - apply leaf_frame_trans.
  - intros s t rest _. split; [apply node_frame_tokens|reflexivity].
  - intros s i v. split; [apply node_frame_alter; reflexivity|].
    apply (field_alter channels). reflexivity.
Qed.

(** An End Site as it should be: no channel, no child, and listed among
    the children of its parent. *)
Definition attached_leaf (s : State) (e : nat) : Prop :=
  exists n p np,
    heap s !! e = Some n /\ channels n = [] /\ children n = []
    /\ parent n = Some p /\ heap s !! p = Some np /\ e ∈ children np.

(** The invariant of the hierarchy loops: the joints on the stack exist
    and are no End Sites, and every End Site is an attached leaf. *)
Definition Inv (q : list nat) (s : State) : Prop :=
  (forall b, b ∈ q -> (b < length (heap s))%nat /\ b ∉ endSites s)
  /\ (forall e, e ∈ endSites s -> attached_leaf s e).

Lemma Inv_same (q : list nat) (s s' : State) :
  heap s' = heap s -> endSites s' = endSites s -> Inv q s -> Inv q s'.
Proof.
  intros Hh He [Hq HE]. unfold Inv, attached_leaf. rewrite Hh, He.
  split; assumption.
Qed.

Lemma Inv_pop (b : nat) (q : list nat) (s : State) :
  Inv (b :: q) s -> Inv q s.
Proof.
  intros [Hq HE]. split; [|exact HE].
  intros c Hc. apply Hq. apply list_elem_of_further. exact Hc.
Qed.

Lemma endSite_in_heap (q : list nat) (s : State) (e : nat) :
  Inv q s -> e ∈ endSites s -> (e < length (heap s))%nat.
Proof.
  intros [_ HE] He. destruct (HE e He) as (n & p & np & Hn & _).
  eapply lookup_lt_Some. exact Hn.
Qed.

Lemma attached_leaf_keeps (s s' : State) (e : nat) :
  attached_leaf s e ->
  heap s' !! e = heap s !! e ->
  (forall p np, heap s !! p = Some np ->
     exists np', heap s' !! p = Some np'
                 /\ forall c, c ∈ children np -> c ∈ children np') ->
  attached_leaf s' e.
Proof.
  intros (n & p & np & Hn & Hc & Hk & Hp & Hnp & Hin) He Hpar.
  destruct (Hpar p np Hnp) as (np' & Hnp' & Hsub).
  exists n, p, np'. rewrite He. repeat split; auto.
Qed.

(** Linking the new node at [a] under [back]: the older nodes other than
    [back] are as before, and no node loses a child. *)
Lemma attach_keeps (h h2 : list Node) (back : nat) :
  (forall b, b <> length h -> h2 !! b = (h ++ [Node0]) !! b) ->
  (forall e, (e < length h)%nat -> e <> back ->
     alter (set_parent back) (length h)
       (alter (push_child (length h)) back h2) !! e = h !! e)
  /\ (forall p np, h !! p = Some np ->
        exists np',
          alter (set_parent back) (length h)
            (alter (push_child (length h)) back h2) !! p = Some np'
          /\ forall c, c ∈ children np -> c ∈ children np').
Proof.
  intros Hother. split.
  - intros e He Hne.
    rewrite list_lookup_alter_ne by lia.
    rewrite list_lookup_alter_ne by (intros E; apply Hne; symmetry; exact E).
    rewrite Hother by lia. apply lookup_app_l. exact He.
  - intros p np Hp. pose proof (lookup_lt_Some _ _ _ Hp) as Hlt.
    rewrite list_lookup_alter_ne by lia.
    destruct (decide (back = p)) as [->|Hne].
    + rewrite list_lookup_alter_eq, Hother by lia.
      rewrite lookup_app_l by exact Hlt. rewrite Hp. cbn.
      eexists. split; [reflexivity|]. cbn. intros c Hc.
      apply elem_of_app. left. exact Hc.
    + rewrite list_lookup_alter_ne by exact Hne.
      rewrite Hother by lia. rewrite lookup_app_l by exact Hlt.
      exists np. split; [exact Hp|auto].
Qed.

(** The JOINT branch ([leaf = false]) and the End branch ([leaf = true])
    once the new node is filled in ([s2]) and linked ([s']). *)
Lemma attach_Inv (leaf : bool) (q : list nat) (s s2 s' : State) (back : nat) :
  Inv (back :: q) s ->
  length (heap s2) = S (length (heap s)) ->
  (forall b, b <> length (heap s) -> heap s2 !! b = (heap s ++ [Node0]) !! b) ->
  endSites s2
  = (if leaf then endSites s ++ [length (heap s)] else endSites s) ->
  (leaf = true ->
   channels (node_at (length (heap s)) s2) = []
   /\ children (node_at (length (heap s)) s2) = []) ->
  heap s' = alter (set_parent back) (length (heap s))
              (alter (push_child (length (heap s))) back (heap s2)) ->
  endSites s' = endSites s2 ->
  Inv (if leaf then back :: q else length (heap s) :: back :: q) s'.
Proof.
  intros HInv Hlen Hother Hends Hleaf Hheap Hends'.
  pose proof HInv as [Hq HE].
  destruct (attach_keeps (heap s) (heap s2) back Hother) as [K1 K2].
  destruct (Hq back (list_elem_of_here _ _)) as [Hback Hbackno].
  assert (Hlen' : length (heap s') = S (length (heap s)))
    by (rewrite Hheap, !length_alter; exact Hlen).
  assert (Hold : forall e, e ∈ endSites s -> attached_leaf s' e).
  { intros e He. apply (attached_leaf_keeps s); [apply HE; exact He| |].
    - rewrite Hheap. apply K1.
      + eapply endSite_in_heap; eassumption.
      + intros ->. apply Hbackno. exact He.
    - intros p np Hp. rewrite Hheap. apply K2. exact Hp. }
  assert (Hfresh : length (heap s) ∉ endSites s).
  { intros Hin. pose proof (endSite_in_heap _ _ _ HInv Hin). lia. }
  split.
  - intros b Hb. rewrite Hlen', Hends', Hends. destruct leaf.
    + destruct (Hq b Hb) as [Hlt Hno]. split; [lia|].
      intros Hin. apply elem_of_app in Hin as [Hin|Hin]; [auto|].
      apply list_elem_of_singleton in Hin. lia.
    + apply elem_of_cons in Hb as [->|Hb]; [split; [lia|exact Hfresh]|].
      destruct (Hq b Hb) as [Hlt Hno]. split; [lia|exact Hno].
  - intros e He. rewrite Hends', Hends in He. destruct leaf; [|auto].
    apply elem_of_app in He as [He|He]; [auto|].
    apply list_elem_of_singleton in He. subst e.
    destruct (Hleaf eq_refl) as [Hc Hk].
    assert (Hne : back <> length (heap s)) by lia.
    destruct (lookup_lt_is_Some_2 (heap s2) (length (heap s))) as [n2 Hn2];
      [lia|].
    destruct (lookup_lt_is_Some_2 (heap s) back Hback) as [nb Hnb].
    unfold node_at in Hc, Hk. rewrite Hn2 in Hc, Hk. cbn in Hc, Hk.
    exists (set_parent back n2), back, (push_child (length (heap s)) nb).
    rewrite Hheap. repeat split.
    + rewrite list_lookup_alter_eq, list_lookup_alter_ne by exact Hne.
      rewrite Hn2. reflexivity.
    + exact Hc.
    + exact Hk.
    + rewrite list_lookup_alter_ne by lia.
      rewrite list_lookup_alter_eq, Hother by exact Hne.
      rewrite lookup_app_l by exact Hback. rewrite Hnb. reflexivity.
    + cbn. apply elem_of_app. right. apply list_elem_of_here.
Qed.

End EndSites.

Section HierarchyInvariant.

Context `{P : Platform}.

Lemma extract_Ok_inv (old t : string) (s s' : State) :
  extract old s = Ok t s' -> heap s' = heap s /\ endSites s' = endSites s.
Proof.
  unfold extract. destruct (tokens s); intros H; injection H as <- <-;
    split; reflexivity.
Qed.

(** The JOINT branch keeps the invariant and pushes the new joint. *)
Lemma readJoint_Inv (back : nat) (q : list nat) (s s' : State) (node : nat) :
  Inv (back :: q) s ->
  readJoint back s = Ok node s' ->
  Inv (node :: back :: q) s'.
Proof.
  intros HInv H. unfold readJoint in H.
  apply bind_Ok_inv in H as (a & s1 & Hnew & H).
  unfold new_Node in Hnew. injection Hnew as <- <-.
  apply bind_Ok_inv in H as (state & s2 & Hread & H).
  destruct state; cbn [negb] in H; [|discriminate H].
  apply bind_Ok_inv in H as (u1 & s3 & Hm1 & H).
  unfold modNode in Hm1. injection Hm1 as _ <-.
  apply bind_Ok_inv in H as (u2 & s4 & Hm2 & H).
  unfold modNode in Hm2. injection Hm2 as _ <-.
  unfold ret in H. injection H as <- <-.
  pose proof (readNode_frame (length (heap s))
                (set_heap (heap s ++ [Node0]) s)) as HF.
  rewrite Hread in HF. cbn [final] in HF.
  destruct HF as (HE & HL & HO & _ & _). cbn [heap set_heap endSites] in *.
  apply (attach_Inv false q s s2 _ back HInv).
  - rewrite HL, length_app. cbn. lia.
  - exact HO.
  - exact HE.
  - discriminate.
  - reflexivity.
  - reflexivity.
Qed.

(** The End branch keeps the invariant; the stack is as before. *)
Lemma readEndSite_Inv (back : nat) (q : list nat) (currentToken : string)
    (s s' : State) (tok : string) :
  Inv (back :: q) s ->
  readEndSite back currentToken s = Ok tok s' ->
  Inv (back :: q) s'.
Proof.
  intros HInv H. unfold readEndSite in H.
  apply bind_Ok_inv in H as (a & s1 & Hnew & H).
  unfold new_Node in Hnew. injection Hnew as <- <-.
  apply bind_Ok_inv in H as (u0 & s2 & Hmark & H).
  unfold mark_endSite in Hmark. injection Hmark as _ <-.
  apply bind_Ok_inv in H as (nd & s3 & Hget & H).
  unfold getNode in Hget. injection Hget as <- <-.
  apply bind_Ok_inv in H as (nm & s4 & Hx1 & H).
  apply extract_Ok_inv in Hx1 as [Hh4 He4].
  apply bind_Ok_inv in H as (u1 & s5 & Hm1 & H).
  unfold modNode in Hm1. injection Hm1 as _ <-.
  apply bind_Ok_inv in H as (t1 & s6 & Hx2 & H).
  apply extract_Ok_inv in Hx2 as [Hh6 He6].
  destruct (negb (String.eqb t1 "{")); [discriminate H|].
  apply bind_Ok_inv in H as (t2 & s7 & Hx3 & H).
  apply extract_Ok_inv in Hx3 as [Hh7 He7].
  destruct (negb (String.eqb t2 "OFFSET")); [discriminate H|].
  apply bind_Ok_inv in H as (t3 & s8 & Hoff & H).
  apply bind_Ok_inv in H as (u2 & s9 & Hm2 & H).
  unfold modNode in Hm2. injection Hm2 as _ <-.
  apply bind_Ok_inv in H as (u3 & s10 & Hm3 & H).
  unfold modNode in Hm3. injection Hm3 as _ <-.
  apply bind_Ok_inv in H as (t4 & s11 & Hx4 & H).
  apply extract_Ok_inv in Hx4 as [Hh11 He11].
  destruct (negb (String.eqb t4 "}")); [discriminate H|].
  unfold ret in H. injection H as _ <-.
  pose proof (readOffsets_frame (length (heap s)) t2 s7) as HF.
  rewrite Hoff in HF. cbn [final] in HF.
  destruct HF as [(HE & HL & HO & HK & _) HC].
  cbn [heap set_heap endSites log_endSite] in *.
  assert (Hlen7 : length (heap s7) = S (length (heap s))).
  { rewrite Hh7, Hh6. cbn [heap set_heap]. rewrite length_alter, Hh4.
    cbn [heap set_heap log_endSite]. rewrite length_app. cbn. lia. }
  assert (Hnode7 : node_at (length (heap s)) s7 = set_name nm Node0).
  { unfold node_at. rewrite Hh7, Hh6. cbn [heap set_heap].
    rewrite list_lookup_alter_eq, Hh4. cbn [heap set_heap log_endSite].
    rewrite lookup_app_r by lia. rewrite Nat.sub_diag. reflexivity. }
  apply (attach_Inv true q s s8 _ back HInv).
  - rewrite HL. exact Hlen7.
  - intros b Hb. rewrite HO by exact Hb. rewrite Hh7, Hh6.
    cbn [heap set_heap]. rewrite list_lookup_alter_ne by lia.
    rewrite Hh4. reflexivity.
  - rewrite HE, He7, He6. cbn [endSites set_heap]. rewrite He4. reflexivity.
  - intros _. rewrite HC, HK, Hnode7. split; reflexivity.
  - rewrite Hh11. reflexivity.
  - rewrite He11. reflexivity.
Qed.

(** The loop over the open joints keeps the invariant. *)
Lemma openLoop_Inv (n : nat) (currentToken : string) (q : list nat)
    (s s' : State) (tok : string) :
  Inv q s ->
  openLoop n currentToken q s = Ok tok s' ->
  Inv [] s'.
Proof.
  revert currentToken q s.
  induction n as [|n IH]; intros currentToken q s HInv H;
    destruct q as [|back below]; cbn [openLoop] in H;
    try (unfold ret in H; injection H as _ <-; exact HInv);
    try discriminate H.
  apply bind_Ok_inv in H as (t & s1 & Hx & H).
  apply extract_Ok_inv in Hx as [Hh He].
  apply (Inv_same _ _ _ Hh He) in HInv.
  destruct (String.eqb t "JOINT").
  { apply bind_Ok_inv in H as (node & s2 & Hj & H).
    eapply IH; [|exact H]. eapply readJoint_Inv; eassumption. }
  destruct (String.eqb t "End").
  { apply bind_Ok_inv in H as (t' & s2 & Hj & H).
    eapply IH; [|exact H]. eapply readEndSite_Inv; eassumption. }
  destruct (String.eqb t "}"); [|discriminate H].
  eapply IH; [|exact H]. eapply Inv_pop. exact HInv.
Qed.

(** A new root, once filled in, is alone on the stack. *)
Lemma root_Inv (s s2 : State) :
  Inv [] s ->
  node_frame (length (heap s)) (set_heap (heap s ++ [Node0]) s) s2 ->
  Inv [length (heap s)] s2.
Proof.
  intros HInv (HE & HL & HO & _ & _).
  cbn [heap set_heap endSites] in *. pose proof HInv as [_ HEnds].
  rewrite length_app in HL. cbn in HL. split.
  - intros b Hb. apply list_elem_of_singleton in Hb. subst b.
    split; [lia|]. rewrite HE. intros Hin.
    pose proof (endSite_in_heap _ _ _ HInv Hin). lia.
  - intros e He. rewrite HE in He.
    pose proof (endSite_in_heap _ _ _ HInv He) as Hlt.
    apply (attached_leaf_keeps s); [apply HEnds; exact He| |].
    + rewrite HO by lia. apply lookup_app_l. exact Hlt.
    + intros p np Hp. pose proof (lookup_lt_Some _ _ _ Hp) as Hp'.
      exists np. split; [|auto].
      rewrite HO by lia. rewrite lookup_app_l by exact Hp'. exact Hp.
Qed.

Lemma rootsLoop_Inv (n fuel : nat) (currentToken : string)
    (rootVect : list nat) (s s' : State) (r : string * list nat) :
  Inv [] s ->
  rootsLoop n fuel currentToken rootVect s = Ok r s' ->
  Inv [] s'.
Proof.
  revert currentToken rootVect s.
  induction n as [|n IH]; intros currentToken rootVect s HInv H;
    cbn [rootsLoop] in H; destruct (String.eqb currentToken "ROOT");
    try (unfold ret in H; injection H as _ <-; exact HInv);
    try discriminate H.
  apply bind_Ok_inv in H as (a & s1 & Hnew & H).
  unfold new_Node in Hnew. injection Hnew as <- <-.
  apply bind_Ok_inv in H as (state & s2 & Hread & H).
  destruct state; cbn [negb] in H; [|discriminate H].
  apply bind_Ok_inv in H as (t & s3 & Hopen & H).
  apply bind_Ok_inv in H as (t' & s4 & Hx & H).
  apply extract_Ok_inv in Hx as [Hh He].
  eapply IH; [|exact H]. apply (Inv_same _ s3); [exact Hh|exact He|].
  eapply openLoop_Inv; [|exact Hopen].
  apply root_Inv; [exact HInv|].
  pose proof (readNode_frame (length (heap s))
                (set_heap (heap s ++ [Node0]) s)) as HF.
  rewrite Hread in HF. exact HF.
Qed.

Lemma hierarchy_Inv (fuel : nat) (sc : Scene) (toks : list string)
    (hier : string * list nat) (s' : State) :
  hierarchy fuel (initial sc toks) = Ok hier s' -> Inv [] s'.
Proof.
  intros H. unfold hierarchy in H.
  apply bind_Ok_inv in H as (t & s1 & Hx & H).
  apply extract_Ok_inv in Hx as [Hh He].
  destruct (negb (String.eqb t "HIERARCHY")); [discriminate H|].
  apply bind_Ok_inv in H as (t' & s2 & Hx' & H).
  apply extract_Ok_inv in Hx' as [Hh' He'].
  eapply rootsLoop_Inv; [|exact H].
  split.
  - intros b Hb. inversion Hb.
  - intros e Hin. rewrite He', He in Hin. cbn in Hin. inversion Hin.
Qed.

(** The motion section leaves the heap and the log of End Sites alone. *)
Definition same_tree (s s' : State) : Prop :=
  heap s' = heap s /\ endSites s' = endSites s.

Lemma motion_same_tree (fuel : nat) (currentToken : string)
    (rootVect : list nat) (s : State) :
  same_tree s (final (motion fuel currentToken rootVect s)).
Proof.
  revert s. apply preserves_motion; unfold same_tree.
  - auto.
  - intros s1 s2 s3 [H1 H2] [H3 H4]. split; congruence.
  - intros s t rest _. split; reflexivity.
  - intros s a. split; reflexivity.
Qed.

End HierarchyInvariant.

Section MotionTokens.

Context `{P : Platform}.

(** After the header, nothing of the motion section is read, and the
    creation of the Maya joints does not read either. *)
Lemma framesLoop_same_tokens (n fuel : nat) (nbFrames : Z)
    (timeFrame time : float) (i : Z) (rootVect : list nat) (s : State) :
  tokens (final (framesLoop n fuel nbFrames timeFrame time i rootVect s))
  = tokens s.
Proof.
  revert s.
  apply (preserves_framesLoop (fun s s' => tokens s' = tokens s)); auto.
  intros s1 s2 s3 H1 H2. congruence.
Qed.

Lemma create_same_tokens (fuel : nat) (rootVect : list nat) (s : State) :
  tokens (final (create fuel rootVect s)) = tokens s.
Proof.
  revert s.
  apply (preserves_create_walk (fun s s' => tokens s' = tokens s)); auto.
  intros s1 s2 s3 H1 H2. congruence.
Qed.

Lemma final_bind_tokens {A B} (m : M A) (k : A -> M B) (s : State) :
  (forall a s1, tokens (final (k a s1)) = tokens s1) ->
  tokens (final (bind m k s)) = tokens (final (m s)).
Proof.
  intros Hk. unfold bind. destruct (m s) as [a s1| | |]; cbn [final];
    try reflexivity. apply Hk.
Qed.

(** However [reader] ends on a file whose hierarchy section is read to
    its end and whose motion header is in order, the stream is left at the
    first token after the header. *)
Lemma reader_leaves_the_frames (fuel : nat) (sc : Scene)
    (toks : list string) (roots : list nat) (s1 : State)
    (n tm : string) (rest : list string) (k : Z) (timeFrame : float) :
  hierarchy fuel (initial sc toks) = Ok ("MOTION", roots) s1 ->
  tokens s1 = "Frames:" :: n :: "Frame" :: "Time:" :: tm :: rest ->
  stoi n = Converted k -> stof tm = Converted timeFrame ->
  tokens (final (readTokens fuel sc toks)) = rest.
Proof.
  intros Hh Htoks Hn Ht. unfold readTokens.
  rewrite final_bind_tokens.
  2:{ intros roots' s2. apply create_same_tokens. }
  unfold parse. rewrite (bind_Ok _ _ _ _ _ Hh). cbn [fst snd].
  rewrite final_bind_tokens by reflexivity.
  unfold motion.
  rewrite (bind_Ok _ _ _ _ _ (motionHeader_reads s1 _ _ _ _ _ Htoks Hn Ht)).
  cbn [fst snd]. rewrite framesLoop_same_tokens. reflexivity.
Qed.

End MotionTokens.

(** C8: an End block of a file becomes a leaf under the joint of the
    block that encloses it.

    On every file whose hierarchy section is read to its end, each joint
    made by the [End] branch has no channel and no child, has a parent,
    and is among the children of that parent; the motion section leaves
    the heap as it is, and [readAnimNode] on the joint answers [true]
    without touching the stream.

    On a well-formed file the tree of nodes is the tree of blocks: every
    block is stood for by a node with its name, offset and channels, the
    children of the node of a ROOT or JOINT block stand, in the order of
    the file, for the blocks nested directly in it, and each of them
    points back to that node; an End block is stood for by a node without
    channel and without child.  The joints made by the [End] branch are
    those of the End blocks, and however [reader] ends, the stream is left
    at the first token after the motion header: no joint, End Site or not,
    has consumed a token of the frames. *)
Theorem endSites_are_attached_leaves :
  forall `{P : Platform} (fuel : nat) (sc : Scene),
    (forall (toks : list string) (hier : string * list nat),
       value (hierarchy fuel (initial sc toks)) = Some hier ->
       forall e : nat,
         e ∈ endSites (final (hierarchy fuel (initial sc toks))) ->
         (exists n p np,
            heap (final (hierarchy fuel (initial sc toks))) !! e = Some n
            /\ channels n = [] /\ children n = [] /\ parent n = Some p
            /\ heap (final (hierarchy fuel (initial sc toks))) !! p = Some np
            /\ e ∈ children np)
         /\ (forall fuel' : nat,
               heap (final (motion fuel' (fst hier) (snd hier)
                              (final (hierarchy fuel (initial sc toks)))))
               = heap (final (hierarchy fuel (initial sc toks))))
         /\ (forall (time : float) (s : State),
               readAnimNode e time s = Ok true s))
    /\ (forall (rs : list Block) (n tm : string) (rest : list string)
               (k : Z) (timeFrame : float),
          forallb is_joint rs = true ->
          forallb well_formed rs = true ->
          (2 * sizes rs <= fuel)%nat ->
          stoi n = Converted k ->
          stof tm = Converted timeFrame ->
          let file := hierarchy_tokens rs
                        ++ "MOTION" :: "Frames:" :: n :: "Frame" :: "Time:"
                             :: tm :: rest in
          value (hierarchy fuel (initial sc file))
          = Some ("MOTION", starts 0 rs)
          /\ Forall2 (represents (final (hierarchy fuel (initial sc file)))
                        None)
               (starts 0 rs) rs
          /\ endSites (final (hierarchy fuel (initial sc file)))
             = ends_of 0 rs
          /\ tokens (final (readTokens fuel sc file)) = rest).
Proof.
  intros P fuel sc. split.
  - intros toks hier Hv e He.
    apply Ok_intro in Hv.
    pose proof (hierarchy_Inv fuel sc toks hier _ Hv) as [_ HE].
    split; [apply HE; exact He|]. split.
    + intros fuel'. apply motion_same_tree.
    + intros time s. apply readAnimNode_noop.
  - intros rs n tm rest k timeFrame Hj Hwf Hfuel Hn Ht file.
    assert (HM : "MOTION" <> "ROOT") by discriminate.
    pose proof (hierarchy_reads fuel sc rs "MOTION"
                  ("Frames:" :: n :: "Frame" :: "Time:" :: tm :: rest)
                  Hj Hwf HM Hfuel) as Hh.
    fold file in Hh.
    split; [rewrite Hh; reflexivity|].
    split; [apply hierarchy_represents; assumption|].
    split; [rewrite Hh; reflexivity|].
    eapply reader_leaves_the_frames; [exact Hh|reflexivity|exact Hn|exact Ht].
Qed.

(** Hips with three channels, a joint Spine below it, and an End Site
    below Spine; two frames. *)
Definition hips_spine_site : list Block :=
  [JointBlock "Hips" "0" "0" "0" "3" ["Xposition"; "Yposition"; "Zposition"]
     [JointBlock "Spine" "0" "1" "0" "0" []
        [EndBlock "Site" "0" "5" "0"]]].

Lemma endSites_are_attached_leaves_witness :
  forallb is_joint hips_spine_site = true
  /\ forallb (well_formed (P := demo 10)) hips_spine_site = true
  /\ (2 * sizes hips_spine_site <= 6)%nat
  /\ Forall2
       (represents (P := demo 10)
          (final (hierarchy (P := demo 10) 6
                    (initial (P := demo 10) []
                       (hierarchy_tokens hips_spine_site
                          ++ ["MOTION"; "Frames:"; "2"; "Frame"; "Time:";
                              "0.04"; "1"; "2"; "3"; "4"; "5"; "6"]))))
          None)
       [0%nat] hips_spine_site
  /\ tokens (final (readTokens (P := demo 10) 6 []
                      (hierarchy_tokens hips_spine_site
                         ++ ["MOTION"; "Frames:"; "2"; "Frame"; "Time:";
                             "0.04"; "1"; "2"; "3"; "4"; "5"; "6"])))
     = ["1"; "2"; "3"; "4"; "5"; "6"].
Proof.
  assert (Hj : forallb is_joint hips_spine_site = true) by reflexivity.
  assert (Hwf : forallb (well_formed (P := demo 10)) hips_spine_site = true)
    by reflexivity.
  assert (Hfuel : (2 * sizes hips_spine_site <= 6)%nat) by (cbn; lia).
  split; [exact Hj|]. split; [exact Hwf|]. split; [exact Hfuel|].
  destruct (proj2 (endSites_are_attached_leaves (P := demo 10) 6 [])
              hips_spine_site "2" "0.04" ["1"; "2"; "3"; "4"; "5"; "6"] 2
              {| mant := 4; expo := -2 |} Hj Hwf Hfuel eq_refl eq_refl)
    as (_ & Hrep & _ & Htoks).
  split; [exact Hrep|exact Htoks].
Defined.

(** ** The creation of the Maya joints *)

Section Binding.

Context `{P : Platform}.

(** [d] is [a] or below [a] in the tree of the heap. *)
Inductive reach (s : State) : nat -> nat -> Prop :=
| reach_here (a : nat) : reach s a a
| reach_child (a c d : nat) :
    c ∈ children (node_at a s) -> reach s c d -> reach s a d.

(** What [mayaCreate] keeps: the children of every node, and the requests
    already sent. *)
Definition walk_keeps (s s' : State) : Prop :=
  (forall b, children (node_at b s') = children (node_at b s))
  /\ (forall x, x ∈ requests s -> x ∈ requests s').

Lemma walk_keeps_refl (s : State) : walk_keeps s s.
Proof. split; auto. Qed.

Lemma walk_keeps_trans (s1 s2 s3 : State) :
  walk_keeps s1 s2 -> walk_keeps s2 s3 -> walk_keeps s1 s3.
Proof.
  intros [K1 R1] [K2 R2]. split.
  - intros b. rewrite K2. apply K1.
  - auto.
Qed.

Lemma reach_keeps (s s' : State) (a d : nat) :
  walk_keeps s s' -> reach s a d -> reach s' a d.
Proof.
  intros [K _] H. induction H as [a|a c d Hc _ IH].
  - apply reach_here.
  - eapply reach_child; [|exact IH]. rewrite K. exact Hc.
Qed.

Lemma mayaCreate_keeps (fuel : nat) (a : nat) (s : State) :
  walk_keeps s (final (mayaCreate fuel a s)).
Proof.
  revert s. apply preserves_mayaCreate.
  - apply walk_keeps_refl.
  - apply walk_keeps_trans.
  - intros s sc. split; auto.
  - intros s b. split; [auto|]. intros x Hx. cbn.
    apply elem_of_app. left. exact Hx.
  - intros s b obj. split; [|auto]. intros c.
    unfold node_at. cbn [heap set_heap].
    destruct (decide (b = c)) as [->|Hne].
    + rewrite list_lookup_alter_eq. destruct (heap s !! c); reflexivity.
    + rewrite list_lookup_alter_ne by exact Hne. reflexivity.
Qed.

(** A loop over [l] whose body requests everything below its argument
    requests everything below every element of [l]. *)
Lemma each_requests (f : nat -> M unit) (l : list nat) :
  (forall a s, walk_keeps s (final (f a s))) ->
  (forall a s s', f a s = Ok tt s' ->
     forall d, reach s a d -> d ∈ requests s') ->
  forall s s', each f l s = Ok tt s' ->
    walk_keeps s s'
    /\ forall c d, c ∈ l -> reach s c d -> d ∈ requests s'.
Proof.
  intros Hkeep Hreq. induction l as [|a l IH]; intros s s' H; cbn [each] in H.
  - unfold ret in H. injection H as <-. split; [apply walk_keeps_refl|].
    intros c d Hc. inversion Hc.
  - apply bind_Ok_inv in H as (u & s1 & Hf & H). destruct u.
    pose proof (Hkeep a s) as K1. rewrite Hf in K1. cbn [final] in K1.
    destruct (IH s1 s' H) as [K2 R2].
    split; [eapply walk_keeps_trans; eassumption|].
    intros c d Hc Hr. apply elem_of_cons in Hc as [->|Hc].
    + destruct K2 as [_ K2]. apply K2. eapply Hreq; eassumption.
    + eapply R2; [exact Hc|]. eapply reach_keeps; eassumption.
Qed.

(** When [mayaCreate] on [a] finishes, a creation request was sent for
    [a] and for every joint below it, whatever Maya answered. *)
Lemma mayaCreate_requests (fuel : nat) :
  forall a s s', mayaCreate fuel a s = Ok tt s' ->
    forall d, reach s a d -> d ∈ requests s'.
Proof.
  induction fuel as [|fuel IH]; intros a s s' H d Hr;
    cbn [mayaCreate] in H; [discriminate H|].
  apply bind_Ok_inv in H as (nd & s0 & Hget & H).
  unfold getNode in Hget. injection Hget as <- <-.
  apply bind_Ok_inv in H as (parentObj & s0 & Hpar & H).
  assert (s0 = s) as ->.
  { destruct (parent (node_at a s)); cbn in Hpar.
    - unfold bind, getNode, ret in Hpar. injection Hpar as _ <-. reflexivity.
    - unfold ret in Hpar. injection Hpar as _ <-. reflexivity. }
  apply bind_Ok_inv in H as (obj & s1 & Hcreate & H).
  unfold hostCreate in Hcreate.
  destruct (jointCreate (scene s) parentObj) as [sc obj'].
  injection Hcreate as <- <-.
  apply bind_Ok_inv in H as (u1 & s2 & Hm & H).
  unfold modNode in Hm. injection Hm as _ <-.
  apply bind_Ok_inv in H as (u2 & s3 & Hn & H).
  unfold hostSetName in Hn. injection Hn as _ <-.
  apply bind_Ok_inv in H as (u3 & s4 & Ht & H).
  unfold hostSetTranslation in Ht. injection Ht as _ <-.
  match type of H with
  | each _ _ ?s4 = _ =>
      assert (K : walk_keeps s s4 /\ a ∈ requests s4)
  end.
  { split; [split|].
    - intros b. unfold node_at. cbn [heap set_heap set_scene log_request].
      destruct (decide (a = b)) as [->|Hne].
      + rewrite list_lookup_alter_eq. destruct (heap s !! b); reflexivity.
      + rewrite list_lookup_alter_ne by exact Hne. reflexivity.
    - intros x Hx. cbn. apply elem_of_app. left. exact Hx.
    - cbn. apply elem_of_app. right. apply list_elem_of_here. }
  destruct K as [K Ha].
  destruct (each_requests (mayaCreate fuel) (children (node_at a s))
              (mayaCreate_keeps fuel) IH _ _ H) as [[_ K2] R2].
  inversion Hr as [a'|a' c d' Hc Hcd]; subst.
  - apply K2. exact Ha.
  - eapply R2; [exact Hc|]. eapply reach_keeps; eassumption.
Qed.

End Binding.

(** C9, amended: the walk that creates the Maya joints has no failure
    exit and does not look at what Maya answers.  Whatever the host does
    with the requests, the creation part of [reader] either is still
    running or returns [kSuccess], and when it returns, a creation request
    was sent for every root and for every joint below a root. *)
Theorem create_ignores_what_Maya_answers :
  forall `{P : Platform} (fuel : nat) (rootVect : list nat) (s : State),
    (outcome (create fuel rootVect s) = Returned kSuccess
     \/ outcome (create fuel rootVect s) = StillRunning)
    /\ (outcome (create fuel rootVect s) = Returned kSuccess ->
        forall root d,
          root ∈ rootVect -> reach s root d ->
          d ∈ requests (final (create fuel rootVect s))).
Proof.
  intros P fuel rootVect s. split; [apply create_outcome|].
  unfold create, bind.
  pose proof (no_failure_exit_each (mayaCreate fuel) rootVect
                (no_failure_exit_mayaCreate fuel) s) as Hvoid.
  destruct (each (mayaCreate fuel) rootVect s) as [u s'| | |] eqn:E;
    cbn in *; intros Hout; try discriminate Hout;
    try (destruct Hvoid; discriminate).
  destruct u. intros root d Hroot Hr.
  destruct (each_requests (mayaCreate fuel) rootVect
              (mayaCreate_keeps fuel) (mayaCreate_requests fuel) _ _ E)
    as [_ R].
  eapply R; eassumption.
Qed.

Lemma create_ignores_what_Maya_answers_witness :
  outcome (create (P := demo 0) 8 [0%nat]
             (final (hierarchy (P := demo 0) 3
                       (initial (P := demo 0) [] (tokenize hips_end_foo)))))
  = Returned kSuccess
  /\ 1%nat ∈ requests
               (final (create (P := demo 0) 8 [0%nat]
                         (final (hierarchy (P := demo 0) 3
                                   (initial (P := demo 0) []
                                      (tokenize hips_end_foo)))))).
Proof.
  assert (Hout : outcome (create (P := demo 0) 8 [0%nat]
                   (final (hierarchy (P := demo 0) 3
                             (initial (P := demo 0) []
                                (tokenize hips_end_foo)))))
                 = Returned kSuccess) by (vm_compute; reflexivity).
  split; [exact Hout|].
  apply (proj2 (create_ignores_what_Maya_answers (P := demo 0) 8 [0%nat] _)
           Hout 0%nat 1%nat).
  - apply list_elem_of_here.
  - apply (reach_child _ 0%nat 1%nat 1%nat); [|apply reach_here].
    assert (E : children (node_at 0%nat
                  (final (hierarchy (P := demo 0) 3
                            (initial (P := demo 0) []
                               (tokenize hips_end_foo)))))
                = [1%nat]) by (vm_compute; reflexivity).
    rewrite E. apply list_elem_of_here.
Defined.

(** * Further properties of the reader *)

(** ** Relations respected by a whole run *)

Section WholeRun.

Context `{P : Platform}.
Variable R : State -> State -> Prop.
Hypothesis R_refl : forall s, R s s.
Hypothesis R_trans : forall s1 s2 s3, R s1 s2 -> R s2 s3 -> R s1 s3.
Hypothesis R_extract :
  forall s t rest, tokens s = t :: rest -> R s (set_tokens rest s).
Hypothesis R_visit : forall s a, R s (log_visit a s).
Hypothesis R_new : forall s, R s (set_heap (heap s ++ [Node0]) s).
Hypothesis R_alter :
  forall s a f, edit f -> R s (set_heap (alter f a (heap s)) s).
Hypothesis R_endSite : forall s a, R s (log_endSite a s).
Hypothesis R_scene : forall s sc, R s (set_scene sc s).
Hypothesis R_request : forall s a, R s (log_request a s).
Hypothesis R_jointObj :
  forall s a obj, R s (set_heap (alter (set_jointObj obj) a (heap s)) s).

Lemma preserves_create (fuel : nat) (rootVect : list nat) :
  preserves R (create fuel rootVect).
Proof using R_refl R_trans R_scene R_request R_jointObj.
  unfold create. apply preserves_bind; [exact R_trans| |].
  - apply preserves_each; try assumption.
    intros a. apply preserves_mayaCreate; assumption.
  - intros _. apply preserves_return. exact R_refl.
Qed.

Lemma preserves_reader (fuel : nat) (sc : Scene) (file : option string) :
  R (initial sc (match file with
                 | Some content => tokenize content
                 | None => []
                 end))
    (final (reader fuel sc file)).
Proof using All.
  destruct file as [content|]; cbn [reader]; [|apply R_refl].
  unfold readTokens.
  apply preserves_bind; [exact R_trans| |].
  - apply preserves_parse; assumption.
  - intros rootVect. apply preserves_create.
Qed.

End WholeRun.

(** ** The token stream is only consumed *)

(** X1: however a run of [reader] ends, what is left of the token stream
    is an end part of the tokens of the file: tokens are taken from the
    front, in order, and nothing is ever put back or skipped over. *)
Theorem reader_only_consumes_the_stream :
  forall `{P : Platform} (fuel : nat) (sc : Scene) (content : string),
    tokens (final (reader fuel sc (Some content)))
      `suffix_of` tokenize content.
Proof.
  intros P fuel sc content.
  apply (preserves_reader (fun s s' => tokens s' `suffix_of` tokens s));
    cbn; intros; try reflexivity.
  - etransitivity; eassumption.
  - match goal with H : tokens _ = _ |- _ => rewrite H end.
    apply suffix_cons_r. reflexivity.
Qed.

(** ** Frame values *)

Lemma elem_of_alter_inv {A} (f : A -> A) (a : nat) (l : list A) (x : A) :
  x ∈ alter f a l -> x ∈ l \/ exists y, y ∈ l /\ x = f y.
Proof.
  intros H. apply list_elem_of_lookup in H as [i Hi].
  destruct (decide (a = i)) as [->|Hne].
  - rewrite list_lookup_alter_eq in Hi.
    destruct (l !! i) as [y|] eqn:E; [|discriminate Hi].
    injection Hi as <-. right. exists y. split; [|reflexivity].
    apply list_elem_of_lookup. eauto.
  - rewrite list_lookup_alter_ne in Hi by exact Hne.
    left. apply list_elem_of_lookup. eauto.
Qed.

(** X2: no run of [reader] stores a frame value: however the run ends,
    every joint in the heap has an empty list of rows. *)
Theorem reader_never_stores_a_frame_value :
  forall `{P : Platform} (fuel : nat) (sc : Scene) (file : option string)
         (n : Node),
    n ∈ heap (final (reader fuel sc file)) -> channelValues n = [].
Proof.
  intros P fuel sc file.
  assert (Hedit : forall (f : Node -> Node) (h : list Node) (a : nat),
            (forall m, channelValues (f m) = channelValues m) ->
            (forall n, n ∈ h -> channelValues n = []) ->
            forall n, n ∈ alter f a h -> channelValues n = []).
  { intros f h a Hf Hh n Hn.
    apply elem_of_alter_inv in Hn as [Hn|(y & Hy & ->)]; [auto|].
    rewrite Hf. auto. }
  apply (preserves_reader
           (fun s s' => (forall n, n ∈ heap s -> channelValues n = []) ->
                        forall n, n ∈ heap s' -> channelValues n = []));
    cbn [heap tokens set_tokens set_heap log_visit log_endSite log_request
           set_scene initial]; auto.
  - intros s H n Hn. apply elem_of_app in Hn as [Hn|Hn]; [auto|].
    apply list_elem_of_singleton in Hn. subst n. reflexivity.
  - intros s a f He. apply Hedit. destruct He; reflexivity.
  - intros s a obj. apply Hedit. reflexivity.
  - intros n Hn. inversion Hn.
Qed.

Lemma node_at_in_heap `{P : Platform} (a : nat) (s : State) :
  (a < length (heap s))%nat -> node_at a s ∈ heap s.
Proof.
  intros H. unfold node_at.
  destruct (lookup_lt_is_Some_2 (heap s) a H) as [n Hn]. rewrite Hn. cbn.
  apply list_elem_of_lookup. eauto.
Qed.

Lemma reader_never_stores_a_frame_value_witness :
  (0 < length (heap (final (reader (P := demo 10) 8 [] (Some hips_alone)))))%nat
  /\ channelValues
       (node_at 0%nat (final (reader (P := demo 10) 8 [] (Some hips_alone))))
     = [].
Proof.
  assert (H : (0 < length (heap (final (reader (P := demo 10) 8 []
                                          (Some hips_alone)))))%nat)
    by (vm_compute; lia).
  split; [exact H|].
  apply (reader_never_stores_a_frame_value (P := demo 10) 8 []
           (Some hips_alone)).
  apply node_at_in_heap. exact H.
Defined.

(** ** The creation walk does not edit the tree *)

Section Shape.

Context `{P : Platform}.

(** A node without its Maya object. *)
Definition shape (n : Node)
  : string * list (option float) * list string * option nat * list nat
    * list (list float) :=
  (name n, offset n, channels n, parent n, children n, channelValues n).

Lemma map_shape_alter (f : Node -> Node) (a : nat) (h : list Node) :
  (forall n, shape (f n) = shape n) ->
  map shape (alter f a h) = map shape h.
Proof.
  intros Hf. revert a. induction h as [|x h IH]; intros a; [reflexivity|].
  destruct a as [|a]; cbn.
  - rewrite Hf. reflexivity.
  - f_equal. apply IH.
Qed.

(** What [create] leaves as it is. *)
Definition same_skeleton (s s' : State) : Prop :=
  map shape (heap s') = map shape (heap s)
  /\ tokens s' = tokens s /\ visited s' = visited s
  /\ endSites s' = endSites s.

Lemma create_same_skeleton (fuel : nat) (rootVect : list nat) (s : State) :
  same_skeleton s (final (create fuel rootVect s)).
Proof.
  revert s. apply preserves_create; unfold same_skeleton.
  - auto.
  - intros s1 s2 s3 (A1 & B1 & C1 & D1) (A2 & B2 & C2 & D2).
    repeat split; congruence.
  - intros s sc. cbn. auto.
  - intros s a. cbn. auto.
  - intros s a obj. cbn [heap tokens visited endSites set_heap].
    split; [|auto]. apply map_shape_alter. reflexivity.
Qed.

End Shape.

(** X3: the walk that creates the Maya joints performs no tree mutation:
    however it ends, the heap has the same joints with the same name,
    offset, channels, parent, children and rows (only the Maya object
    stored in a joint can differ), and the token stream and the logs of the
    parser are as before. *)
Theorem create_only_sets_the_Maya_objects :
  forall `{P : Platform} (fuel : nat) (rootVect : list nat) (s : State),
    map shape (heap (final (create fuel rootVect s))) = map shape (heap s)
    /\ tokens (final (create fuel rootVect s)) = tokens s
    /\ visited (final (create fuel rootVect s)) = visited s
    /\ endSites (final (create fuel rootVect s)) = endSites s.
Proof. intros P fuel rootVect s. apply create_same_skeleton. Qed.

(** ** What [readNode] reads *)

(** X4: on a new node and a stream that begins with a name, a brace,
    OFFSET, three numbers, CHANNELS, a count [k] and [k] channel names,
    [readNode] answers [true], has consumed exactly those tokens, and has
    stored the name, the three offsets in order and the channel names in
    order; the node has no parent, no child and no row, and the other nodes
    are untouched.  A count that is zero or negative reads no channel
    name. *)
Theorem readNode_reads_a_joint :
  forall `{P : Platform} (a : nat) (s : State) (nm f0 f1 f2 n : string)
         (v0 v1 v2 : float) (k : Z) (cs rest : list string),
    heap s !! a = Some Node0 ->
    tokens s
    = nm :: "{" :: "OFFSET" :: f0 :: f1 :: f2 :: "CHANNELS" :: n :: cs ++ rest ->
    stof f0 = Converted v0 -> stof f1 = Converted v1 ->
    stof f2 = Converted v2 ->
    stoi n = Converted k ->
    length cs = Z.to_nat k ->
    exists s',
      readNode a s = Ok true s'
      /\ tokens s' = rest
      /\ heap s' !! a
         = Some {| name := nm; offset := [Some v0; Some v1; Some v2];
                   channels := cs; jointObj := kNullObj; parent := None;
                   children := []; channelValues := [] |}
      /\ (forall b, b <> a -> heap s' !! b = heap s !! b)
      /\ length (heap s') = length (heap s).
Proof.
  intros P a s nm f0 f1 f2 n v0 v1 v2 k cs rest Hnode Htoks H0 H1 H2 Hn Hlen.
  destruct s as [toks h sc rq vi es]. cbn [tokens heap] in *. subst toks.
  unfold readNode, readOffsets, readOffset.
  unfold bind, getNode, extract, modNode.
  cbn. rewrite H0. cbn. rewrite H1. cbn. rewrite H2. cbn. rewrite Hn. cbn.
  rewrite <- Hlen.
  rewrite (readChannels_reads cs a n rest) by reflexivity.
  eexists. split; [reflexivity|].
  cbn [tokens heap set_tokens set_heap].
  split; [reflexivity|]. split; [|split].
  - rewrite !list_lookup_alter_eq, Hnode. cbn.
    rewrite add_channels_fields. reflexivity.
  - intros b Hb.
    rewrite !list_lookup_alter_ne by (intros E; apply Hb; symmetry; exact E).
    reflexivity.
  - rewrite !length_alter. reflexivity.
Qed.

Lemma readNode_reads_a_joint_witness :
  exists s',
    readNode (P := demo 10) 0%nat
      (set_tokens ["Hips"; "{"; "OFFSET"; "0"; "5"; "0"; "CHANNELS"; "2";
                   "Xposition"; "Yposition"; "}"]
         (set_heap [Node0] (initial (P := demo 10) [] [])))
    = Ok true s'
    /\ tokens s' = ["}"].
Proof.
  destruct (readNode_reads_a_joint (P := demo 10) 0%nat
              (set_tokens ["Hips"; "{"; "OFFSET"; "0"; "5"; "0"; "CHANNELS";
                           "2"; "Xposition"; "Yposition"; "}"]
                 (set_heap [Node0] (initial (P := demo 10) [] [])))
              "Hips" "0" "5" "0" "2"
              {| mant := 0; expo := 0 |} {| mant := 5; expo := 0 |}
              {| mant := 0; expo := 0 |} 2 ["Xposition"; "Yposition"] ["}"]
              eq_refl eq_refl eq_refl eq_refl eq_refl eq_refl eq_refl)
    as (s' & Hrun & Htoks & _).
  exists s'. split; [exact Hrun|exact Htoks].
Defined.

(** X5: a CHANNELS list cut short by the end of the file goes unnoticed.
    When the stream ends right after the count, [readNode] still answers
    [true]: every extraction fails and leaves the count token in place,
    and that token is stored as the name of each of the [k] channels. *)
Theorem readNode_repeats_the_last_token_at_eof :
  forall `{P : Platform} (a : nat) (s : State) (nm f0 f1 f2 n : string)
         (v0 v1 v2 : float) (k : Z),
    heap s !! a = Some Node0 ->
    tokens s = [nm; "{"; "OFFSET"; f0; f1; f2; "CHANNELS"; n] ->
    stof f0 = Converted v0 -> stof f1 = Converted v1 ->
    stof f2 = Converted v2 ->
    stoi n = Converted k ->
    exists s',
      readNode a s = Ok true s'
      /\ tokens s' = []
      /\ channels (node_at a s') = replicate (Z.to_nat k) n.
Proof.
  intros P a s nm f0 f1 f2 n v0 v1 v2 k Hnode Htoks H0 H1 H2 Hn.
  destruct s as [toks h sc rq vi es]. cbn [tokens heap] in *. subst toks.
  unfold readNode, readOffsets, readOffset.
  unfold bind, getNode, extract, modNode.
  cbn. rewrite H0. cbn. rewrite H1. cbn. rewrite H2. cbn. rewrite Hn. cbn.
  rewrite readChannels_at_eof by reflexivity.
  eexists. split; [reflexivity|].
  unfold node_at. cbn [tokens heap set_tokens set_heap].
  split; [reflexivity|].
  rewrite !list_lookup_alter_eq, Hnode. cbn.
  rewrite add_channels_fields. reflexivity.
Qed.

Lemma readNode_repeats_the_last_token_at_eof_witness :
  exists s',
    readNode (P := demo 10) 0%nat
      (set_tokens ["Hips"; "{"; "OFFSET"; "0"; "5"; "0"; "CHANNELS"; "3"]
         (set_heap [Node0] (initial (P := demo 10) [] [])))
    = Ok true s'
    /\ channels (node_at 0%nat s') = ["3"; "3"; "3"].
Proof.
  destruct (readNode_repeats_the_last_token_at_eof (P := demo 10) 0%nat
              (set_tokens ["Hips"; "{"; "OFFSET"; "0"; "5"; "0"; "CHANNELS";
                           "3"]
                 (set_heap [Node0] (initial (P := demo 10) [] [])))
              "Hips" "0" "5" "0" "3"
              {| mant := 0; expo := 0 |} {| mant := 5; expo := 0 |}
              {| mant := 0; expo := 0 |} 3
              eq_refl eq_refl eq_refl eq_refl eq_refl eq_refl)
    as (s' & Hrun & _ & Hch).
  exists s'. split; [exact Hrun|exact Hch].
Defined.

(** ** The motion section on roots without children *)

Lemma stoi_range (str : string) (v : Z) :
  stoi str = Converted v -> - 2 ^ 31 <= v <= 2 ^ 31 - 1.
Proof.
  unfold stoi. destruct (take_sign (skip_space str)) as [neg r].
  destruct (span_digits r) as [ds rest]. destruct ds as [|d ds].
  - discriminate.
  - set (w := if neg then - digits_value (d :: ds) else digits_value (d :: ds)).
    destruct ((w <? - 2 ^ 31) || (2 ^ 31 - 1 <? w)) eqn:E; [discriminate|].
    intros H. injection H as <-.
    apply orb_false_iff in E as [E1 E2].
    apply Z.ltb_ge in E1, E2. lia.
Qed.

Lemma lastIndex_nil : lastIndex [] = -1.
Proof. reflexivity. Qed.

(** [childIndex] starts below zero only for a joint without children (or
    with more children than an [int] can count). *)
Lemma lastIndex_negative (kids : list nat) :
  lastIndex kids < 0 -> kids = [] \/ 2 ^ 31 <= Z.of_nat (length kids) - 1.
Proof.
  intros H. destruct kids as [|c kids]; [left; reflexivity|right].
  unfold lastIndex, wrap32 in H.
  set (len := Z.of_nat (length (c :: kids))) in *.
  assert (Hlen : 1 <= len) by (subst len; cbn [length]; lia).
  destruct (Z_lt_ge_dec (len - 1) (2 ^ 31)) as [Hsmall|Hbig]; [|lia].
  rewrite (Z.mod_small (len - 1)) in H by lia.
  rewrite Z.mod_small in H by lia. lia.
Qed.

Section Leaves.

Context `{P : Platform}.

Lemma drainQueue_nil (n fuel : nat) (time : float) (i : Z) (s : State) :
  drainQueue n fuel time i [] s = Ok i s.
Proof. destruct n; reflexivity. Qed.

Lemma pushChildren_skipped (fuel : nat) (kids : list nat) (i : Z)
    (q : list nat) :
  lastIndex kids < 0 ->
  pushChildren fuel kids (lastIndex kids) i q = ForDone i q.
Proof.
  intros H. destruct fuel; cbn [pushChildren];
    destruct (0 <=? lastIndex kids) eqn:E; try reflexivity;
    apply Z.leb_le in E; lia.
Qed.

(** A root without children is visited and the queue is empty again. *)
Lemma drainQueue_leaf (n fuel : nat) (time : float) (i : Z) (root : nat)
    (s : State) :
  lastIndex (children (node_at root s)) < 0 ->
  drainQueue (S n) fuel time i [root] s = Ok i (log_visit root s).
Proof.
  intros H. cbn [drainQueue]. unfold bind at 1. cbn [mark_visit].
  unfold bind at 1. rewrite readAnimNode_noop. cbn [negb].
  unfold bind at 1. cbn [getNode].
  change (node_at root (log_visit root s)) with (node_at root s).
  rewrite pushChildren_skipped by exact H. apply drainQueue_nil.
Qed.

(** The visits of one frame, logged. *)
Definition visit_all (roots : list nat) (s : State) : State :=
  fold_left (fun s r => log_visit r s) roots s.

Lemma visit_all_fields (roots : list nat) (s : State) :
  visited (visit_all roots s) = visited s ++ roots
  /\ heap (visit_all roots s) = heap s
  /\ tokens (visit_all roots s) = tokens s.
Proof.
  revert s. induction roots as [|r roots IH]; intros s; cbn.
  - rewrite app_nil_r. auto.
  - destruct (IH (log_visit r s)) as (V & H & T).
    unfold visit_all in *. rewrite V, H, T. cbn.
    rewrite <- app_assoc. auto.
Qed.

Lemma eachRoot_leaves (fuel : nat) (time : float) (i : Z) (roots : list nat) :
  forall s,
    (forall r, r ∈ roots -> lastIndex (children (node_at r s)) < 0) ->
    eachRoot (S fuel) time i roots s = Ok i (visit_all roots s).
Proof.
  induction roots as [|root more IH]; intros s Hleaf; [reflexivity|].
  cbn [eachRoot]. unfold bind.
  rewrite drainQueue_leaf by (apply Hleaf; apply list_elem_of_here).
  apply IH. intros r Hr.
  change (node_at r (log_visit root s)) with (node_at r s).
  apply Hleaf. apply list_elem_of_further. exact Hr.
Qed.

(** The loop over the frames when no root has a child: one visit of each
    root, in the order of [rootVect], per frame that is left. *)
Lemma framesLoop_leaves (n fuel : nat) (nbFrames : Z) (timeFrame : float)
    (roots : list nat) :
  forall (time : float) (i : Z) (s : State),
    (forall r, r ∈ roots -> lastIndex (children (node_at r s)) < 0) ->
    0 <= i -> nbFrames <= 2 ^ 31 - 1 ->
    (Z.to_nat (nbFrames - i) <= n)%nat ->
    exists s',
      framesLoop n (S fuel) nbFrames timeFrame time i roots s = Ok tt s'
      /\ visited s'
         = visited s ++ concat (replicate (Z.to_nat (nbFrames - i)) roots)
      /\ heap s' = heap s /\ tokens s' = tokens s.
Proof.
  induction n as [|n IH]; intros time i s Hleaf Hi Hmax Hn.
  - cbn [framesLoop]. destruct (i <? nbFrames) eqn:E.
    + apply Z.ltb_lt in E. lia.
    + apply Z.ltb_ge in E. exists s.
      replace (Z.to_nat (nbFrames - i)) with 0%nat by lia.
      cbn. rewrite app_nil_r. auto.
  - cbn [framesLoop]. destruct (i <? nbFrames) eqn:E.
    + apply Z.ltb_lt in E. unfold bind.
      rewrite eachRoot_leaves by exact Hleaf.
      rewrite wrap32_small by lia.
      destruct (visit_all_fields roots s) as (V & H & T).
      destruct (IH (fadd time timeFrame) (i + 1) (visit_all roots s))
        as (s' & Hrun & V' & H' & T'); try lia.
      { intros r Hr. unfold node_at. rewrite H. apply Hleaf. exact Hr. }
      exists s'. split; [exact Hrun|]. rewrite V', H', T', V, H, T.
      repeat split.
      replace (Z.to_nat (nbFrames - i))
        with (S (Z.to_nat (nbFrames - (i + 1)))) by lia.
      cbn [replicate concat]. rewrite <- app_assoc. reflexivity.
    + apply Z.ltb_ge in E. exists s.
      replace (Z.to_nat (nbFrames - i)) with 0%nat by lia.
      cbn. rewrite app_nil_r. auto.
Qed.

End Leaves.

(** The motion section on a state in which no root has a child. *)
Lemma motion_on_childless_roots :
  forall `{P : Platform} (fuel : nat) (s : State) (roots : list nat)
         (n t : string) (rest : list string) (k : Z) (timeFrame : float),
    tokens s = "Frames:" :: n :: "Frame" :: "Time:" :: t :: rest ->
    stoi n = Converted k ->
    stof t = Converted timeFrame ->
    (forall r, r ∈ roots -> children (node_at r s) = []) ->
    (Z.to_nat k <= S fuel)%nat ->
    exists s',
      motion (S fuel) "MOTION" roots s = Ok tt s'
      /\ visited s' = visited s ++ concat (replicate (Z.to_nat k) roots)
      /\ tokens s' = rest
      /\ heap s' = heap s.
Proof.
  intros P fuel s roots n t rest k timeFrame Htoks Hn Ht Hleaf Hfuel.
  unfold motion.
  rewrite (bind_Ok _ _ _ _ _ (motionHeader_reads s _ _ _ _ _ Htoks Hn Ht)).
  cbn [fst snd]. pose proof (stoi_range _ _ Hn) as Hk.
  destruct (framesLoop_leaves (S fuel) fuel k timeFrame roots fzero 0
              (set_tokens rest s)) as (s' & Hrun & V & H & T).
  - intros r Hr. change (node_at r (set_tokens rest s)) with (node_at r s).
    rewrite (Hleaf r Hr). rewrite lastIndex_nil. lia.
  - lia.
  - lia.
  - rewrite Z.sub_0_r. exact Hfuel.
  - rewrite Z.sub_0_r in V. exists s'. auto.
Qed.

(** X6: when no root has a child, the motion section terminates.  After
    the header MOTION Frames: [k] Frame Time: [t] it visits every root of
    [rootVect] once per frame, in the order of [rootVect], for each of the
    [k] frames (none when [k] is not positive); it reads no token after
    the header and changes no joint.  On a well-formed file whose ROOT
    blocks have no nested block, [rootVect] holds the roots in the order
    of the ROOT blocks, the first block being joint 0, so that every frame
    visits the roots in the order in which their blocks stand in the
    file. *)
Theorem motion_visits_childless_roots_in_order :
  forall `{P : Platform} (fuel : nat),
    (forall (s : State) (roots : list nat)
            (n t : string) (rest : list string) (k : Z) (timeFrame : float),
       tokens s = "Frames:" :: n :: "Frame" :: "Time:" :: t :: rest ->
       stoi n = Converted k ->
       stof t = Converted timeFrame ->
       (forall r, r ∈ roots -> children (node_at r s) = []) ->
       (Z.to_nat k <= S fuel)%nat ->
       exists s',
         motion (S fuel) "MOTION" roots s = Ok tt s'
         /\ visited s' = visited s ++ concat (replicate (Z.to_nat k) roots)
         /\ tokens s' = rest
         /\ heap s' = heap s)
    /\ (forall (sc : Scene) (rs : list Block) (n t : string)
               (rest : list string) (k : Z) (timeFrame : float),
          forallb is_joint rs = true ->
          forallb well_formed rs = true ->
          forallb childless rs = true ->
          (2 * sizes rs <= S fuel)%nat ->
          stoi n = Converted k ->
          stof t = Converted timeFrame ->
          (Z.to_nat k <= S fuel)%nat ->
          exists s',
            parse (S fuel)
              (initial sc (hierarchy_tokens rs
                             ++ "MOTION" :: "Frames:" :: n :: "Frame"
                                  :: "Time:" :: t :: rest))
            = Ok (seq 0 (length rs)) s'
            /\ visited s'
               = concat (replicate (Z.to_nat k) (seq 0 (length rs)))
            /\ tokens s' = rest
            /\ map name (heap s') = flat_map names rs).
Proof.
  intros P fuel. split.
  - intros s roots n t rest k timeFrame.
    apply motion_on_childless_roots.
  - intros sc rs n t rest k timeFrame Hj Hwf Hc Hfuel Hn Ht Hk.
    assert (HM : "MOTION" <> "ROOT") by discriminate.
    pose proof (hierarchy_reads (S fuel) sc rs "MOTION"
                  ("Frames:" :: n :: "Frame" :: "Time:" :: t :: rest)
                  Hj Hwf HM Hfuel) as Hh.
    pose proof (hierarchy_represents (S fuel) sc rs "MOTION"
                  ("Frames:" :: n :: "Frame" :: "Time:" :: t :: rest)
                  Hj Hwf HM Hfuel) as Hrep.
    rewrite Hh in Hrep. cbn [final] in Hrep.
    rewrite (childless_starts rs Hc) in Hh, Hrep.
    match type of Hh with
    | _ = Ok _ ?s1 =>
        destruct (motion_on_childless_roots fuel s1 (seq 0 (length rs))
                    n t rest k timeFrame eq_refl Hn Ht
                    (childless_nodes s1 None _ rs Hrep Hc) Hk)
          as (s' & Hm & HV & HT & HH)
    end.
    exists s'. unfold parse. rewrite (bind_Ok _ _ _ _ _ Hh). cbn [fst snd].
    rewrite (bind_Ok _ _ _ _ _ Hm). split; [reflexivity|].
    split; [exact HV|]. split; [exact HT|].
    rewrite HH. cbn [heap]. apply names_layouts.
Qed.

Definition three_roots : list Block :=
  [JointBlock "Hips" "0" "0" "0" "1" ["Xposition"] [];
   JointBlock "Prop" "1" "0" "0" "0" [] [];
   JointBlock "Camera" "2" "0" "0" "0" [] []].

Lemma motion_visits_childless_roots_in_order_witness :
  forallb (well_formed (P := demo 10)) three_roots = true
  /\ forallb childless three_roots = true
  /\ (2 * sizes three_roots <= 6)%nat
  /\ exists s',
       parse (P := demo 10) 6
         (initial (P := demo 10) []
            (hierarchy_tokens three_roots
               ++ ["MOTION"; "Frames:"; "2"; "Frame"; "Time:"; "0.04";
                   "7"; "8"]))
       = Ok [0%nat; 1%nat; 2%nat] s'
       /\ visited s' = [0%nat; 1%nat; 2%nat; 0%nat; 1%nat; 2%nat]
       /\ tokens s' = ["7"; "8"]
       /\ map name (heap s') = ["Hips"; "Prop"; "Camera"].
Proof.
  assert (Hwf : forallb (well_formed (P := demo 10)) three_roots = true)
    by reflexivity.
  assert (Hc : forallb childless three_roots = true) by reflexivity.
  assert (Hfuel : (2 * sizes three_roots <= 6)%nat) by (cbn; lia).
  split; [exact Hwf|]. split; [exact Hc|]. split; [exact Hfuel|].
  exact (proj2 (motion_visits_childless_roots_in_order (P := demo 10) 5)
           [] three_roots "2" "0.04" ["7"; "8"] 2
           {| mant := 4; expo := -2 |} eq_refl Hwf Hc Hfuel eq_refl eq_refl
           ltac:(cbn; lia)).
Defined.

(** ** The motion section finishes on nothing else *)

Section OnlyLeaves.

Context `{P : Platform}.

Lemma outcome_bind_Finished {A B} (m : M A) (k : A -> M B) (s : State) :
  outcome (bind m k s) = Finished ->
  exists a s1, m s = Ok a s1 /\ outcome (k a s1) = Finished.
Proof.
  unfold bind. destruct (m s) as [a s1| | |]; cbn; intros H;
    try discriminate H. eauto.
Qed.

Lemma drainQueue_same_heap (n fuel : nat) (time : float) (i : Z)
    (q : list nat) (s : State) :
  heap (final (drainQueue n fuel time i q s)) = heap s.
Proof.
  revert s.
  apply (preserves_drainQueue (fun s s' => heap s' = heap s)); auto.
  intros s1 s2 s3 H1 H2. congruence.
Qed.

Lemma drainQueue_Ok_leaf (n fuel : nat) (time : float) (i j : Z)
    (root : nat) (s s' : State) :
  drainQueue n fuel time i [root] s = Ok j s' ->
  lastIndex (children (node_at root s)) < 0.
Proof.
  intros H. destruct n as [|n]; [discriminate H|].
  destruct (Z_lt_ge_dec (lastIndex (children (node_at root s))) 0)
    as [Hneg|Hpos]; [exact Hneg|].
  rewrite drainQueue_stuck in H; [discriminate H| |lia].
  intros E. rewrite E, lastIndex_nil in Hpos. lia.
Qed.

Lemma eachRoot_Ok_leaves (fuel : nat) (time : float) (roots : list nat) :
  forall (i j : Z) (s s' : State),
    eachRoot fuel time i roots s = Ok j s' ->
    forall r, r ∈ roots -> lastIndex (children (node_at r s)) < 0.
Proof.
  induction roots as [|root more IH]; intros i j s s' H r Hr;
    [inversion Hr|].
  cbn [eachRoot] in H. unfold bind in H.
  destruct (drainQueue fuel fuel time i [root] s) as [i1 s1| | |] eqn:E;
    try discriminate H.
  apply elem_of_cons in Hr as [->|Hr].
  - eapply drainQueue_Ok_leaf. exact E.
  - pose proof (drainQueue_same_heap fuel fuel time i [root] s) as Hh.
    rewrite E in Hh. cbn [final] in Hh.
    unfold node_at. rewrite <- Hh. eapply (IH _ _ _ _ H). exact Hr.
Qed.

Lemma framesLoop_Ok_leaves (n fuel : nat) (nbFrames : Z)
    (timeFrame time : float) (i : Z) (roots : list nat) (s s' : State) :
  framesLoop n fuel nbFrames timeFrame time i roots s = Ok tt s' ->
  i < nbFrames ->
  forall r, r ∈ roots -> lastIndex (children (node_at r s)) < 0.
Proof.
  intros H Hi. destruct n as [|n]; cbn [framesLoop] in H;
    destruct (i <? nbFrames) eqn:E; try (apply Z.ltb_ge in E; lia);
    [discriminate H|].
  unfold bind in H.
  destruct (eachRoot fuel time i roots s) as [j s1| | |] eqn:E1;
    try discriminate H.
  eapply eachRoot_Ok_leaves. exact E1.
Qed.

Lemma framesLoop_no_frame (n fuel : nat) (nbFrames : Z)
    (timeFrame time : float) (i : Z) (roots : list nat) (s : State) :
  nbFrames <= i ->
  framesLoop n fuel nbFrames timeFrame time i roots s = Ok tt s.
Proof.
  intros H. destruct n; cbn [framesLoop];
    destruct (i <? nbFrames) eqn:E; try reflexivity;
    apply Z.ltb_lt in E; lia.
Qed.

Lemma motionHeader_same (currentToken : string) (s : State) :
  heap (final (motionHeader currentToken s)) = heap s
  /\ visited (final (motionHeader currentToken s)) = visited s.
Proof.
  revert s.
  apply (preserves_motionHeader
           (fun s s' => heap s' = heap s /\ visited s' = visited s)); auto.
  intros s1 s2 s3 [H1 V1] [H2 V2]. split; congruence.
Qed.

End OnlyLeaves.

(** X7: the motion section finishes only when there is nothing to
    traverse below a root: if it finishes, either no joint was visited
    (the frame count is not positive), or every root has no child (or more
    children than an [int] can count, for which the loop of line 338 is
    skipped).  With a frame to read and a root that has a child it never
    finishes. *)
Theorem motion_finishes_only_without_children :
  forall `{P : Platform} (fuel : nat) (currentToken : string)
         (roots : list nat) (s : State),
    outcome (motion fuel currentToken roots s) = Finished ->
    visited (final (motion fuel currentToken roots s)) = visited s
    \/ forall r, r ∈ roots ->
         children (node_at r s) = []
         \/ 2 ^ 31 <= Z.of_nat (length (children (node_at r s))) - 1.
Proof.
  intros P fuel currentToken roots s Hout. unfold motion in *.
  apply outcome_bind_Finished in Hout as ([nb tf] & s1 & Hhead & Hout).
  pose proof (motionHeader_same currentToken s) as [Hh Hv].
  rewrite Hhead in Hh, Hv. cbn [final] in Hh, Hv.
  rewrite (bind_Ok _ _ _ _ _ Hhead). cbn [fst snd] in *.
  destruct (Z_lt_ge_dec 0 nb) as [Hpos|Hnone].
  - right. intros r Hr. apply lastIndex_negative.
    destruct (framesLoop fuel fuel nb tf fzero 0 roots s1)
      as [[] s'| | |] eqn:E; try discriminate Hout.
    unfold node_at. rewrite <- Hh.
    eapply framesLoop_Ok_leaves; [exact E|exact Hpos|exact Hr].
  - left. rewrite framesLoop_no_frame by lia. exact Hv.
Qed.

Lemma motion_finishes_only_without_children_witness :
  outcome (motion (P := demo 10) 2 "MOTION" [0%nat; 1%nat]
             (set_tokens ["Frames:"; "2"; "Frame"; "Time:"; "0.04"; "7"; "8"]
                (set_heap [Node0; Node0] (initial (P := demo 10) [] []))))
  = Finished
  /\ (visited (final (motion (P := demo 10) 2 "MOTION" [0%nat; 1%nat]
                       (set_tokens
                          ["Frames:"; "2"; "Frame"; "Time:"; "0.04"; "7"; "8"]
                          (set_heap [Node0; Node0]
                             (initial (P := demo 10) [] [])))))
      = []
      \/ forall r, r ∈ [0%nat; 1%nat] ->
           children (node_at r
                       (set_tokens
                          ["Frames:"; "2"; "Frame"; "Time:"; "0.04"; "7"; "8"]
                          (set_heap [Node0; Node0]
                             (initial (P := demo 10) [] []))))
           = []
           \/ 2 ^ 31
              <= Z.of_nat
                   (length
                      (children
                         (node_at r
                            (set_tokens
                               ["Frames:"; "2"; "Frame"; "Time:"; "0.04";
                                "7"; "8"]
                               (set_heap [Node0; Node0]
                                  (initial (P := demo 10) [] [])))))) - 1).
Proof.
  assert (H : outcome (motion (P := demo 10) 2 "MOTION" [0%nat; 1%nat]
                (set_tokens ["Frames:"; "2"; "Frame"; "Time:"; "0.04"; "7"; "8"]
                   (set_heap [Node0; Node0] (initial (P := demo 10) [] []))))
              = Finished) by (vm_compute; reflexivity).
  split; [exact H|].
  exact (motion_finishes_only_without_children (P := demo 10) 2 "MOTION"
           [0%nat; 1%nat] _ H).
Defined.

(** ** The hierarchy loops terminate *)

Section HierarchyTerminates.

Context `{P : Platform}.











(** The stream does not grow. *)
Definition shorter (s s' : State) : Prop :=
  (length (tokens s') <= length (tokens s))%nat.

Ltac shorter_step :=
  unfold shorter; intros;
  cbn [tokens set_tokens set_heap log_endSite log_visit];
  try match goal with H : tokens _ = _ |- _ => rewrite H; cbn [length] end;
  lia.

Lemma readNode_shorter (a : nat) (s : State) :
  shorter s (final (readNode a s)).
Proof. revert s. apply preserves_readNode; shorter_step. Qed.

Lemma readOffsets_shorter (a : nat) (currentToken : string) (s : State) :
  shorter s (final (readOffsets a currentToken s)).
Proof. revert s. apply preserves_readOffsets; shorter_step. Qed.

Lemma readChannels_shorter (a n : nat) (currentToken : string) (s : State) :
  shorter s (final (readChannels a n currentToken s)).
Proof. revert s. apply preserves_readChannels; shorter_step. Qed.











End HierarchyTerminates.



(** ** The joints form a forest *)

Section Forest.

Context `{P : Platform}.

(** The links of the heap are those of a forest with roots [roots]: a
    joint with a parent was allocated after it and is among its children,
    a joint without parent is a root, and a child listed under a joint
    has that joint as its parent. *)
Definition Forest (roots : list nat) (s : State) : Prop :=
  (forall a, (a < length (heap s))%nat ->
     match parent (node_at a s) with
     | Some p => (p < a)%nat /\ a ∈ children (node_at p s)
     | None => a ∈ roots
     end)
  /\ (forall p c, (p < length (heap s))%nat -> c ∈ children (node_at p s) ->
        (p < c < length (heap s))%nat /\ parent (node_at c s) = Some p)
  /\ (forall r, r ∈ roots ->
        (r < length (heap s))%nat /\ parent (node_at r s) = None).

Lemma Forest_same (roots : list nat) (s s' : State) :
  heap s' = heap s -> Forest roots s -> Forest roots s'.
Proof. intros Hh. unfold Forest, node_at. rewrite Hh. auto. Qed.

Lemma node_at_same (a : nat) (s s' : State) :
  heap s' !! a = heap s !! a -> node_at a s' = node_at a s.
Proof. unfold node_at. intros ->. reflexivity. Qed.

Lemma node_at_new (s : State) :
  node_at (length (heap s)) (set_heap (heap s ++ [Node0]) s) = Node0.
Proof.
  unfold node_at. cbn [heap set_heap].
  rewrite lookup_app_r by lia. rewrite Nat.sub_diag. reflexivity.
Qed.

(** The nodes after the new one at the end of the heap was linked under
    [back]. *)
Lemma attach_nodes (s s2 s' : State) (back : nat) :
  (back < length (heap s))%nat ->
  length (heap s2) = S (length (heap s)) ->
  (forall b, b <> length (heap s) -> heap s2 !! b = (heap s ++ [Node0]) !! b) ->
  heap s' = alter (set_parent back) (length (heap s))
              (alter (push_child (length (heap s))) back (heap s2)) ->
  length (heap s') = S (length (heap s))
  /\ node_at (length (heap s)) s'
     = set_parent back (node_at (length (heap s)) s2)
  /\ node_at back s' = push_child (length (heap s)) (node_at back s)
  /\ forall x, (x < length (heap s))%nat -> x <> back ->
       node_at x s' = node_at x s.
Proof.
  intros Hback Hlen Hother Hheap.
  assert (Hne : back <> length (heap s)) by lia.
  split; [rewrite Hheap, !length_alter; exact Hlen|].
  unfold node_at. rewrite Hheap. repeat split.
  - rewrite list_lookup_alter_eq, list_lookup_alter_ne by exact Hne.
    destruct (lookup_lt_is_Some_2 (heap s2) (length (heap s))) as [n2 Hn2];
      [lia|].
    rewrite Hn2. reflexivity.
  - rewrite list_lookup_alter_ne by lia.
    rewrite list_lookup_alter_eq, Hother by exact Hne.
    rewrite lookup_app_l by exact Hback.
    destruct (lookup_lt_is_Some_2 (heap s) back Hback) as [nb Hnb].
    rewrite Hnb. reflexivity.
  - intros x Hx Hxb.
    rewrite list_lookup_alter_ne by lia.
    rewrite list_lookup_alter_ne by (intros E; apply Hxb; symmetry; exact E).
    rewrite Hother by lia. rewrite lookup_app_l by exact Hx. reflexivity.
Qed.

Lemma attach_Forest (roots : list nat) (s s2 s' : State) (back : nat) :
  Forest roots s ->
  (back < length (heap s))%nat ->
  length (heap s2) = S (length (heap s)) ->
  (forall b, b <> length (heap s) -> heap s2 !! b = (heap s ++ [Node0]) !! b) ->
  children (node_at (length (heap s)) s2) = [] ->
  heap s' = alter (set_parent back) (length (heap s))
              (alter (push_child (length (heap s))) back (heap s2)) ->
  Forest roots s'.
Proof.
  intros (TA & TB & TC) Hback Hlen Hother Hkids Hheap.
  destruct (attach_nodes s s2 s' back Hback Hlen Hother Hheap)
    as (Hlen' & Na & Nb & No).
  set (a := length (heap s)) in *.
  assert (Dp : forall x, (x < a)%nat ->
                 parent (node_at x s') = parent (node_at x s)).
  { intros x Hx. destruct (decide (x = back)) as [->|Hxb].
    - rewrite Nb. reflexivity.
    - rewrite No by assumption. reflexivity. }
  assert (Dc : forall x c, (x < a)%nat ->
                 c ∈ children (node_at x s) -> c ∈ children (node_at x s')).
  { intros x c Hx Hc. destruct (decide (x = back)) as [->|Hxb].
    - rewrite Nb. cbn. apply elem_of_app. left. exact Hc.
    - rewrite No by assumption. exact Hc. }
  assert (Dc' : forall x c, (x < a)%nat ->
                  c ∈ children (node_at x s') ->
                  c ∈ children (node_at x s) \/ (x = back /\ c = a)).
  { intros x c Hx Hc. destruct (decide (x = back)) as [->|Hxb].
    - rewrite Nb in Hc. cbn in Hc. apply elem_of_app in Hc as [Hc|Hc].
      + left. exact Hc.
      + right. apply list_elem_of_singleton in Hc. auto.
    - rewrite No in Hc by assumption. left. exact Hc. }
  assert (Pa : parent (node_at a s') = Some back) by (rewrite Na; reflexivity).
  assert (Ca : children (node_at a s') = [])
    by (rewrite Na; cbn; exact Hkids).
  unfold Forest. rewrite Hlen'. repeat split.
  - intros x Hx. destruct (decide (x = a)) as [->|Hxa].
    + rewrite Pa. split; [exact Hback|].
      rewrite Nb. cbn. apply elem_of_app. right. apply list_elem_of_here.
    + assert (Hx' : (x < a)%nat) by lia.
      rewrite Dp by exact Hx'. specialize (TA x Hx').
      destruct (parent (node_at x s)) as [p|]; [|exact TA].
      destruct TA as [Hp Hin]. split; [exact Hp|].
      apply Dc; [lia|exact Hin].
  - destruct (decide (p = a)) as [->|Hpa].
    + rewrite Ca in H0. inversion H0.
    + assert (Hp' : (p < a)%nat) by lia.
      destruct (Dc' p c Hp' H0) as [Hold|[-> ->]].
      * destruct (TB p c Hp' Hold) as [Hlt _]. lia.
      * exact Hback.
  - destruct (decide (p = a)) as [->|Hpa].
    + rewrite Ca in H0. inversion H0.
    + assert (Hp' : (p < a)%nat) by lia.
      destruct (Dc' p c Hp' H0) as [Hold|[-> ->]].
      * destruct (TB p c Hp' Hold) as [Hlt _]. lia.
      * lia.
  - destruct (decide (p = a)) as [->|Hpa].
    + rewrite Ca in H0. inversion H0.
    + assert (Hp' : (p < a)%nat) by lia.
      destruct (Dc' p c Hp' H0) as [Hold|[-> ->]].
      * destruct (TB p c Hp' Hold) as [Hlt Hpar].
        rewrite Dp by lia. exact Hpar.
      * exact Pa.
  - destruct (TC r H) as [Hr _]. lia.
  - destruct (TC r H) as [Hr Hpar]. rewrite Dp by exact Hr. exact Hpar.
Qed.

(** A new root, filled in, joins the roots. *)
Lemma root_Forest (roots : list nat) (s s2 : State) :
  Forest roots s ->
  node_frame (length (heap s)) (set_heap (heap s ++ [Node0]) s) s2 ->
  Forest (roots ++ [length (heap s)]) s2.
Proof.
  intros (TA & TB & TC) (_ & HL & HO & HK & HP).
  rewrite node_at_new in HK, HP. cbn [heap set_heap] in HL, HO.
  rewrite length_app in HL. cbn [length] in HL.
  set (a := length (heap s)) in *.
  assert (Hold : forall x, (x < a)%nat -> node_at x s2 = node_at x s).
  { intros x Hx. apply node_at_same. rewrite HO by lia.
    apply lookup_app_l. exact Hx. }
  unfold Forest. replace (length (heap s2)) with (S a) by lia.
  repeat split.
  - intros x Hx. destruct (decide (x = a)) as [->|Hxa].
    + rewrite HP. cbn. apply elem_of_app. right. apply list_elem_of_here.
    + assert (Hx' : (x < a)%nat) by lia.
      rewrite Hold by exact Hx'. specialize (TA x Hx').
      destruct (parent (node_at x s)) as [p|].
      * destruct TA as [Hp Hin]. split; [exact Hp|].
        rewrite Hold by lia. exact Hin.
      * apply elem_of_app. left. exact TA.
  - destruct (decide (p = a)) as [->|Hpa].
    + rewrite HK in H0. inversion H0.
    + rewrite Hold in H0 by lia. destruct (TB p c) as [Hlt _]; [lia|auto|lia].
  - destruct (decide (p = a)) as [->|Hpa].
    + rewrite HK in H0. inversion H0.
    + rewrite Hold in H0 by lia. destruct (TB p c) as [Hlt _]; [lia|auto|lia].
  - destruct (decide (p = a)) as [->|Hpa].
    + rewrite HK in H0. inversion H0.
    + rewrite Hold in H0 by lia.
      destruct (TB p c) as [Hlt Hpar]; [lia|auto|].
      rewrite Hold by lia. exact Hpar.
  - apply elem_of_app in H as [H|H].
    + destruct (TC r H) as [Hr _]. lia.
    + apply list_elem_of_singleton in H. lia.
  - apply elem_of_app in H as [H|H].
    + destruct (TC r H) as [Hr Hpar]. rewrite Hold by exact Hr. exact Hpar.
    + apply list_elem_of_singleton in H. subst r. exact HP.
Qed.

(** What the JOINT branch does to the heap. *)
Lemma readJoint_heap (back : nat) (s s' : State) (node : nat) :
  readJoint back s = Ok node s' ->
  exists s2,
    length (heap s2) = S (length (heap s))
    /\ (forall b, b <> length (heap s) ->
          heap s2 !! b = (heap s ++ [Node0]) !! b)
    /\ children (node_at (length (heap s)) s2) = []
    /\ heap s' = alter (set_parent back) (length (heap s))
                   (alter (push_child (length (heap s))) back (heap s2)).
Proof.
  intros H. unfold readJoint in H.
  apply bind_Ok_inv in H as (a & s1 & Hnew & H).
  unfold new_Node in Hnew. injection Hnew as <- <-.
  apply bind_Ok_inv in H as (state & s2 & Hread & H).
  destruct state; cbn [negb] in H; [|discriminate H].
  apply bind_Ok_inv in H as (u1 & s3 & Hm1 & H).
  unfold modNode in Hm1. injection Hm1 as _ <-.
  apply bind_Ok_inv in H as (u2 & s4 & Hm2 & H).
  unfold modNode in Hm2. injection Hm2 as _ <-.
  unfold ret in H. injection H as _ <-.
  pose proof (readNode_frame (length (heap s))
                (set_heap (heap s ++ [Node0]) s)) as HF.
  rewrite Hread in HF. cbn [final] in HF.
  destruct HF as (_ & HL & HO & HK & _).
  rewrite node_at_new in HK. cbn [heap set_heap] in *.
  exists s2. repeat split; try assumption.
  rewrite HL, length_app. cbn. lia.
Qed.

(** What the End branch does to the heap. *)
Lemma readEndSite_heap (back : nat) (currentToken : string) (s s' : State)
    (tok : string) :
  readEndSite back currentToken s = Ok tok s' ->
  exists s2,
    length (heap s2) = S (length (heap s))
    /\ (forall b, b <> length (heap s) ->
          heap s2 !! b = (heap s ++ [Node0]) !! b)
    /\ children (node_at (length (heap s)) s2) = []
    /\ heap s' = alter (set_parent back) (length (heap s))
                   (alter (push_child (length (heap s))) back (heap s2)).
Proof.
  intros H. unfold readEndSite in H.
  apply bind_Ok_inv in H as (a & s1 & Hnew & H).
  unfold new_Node in Hnew. injection Hnew as <- <-.
  apply bind_Ok_inv in H as (u0 & s2 & Hmark & H).
  unfold mark_endSite in Hmark. injection Hmark as _ <-.
  apply bind_Ok_inv in H as (nd & s3 & Hget & H).
  unfold getNode in Hget. injection Hget as <- <-.
  apply bind_Ok_inv in H as (nm & s4 & Hx1 & H).
  apply extract_Ok_inv in Hx1 as [Hh4 _].
  apply bind_Ok_inv in H as (u1 & s5 & Hm1 & H).
  unfold modNode in Hm1. injection Hm1 as _ <-.
  apply bind_Ok_inv in H as (t1 & s6 & Hx2 & H).
  apply extract_Ok_inv in Hx2 as [Hh6 _].
  destruct (negb (String.eqb t1 "{")); [discriminate H|].
  apply bind_Ok_inv in H as (t2 & s7 & Hx3 & H).
  apply extract_Ok_inv in Hx3 as [Hh7 _].
  destruct (negb (String.eqb t2 "OFFSET")); [discriminate H|].
  apply bind_Ok_inv in H as (t3 & s8 & Hoff & H).
  apply bind_Ok_inv in H as (u2 & s9 & Hm2 & H).
  unfold modNode in Hm2. injection Hm2 as _ <-.
  apply bind_Ok_inv in H as (u3 & s10 & Hm3 & H).
  unfold modNode in Hm3. injection Hm3 as _ <-.
  apply bind_Ok_inv in H as (t4 & s11 & Hx4 & H).
  apply extract_Ok_inv in Hx4 as [Hh11 _].
  destruct (negb (String.eqb t4 "}")); [discriminate H|].
  unfold ret in H. injection H as _ <-.
  pose proof (readOffsets_frame (length (heap s)) t2 s7) as HF.
  rewrite Hoff in HF. cbn [final] in HF.
  destruct HF as [(_ & HL & HO & HK & _) _].
  cbn [heap set_heap endSites log_endSite] in *.
  assert (Hlen7 : length (heap s7) = S (length (heap s))).
  { rewrite Hh7, Hh6. cbn [heap set_heap]. rewrite length_alter, Hh4.
    cbn [heap set_heap log_endSite]. rewrite length_app. cbn. lia. }
  assert (Hnode7 : node_at (length (heap s)) s7 = set_name nm Node0).
  { unfold node_at. rewrite Hh7, Hh6. cbn [heap set_heap].
    rewrite list_lookup_alter_eq, Hh4. cbn [heap set_heap log_endSite].
    rewrite lookup_app_r by lia. rewrite Nat.sub_diag. reflexivity. }
  exists s8. repeat split.
  - rewrite HL. exact Hlen7.
  - intros b Hb. rewrite HO by exact Hb. rewrite Hh7, Hh6.
    cbn [heap set_heap]. rewrite list_lookup_alter_ne by lia.
    rewrite Hh4. reflexivity.
  - rewrite HK, Hnode7. reflexivity.
  - rewrite Hh11. reflexivity.
Qed.

Lemma openLoop_Forest (roots : list nat) (n : nat) :
  forall (currentToken : string) (q : list nat) (s s' : State) (tok : string),
    Inv q s -> Forest roots s ->
    openLoop n currentToken q s = Ok tok s' ->
    Forest roots s'.
Proof.
  induction n as [|n IH]; intros currentToken q s s' tok HInv HT H;
    destruct q as [|back below]; cbn [openLoop] in H;
    try (unfold ret in H; injection H as _ <-; exact HT);
    try discriminate H.
  apply bind_Ok_inv in H as (t & s1 & Hx & H).
  apply extract_Ok_inv in Hx as [Hh He].
  apply (Inv_same _ _ _ Hh He) in HInv.
  apply (Forest_same _ _ _ Hh) in HT.
  assert (Hback : (back < length (heap s1))%nat).
  { destruct HInv as [Hq _]. apply Hq. apply list_elem_of_here. }
  destruct (String.eqb t "JOINT").
  { apply bind_Ok_inv in H as (node & s2 & Hj & H).
    eapply IH; [| |exact H].
    - eapply readJoint_Inv; eassumption.
    - destruct (readJoint_heap _ _ _ _ Hj) as (s2' & A & B & C & D).
      eapply attach_Forest; eassumption. }
  destruct (String.eqb t "End").
  { apply bind_Ok_inv in H as (t' & s2 & Hj & H).
    eapply IH; [| |exact H].
    - eapply readEndSite_Inv; eassumption.
    - destruct (readEndSite_heap _ _ _ _ _ Hj) as (s2' & A & B & C & D).
      eapply attach_Forest; eassumption. }
  destruct (String.eqb t "}"); [|discriminate H].
  eapply IH; [| |exact H]; [eapply Inv_pop; exact HInv|exact HT].
Qed.

Lemma rootsLoop_Forest (n fuel : nat) :
  forall (currentToken : string) (rootVect : list nat) (s s' : State)
         (r : string * list nat),
    Inv [] s -> Forest rootVect s ->
    rootsLoop n fuel currentToken rootVect s = Ok r s' ->
    Inv [] s' /\ Forest (snd r) s'.
Proof.
  induction n as [|n IH]; intros currentToken rootVect s s' r HInv HT H;
    cbn [rootsLoop] in H; destruct (String.eqb currentToken "ROOT");
    try (unfold ret in H; injection H as <- <-; auto);
    try discriminate H.
  apply bind_Ok_inv in H as (a & s1 & Hnew & H).
  unfold new_Node in Hnew. injection Hnew as <- <-.
  apply bind_Ok_inv in H as (state & s2 & Hread & H).
  destruct state; cbn [negb] in H; [|discriminate H].
  apply bind_Ok_inv in H as (t & s3 & Hopen & H).
  apply bind_Ok_inv in H as (t' & s4 & Hx & H).
  apply extract_Ok_inv in Hx as [Hh He].
  pose proof (readNode_frame (length (heap s))
                (set_heap (heap s ++ [Node0]) s)) as HF.
  rewrite Hread in HF. cbn [final] in HF.
  pose proof (root_Inv s s2 HInv HF) as HInv2.
  pose proof (root_Forest rootVect s s2 HT HF) as HT2.
  eapply IH; [| |exact H].
  - apply (Inv_same _ s3); [exact Hh|exact He|].
    eapply openLoop_Inv; eassumption.
  - apply (Forest_same _ s3); [exact Hh|].
    eapply openLoop_Forest; eassumption.
Qed.

Lemma hierarchy_Forest (fuel : nat) (sc : Scene) (toks : list string)
    (hier : string * list nat) (s' : State) :
  hierarchy fuel (initial sc toks) = Ok hier s' -> Forest (snd hier) s'.
Proof.
  intros H. unfold hierarchy in H.
  apply bind_Ok_inv in H as (t & s1 & Hx & H).
  apply extract_Ok_inv in Hx as [Hh He].
  destruct (negb (String.eqb t "HIERARCHY")); [discriminate H|].
  apply bind_Ok_inv in H as (t' & s2 & Hx' & H).
  apply extract_Ok_inv in Hx' as [Hh' He'].
  eapply rootsLoop_Forest; [| |exact H].
  - split.
    + intros b Hb. inversion Hb.
    + intros e Hin. rewrite He', He in Hin. cbn in Hin. inversion Hin.
  - unfold Forest. rewrite Hh', Hh. cbn. repeat split; try lia.
    + inversion H0.
    + inversion H0.
Qed.

End Forest.

(** X9: when the hierarchy of a file has been read, the joints form a
    forest whose roots are the joints of [rootVect]: a joint with a parent
    was allocated after its parent and is listed among the children of
    that parent; a joint without parent is in [rootVect]; every child
    listed under a joint is a joint of the heap, allocated after it, whose
    parent is that joint; and the joints of [rootVect] have no parent. *)
Theorem hierarchy_builds_a_forest :
  forall `{P : Platform} (fuel : nat) (sc : Scene) (toks : list string)
         (hier : string * list nat),
    value (hierarchy fuel (initial sc toks)) = Some hier ->
    Forest (snd hier) (final (hierarchy fuel (initial sc toks))).
Proof.
  intros P fuel sc toks hier Hv. apply Ok_intro in Hv.
  eapply hierarchy_Forest. exact Hv.
Qed.

Lemma hierarchy_builds_a_forest_witness :
  value (hierarchy (P := demo 10) 6
           (initial (P := demo 10) [] (tokenize hips_two_legs)))
  = Some ("MOTION", [0%nat])
  /\ Forest [0%nat]
       (final (hierarchy (P := demo 10) 6
                 (initial (P := demo 10) [] (tokenize hips_two_legs)))).
Proof.
  assert (Hv : value (hierarchy (P := demo 10) 6
                        (initial (P := demo 10) [] (tokenize hips_two_legs)))
               = Some ("MOTION", [0%nat])) by (vm_compute; reflexivity).
  split; [exact Hv|].
  exact (hierarchy_builds_a_forest (P := demo 10) 6 []
           (tokenize hips_two_legs) _ Hv).
Defined.

(** ** The creation walk on a forest *)

Section WalkForest.

Context `{P : Platform}.

Lemma reach_snoc (s : State) (r p a : nat) :
  reach s r p -> a ∈ children (node_at p s) -> reach s r a.
Proof.
  intros H Ha. induction H as [p|p c d Hc _ IH].
  - eapply reach_child; [exact Ha|apply reach_here].
  - eapply reach_child; [exact Hc|apply IH; exact Ha].
Qed.

(** In a forest every joint is below a root. *)
Lemma Forest_reach (roots : list nat) (s : State) :
  Forest roots s ->
  forall a, (a < length (heap s))%nat ->
    exists r, r ∈ roots /\ reach s r a.
Proof.
  intros (TA & _ & _) a. induction a as [a IH] using lt_wf_ind. intros Ha.
  specialize (TA a Ha). destruct (parent (node_at a s)) as [p|].
  - destruct TA as [Hp Hin]. destruct (IH p Hp) as (r & Hr & Hreach); [lia|].
    exists r. split; [exact Hr|]. eapply reach_snoc; eassumption.
  - exists a. split; [exact TA|apply reach_here].
Qed.

(** The heap has [L] joints and children come after their parent. *)
Definition upward (L : nat) (s : State) : Prop :=
  length (heap s) = L
  /\ forall p c, c ∈ children (node_at p s) -> (p < c < L)%nat.

Lemma Forest_upward (roots : list nat) (s : State) :
  Forest roots s -> upward (length (heap s)) s.
Proof.
  intros (_ & TB & _). split; [reflexivity|]. intros p c Hc.
  destruct (Nat.lt_ge_cases p (length (heap s))) as [Hp|Hp].
  - apply TB; assumption.
  - unfold node_at in Hc. rewrite lookup_ge_None_2 in Hc by exact Hp.
    inversion Hc.
Qed.

Lemma mayaCreate_same_length (fuel : nat) (a : nat) (s : State) :
  length (heap (final (mayaCreate fuel a s))) = length (heap s).
Proof.
  revert s.
  apply (preserves_mayaCreate
           (fun s s' => length (heap s') = length (heap s))); auto.
  - intros s1 s2 s3 H1 H2. congruence.
  - intros s b obj. cbn. apply length_alter.
Qed.

Lemma upward_keeps (L : nat) (s s' : State) :
  walk_keeps s s' -> length (heap s') = length (heap s) ->
  upward L s -> upward L s'.
Proof.
  intros [K _] Hlen [HL Hup]. split; [congruence|].
  intros p c Hc. rewrite K in Hc. apply Hup. exact Hc.
Qed.

Lemma each_finishes (L : nat) (f : nat -> M unit) (l : list nat) :
  (forall c s, c ∈ l -> upward L s ->
     exists s', f c s = Ok tt s' /\ upward L s') ->
  forall s, upward L s -> exists s', each f l s = Ok tt s' /\ upward L s'.
Proof.
  induction l as [|c l IH]; intros Hf s Hup; cbn [each].
  - exists s. split; [reflexivity|exact Hup].
  - destruct (Hf c s (list_elem_of_here _ _) Hup) as (s1 & Hc & Hup1).
    rewrite (bind_Ok _ _ _ _ _ Hc).
    apply IH; [|exact Hup1].
    intros c' s0 Hc'. apply Hf. apply list_elem_of_further. exact Hc'.
Qed.

(** On a heap whose links go upward, [mayaCreate] finishes within a
    recursion depth of the number of joints from [a] on. *)
Lemma mayaCreate_finishes (L : nat) (fuel : nat) :
  forall a s,
    upward L s -> (a < L)%nat -> (L - a <= fuel)%nat ->
    exists s', mayaCreate fuel a s = Ok tt s' /\ upward L s'.
Proof.
  induction fuel as [|fuel IH]; intros a s Hup Ha Hfuel; [lia|].
  assert (Hfin : exists s', mayaCreate (S fuel) a s = Ok tt s').
  { cbn [mayaCreate]. unfold bind at 1. cbn [getNode].
    assert (Hpar : exists obj,
              (match parent (node_at a s) with
               | Some p => bind (getNode p) (fun pn => ret (jointObj pn))
               | None => ret kNullObj
               end) s = Ok obj s).
    { destruct (parent (node_at a s)); eexists; reflexivity. }
    destruct Hpar as [parentObj Hpar].
    rewrite (bind_Ok _ _ _ _ _ Hpar).
    unfold bind at 1. unfold hostCreate.
    destruct (jointCreate (scene s) parentObj) as [sc obj].
    unfold bind at 1. cbn [modNode].
    unfold bind at 1. cbn [hostSetName].
    unfold bind at 1. cbn [hostSetTranslation].
    match goal with
    | |- exists s', each _ _ ?s4 = _ =>
        destruct (each_finishes L (mayaCreate fuel)
                    (children (node_at a s))) with (s := s4)
          as (s' & Hs' & _)
    end.
    - intros c s0 Hc Hup0. destruct Hup as [_ Hup].
      destruct (Hup a c Hc) as [Hac HcL]. apply IH; [exact Hup0|lia|lia].
    - destruct Hup as [HL Hup]. split.
      + cbn [heap set_heap set_scene log_request].
        rewrite length_alter. exact HL.
      + intros p c Hc. apply (Hup p).
        unfold node_at in Hc |- *.
        cbn [heap set_heap set_scene log_request] in Hc.
        destruct (decide (a = p)) as [->|Hne].
        * rewrite list_lookup_alter_eq in Hc.
          destruct (heap s !! p); exact Hc.
        * rewrite list_lookup_alter_ne in Hc by exact Hne. exact Hc.
    - exists s'. exact Hs'. }
  destruct Hfin as [s' Hs']. exists s'. split; [exact Hs'|].
  pose proof (mayaCreate_keeps (S fuel) a s) as K.
  pose proof (mayaCreate_same_length (S fuel) a s) as Hlen.
  rewrite Hs' in K, Hlen. cbn [final] in K, Hlen.
  eapply upward_keeps; eassumption.
Qed.

(** The joints below [a], [a] first, then the subtrees of its children
    in the order of the list of children; [depth] bounds the descent. *)
Fixpoint preorder (depth : nat) (s : State) (a : nat) : list nat :=
  match depth with
  | O => []
  | S depth' =>
      a :: concat (map (preorder depth' s) (children (node_at a s)))
  end.

Lemma preorder_keeps (depth : nat) (s s' : State) (a : nat) :
  walk_keeps s s' -> preorder depth s' a = preorder depth s a.
Proof.
  intros [K _]. revert a. induction depth as [|depth IH]; intros a;
    [reflexivity|].
  cbn [preorder]. rewrite K. f_equal. f_equal.
  apply map_ext. exact IH.
Qed.

Lemma each_order (f : nat -> M unit) (g : State -> nat -> list nat)
    (l : list nat) :
  (forall a s, walk_keeps s (final (f a s))) ->
  (forall a s s', walk_keeps s s' -> g s' a = g s a) ->
  (forall a s s', f a s = Ok tt s' -> requests s' = requests s ++ g s a) ->
  forall s s', each f l s = Ok tt s' ->
    requests s' = requests s ++ concat (map (g s) l).
Proof.
  intros Hkeep Hg Hf. induction l as [|a l IH]; intros s s' H;
    cbn [each] in H.
  - unfold ret in H. injection H as <-. cbn. rewrite app_nil_r. reflexivity.
  - apply bind_Ok_inv in H as (u & s1 & Ha & H). destruct u.
    pose proof (Hkeep a s) as K. rewrite Ha in K. cbn [final] in K.
    rewrite (IH _ _ H), (Hf _ _ _ Ha). cbn [map concat].
    rewrite <- app_assoc. f_equal. f_equal. f_equal.
    apply map_ext. intros c. apply Hg. exact K.
Qed.

(** The requests of a finished [mayaCreate] are those for the joints of
    the subtree in preorder. *)
Lemma mayaCreate_order (fuel : nat) :
  forall a s s', mayaCreate fuel a s = Ok tt s' ->
    requests s' = requests s ++ preorder fuel s a.
Proof.
  induction fuel as [|fuel IH]; intros a s s' H;
    cbn [mayaCreate] in H; [discriminate H|].
  apply bind_Ok_inv in H as (nd & s0 & Hget & H).
  unfold getNode in Hget. injection Hget as <- <-.
  apply bind_Ok_inv in H as (parentObj & s0 & Hpar & H).
  assert (s0 = s) as ->.
  { destruct (parent (node_at a s)); cbn in Hpar.
    - unfold bind, getNode, ret in Hpar. injection Hpar as _ <-. reflexivity.
    - unfold ret in Hpar. injection Hpar as _ <-. reflexivity. }
  apply bind_Ok_inv in H as (obj & s1 & Hcreate & H).
  unfold hostCreate in Hcreate.
  destruct (jointCreate (scene s) parentObj) as [sc obj'].
  injection Hcreate as <- <-.
  apply bind_Ok_inv in H as (u1 & s2 & Hm & H).
  unfold modNode in Hm. injection Hm as _ <-.
  apply bind_Ok_inv in H as (u2 & s3 & Hn & H).
  unfold hostSetName in Hn. injection Hn as _ <-.
  apply bind_Ok_inv in H as (u3 & s4 & Ht & H).
  unfold hostSetTranslation in Ht. injection Ht as _ <-.
  match type of H with
  | each _ _ ?s4 = _ => assert (K : walk_keeps s s4)
  end.
  { split.
    - intros b. unfold node_at. cbn [heap set_heap set_scene log_request].
      destruct (decide (a = b)) as [->|Hne].
      + rewrite list_lookup_alter_eq. destruct (heap s !! b); reflexivity.
      + rewrite list_lookup_alter_ne by exact Hne. reflexivity.
    - intros x Hx. cbn. apply elem_of_app. left. exact Hx. }
  rewrite (each_order (mayaCreate fuel) (preorder fuel) _
             (mayaCreate_keeps fuel)
             (fun a s s' => preorder_keeps fuel s s' a) IH _ _ H).
  cbn [requests set_scene set_heap log_request preorder].
  rewrite <- app_assoc. cbn [app]. f_equal. f_equal. f_equal.
  apply map_ext. intros c. apply preorder_keeps. exact K.
Qed.

End WalkForest.

(** The creation part of [reader] on a forest. *)
Lemma create_on_forest `{P : Platform} (budget : nat) (roots : list nat)
    (s : State) :
  Forest roots s ->
  (length (heap s) <= budget)%nat ->
  outcome (create budget roots s) = Returned kSuccess
  /\ forall a, (a < length (heap s))%nat ->
       a ∈ requests (final (create budget roots s)).
Proof.
  intros HF Hbudget.
  pose proof (Forest_upward roots s HF) as Hup.
  destruct (each_finishes (length (heap s)) (mayaCreate budget) roots)
    with (s := s) as (s' & Hs' & _); [|exact Hup|].
  { intros r s0 Hr Hup0. destruct HF as (_ & _ & TC).
    destruct (TC r Hr) as [Hlt _].
    apply mayaCreate_finishes; [exact Hup0|exact Hlt|lia]. }
  unfold create. rewrite (bind_Ok _ _ _ _ _ Hs'). cbn.
  split; [reflexivity|]. intros a Ha.
  destruct (Forest_reach roots s HF a Ha) as (r & Hr & Hreach).
  destruct (each_requests (mayaCreate budget) roots
              (mayaCreate_keeps budget) (mayaCreate_requests budget)
              _ _ Hs') as [_ R].
  eapply R; eassumption.
Qed.

(** ** The creation walk on the joints of a well-formed file *)

Section OrderOfTheFile.

Context `{P : Platform}.

Local Open Scope nat_scope.

Lemma preorder_layouts_from (s : State) (par : option nat) (depth : nat)
    (ks : list Block) :
  Forall (fun b => forall par a depth,
            holds s a (layout par a b) -> size b <= depth ->
            preorder depth s a = seq a (size b)) ks ->
  forall c,
    holds s c (layouts par c ks) -> sizes ks <= depth ->
    concat (map (preorder depth s) (starts c ks)) = seq c (sizes ks).
Proof.
  induction 1 as [|k ks Hk _ IH]; intros c Hh Hd; [reflexivity|].
  unfold sizes in *. cbn [fold_right] in *.
  cbn [starts map concat layouts] in *.
  apply holds_app in Hh as [Hh1 Hh2]. rewrite length_layout in Hh2.
  rewrite (Hk par c depth Hh1) by lia. rewrite (IH _ Hh2) by lia.
  symmetry. apply seq_app.
Qed.

(** On the joints of a block the descent of [mayaCreate] lists the
    joints in the order in which the blocks begin in the file. *)
Lemma preorder_layout (s : State) (b : Block) :
  forall par a depth,
    holds s a (layout par a b) -> size b <= depth ->
    preorder depth s a = seq a (size b).
Proof.
  induction b as [nm f0 f1 f2 cnt chans kids IH|nm f0 f1 f2]
    using Block_nested_ind; intros par a depth Hh Hd.
  - rewrite size_joint in Hd |- *. destruct depth as [|depth]; [lia|].
    rewrite layout_joint in Hh. apply holds_head in Hh as (_ & Hn & Hh).
    cbn [preorder seq]. rewrite Hn. cbn [children]. f_equal.
    apply (preorder_layouts_from s (Some a)); [exact IH|exact Hh|lia].
  - cbn [size] in *. destruct depth as [|depth]; [lia|].
    cbn [layout] in Hh. apply holds_head in Hh as (_ & Hn & _).
    cbn [preorder seq]. rewrite Hn. reflexivity.
Qed.

(** The creation walk after the hierarchy section of a well-formed file. *)
Lemma create_on_blocks (fuel : nat) (sc : Scene) (rs : list Block)
    (t : string) (rest : list string) :
  forallb is_joint rs = true ->
  forallb well_formed rs = true ->
  t <> "ROOT" ->
  2 * sizes rs <= fuel ->
  let s := final (hierarchy fuel
                    (initial sc (hierarchy_tokens rs ++ t :: rest))) in
  outcome (create fuel (starts 0 rs) s) = Returned kSuccess
  /\ requests (final (create fuel (starts 0 rs) s)) = seq 0 (sizes rs)
  /\ map (fun a => name (node_at a s))
       (requests (final (create fuel (starts 0 rs) s)))
     = flat_map names rs.
Proof.
  intros Hj Hwf Ht Hfuel s.
  pose proof (hierarchy_reads fuel sc rs t rest Hj Hwf Ht Hfuel) as Hh.
  pose proof (hierarchy_Forest fuel sc _ _ _ Hh) as HF. cbn [snd] in HF.
  assert (Hs : s = {| tokens := rest; heap := layouts None 0 rs; scene := sc;
                      requests := []; visited := [];
                      endSites := ends_of 0 rs |})
    by (subst s; rewrite Hh; reflexivity).
  rewrite <- Hs in HF.
  assert (Hlen : length (heap s) = sizes rs)
    by (rewrite Hs; cbn [heap]; apply length_layouts).
  destruct (create_on_forest fuel (starts 0 rs) s HF) as [Hout _]; [lia|].
  assert (Hreq : requests (final (create fuel (starts 0 rs) s))
                 = seq 0 (sizes rs)).
  { unfold create, bind in Hout |- *.
    pose proof (no_failure_exit_each (mayaCreate fuel) (starts 0 rs)
                  (no_failure_exit_mayaCreate fuel) s) as Hvoid.
    destruct (each (mayaCreate fuel) (starts 0 rs) s) as [[] s'| | |] eqn:E;
      cbn in Hout, Hvoid; try discriminate Hout;
      try (destruct Hvoid; discriminate).
    cbn [final return_].
    rewrite (each_order (mayaCreate fuel) (preorder fuel) (starts 0 rs)
               (mayaCreate_keeps fuel)
               (fun a s s' => preorder_keeps fuel s s' a)
               (mayaCreate_order fuel) _ _ E).
    replace (requests s) with (@nil nat) by (rewrite Hs; reflexivity).
    cbn [app].
    apply (preorder_layouts_from s None).
    - apply Forall_forall. intros b _. apply preorder_layout.
    - rewrite Hs. apply (holds_all {| tokens := rest;
                                     heap := layouts None 0 rs; scene := sc;
                                     requests := []; visited := [];
                                     endSites := ends_of 0 rs |}).
    - lia. }
  split; [exact Hout|]. split; [exact Hreq|].
  rewrite Hreq, <- Hlen. unfold node_at.
  pose proof (names_in_order [] (heap s)) as Hn. cbn [app length] in Hn.
  rewrite Hn, Hs. cbn [heap].
  apply names_layouts.
Qed.

End OrderOfTheFile.

(** X10: on a forest, as the hierarchy part builds it, the creation walk
    terminates and [reader] reaches its [return] with [kSuccess]: a
    recursion depth of the number of joints is enough, and when the walk
    is over a creation request has been sent for every joint of the
    heap. *)
Theorem create_requests_every_joint :
  forall `{P : Platform} (budget : nat) (roots : list nat) (s : State),
    Forest roots s ->
    (length (heap s) <= budget)%nat ->
    outcome (create budget roots s) = Returned kSuccess
    /\ forall a, (a < length (heap s))%nat ->
         a ∈ requests (final (create budget roots s)).
Proof. intros P budget roots s. apply create_on_forest. Qed.

Lemma create_requests_every_joint_witness :
  (length (heap (final (hierarchy (P := demo 0) 6
                          (initial (P := demo 0) []
                             (tokenize hips_two_legs))))) <= 3)%nat
  /\ outcome (create (P := demo 0) 3 [0%nat]
                (final (hierarchy (P := demo 0) 6
                          (initial (P := demo 0) []
                             (tokenize hips_two_legs)))))
     = Returned kSuccess.
Proof.
  assert (Hv : value (hierarchy (P := demo 0) 6
                        (initial (P := demo 0) [] (tokenize hips_two_legs)))
               = Some ("MOTION", [0%nat])) by (vm_compute; reflexivity).
  assert (Hlen : (length (heap (final (hierarchy (P := demo 0) 6
                                         (initial (P := demo 0) []
                                            (tokenize hips_two_legs)))))
                  <= 3)%nat) by (vm_compute; lia).
  split; [exact Hlen|].
  apply (create_requests_every_joint (P := demo 0) 3 [0%nat]); [|exact Hlen].
  exact (hierarchy_Forest (P := demo 0) 6 [] (tokenize hips_two_legs) _ _
           (Ok_intro _ _ Hv)).
Defined.

(** X11: the creation requests of a finished walk are sent parent before
    children, the children of a joint in the order of its list of children
    and each subtree as a whole before the next: for each root of
    [rootVect] in turn, the requests added are the joints of its subtree
    in preorder.  After the hierarchy section of a well-formed file the
    walk finishes and the requests are those for the joints 0, 1, 2, ...
    in that order, which is the order in which the blocks of the joints
    begin in the file. *)
Theorem create_requests_in_preorder :
  forall `{P : Platform} (fuel : nat),
    (forall (roots : list nat) (s : State),
       outcome (create fuel roots s) = Returned kSuccess ->
       requests (final (create fuel roots s))
       = requests s ++ concat (map (preorder fuel s) roots))
    /\ (forall (sc : Scene) (rs : list Block) (t : string)
               (rest : list string),
          forallb is_joint rs = true ->
          forallb well_formed rs = true ->
          t <> "ROOT" ->
          (2 * sizes rs <= fuel)%nat ->
          let s := final (hierarchy fuel
                            (initial sc (hierarchy_tokens rs ++ t :: rest))) in
          outcome (create fuel (starts 0 rs) s) = Returned kSuccess
          /\ requests (final (create fuel (starts 0 rs) s))
             = seq 0 (sizes rs)
          /\ map (fun a => name (node_at a s))
               (requests (final (create fuel (starts 0 rs) s)))
             = flat_map names rs).
Proof.
  intros P fuel. split.
  - intros roots s Hout. unfold create, bind in *.
    pose proof (no_failure_exit_each (mayaCreate fuel) roots
                  (no_failure_exit_mayaCreate fuel) s) as Hvoid.
    destruct (each (mayaCreate fuel) roots s) as [[] s'| | |] eqn:E;
      cbn in Hout, Hvoid; try discriminate Hout;
      try (destruct Hvoid; discriminate).
    cbn [final return_].
    apply (each_order (mayaCreate fuel) (preorder fuel) roots
             (mayaCreate_keeps fuel)
             (fun a s s' => preorder_keeps fuel s s' a)
             (mayaCreate_order fuel) _ _ E).
  - intros sc rs t rest. apply create_on_blocks.
Qed.

Definition two_legs : list Block :=
  [JointBlock "Hips" "0" "0" "0" "1" ["Xposition"]
     [JointBlock "Left" "1" "0" "0" "1" ["Xrotation"]
        [EndBlock "Site" "0" "1" "0"];
      JointBlock "Right" "2" "0" "0" "1" ["Xrotation"] []];
   JointBlock "Prop" "5" "0" "0" "0" [] []].

Lemma create_requests_in_preorder_witness :
  forallb is_joint two_legs = true
  /\ forallb (well_formed (P := demo 0)) two_legs = true
  /\ "MOTION" <> "ROOT"
  /\ (2 * sizes two_legs <= 10)%nat
  /\ requests
       (final (create (P := demo 0) 10 (starts 0 two_legs)
                 (final (hierarchy (P := demo 0) 10
                           (initial (P := demo 0) []
                              (hierarchy_tokens two_legs
                                 ++ "MOTION" :: ["Frames:"; "0"]))))))
     = [0; 1; 2; 3; 4]%nat
  /\ map (fun a => name (node_at a
                           (final (hierarchy (P := demo 0) 10
                                     (initial (P := demo 0) []
                                        (hierarchy_tokens two_legs
                                           ++ "MOTION" :: ["Frames:"; "0"]))))))
       (requests
          (final (create (P := demo 0) 10 (starts 0 two_legs)
                    (final (hierarchy (P := demo 0) 10
                              (initial (P := demo 0) []
                                 (hierarchy_tokens two_legs
                                    ++ "MOTION" :: ["Frames:"; "0"])))))))
     = ["Hips"; "Left"; "Site"; "Right"; "Prop"].
Proof.
  assert (Hj : forallb is_joint two_legs = true) by reflexivity.
  assert (Hwf : forallb (well_formed (P := demo 0)) two_legs = true)
    by reflexivity.
  assert (HM : "MOTION" <> "ROOT") by discriminate.
  assert (Hfuel : (2 * sizes two_legs <= 10)%nat) by (cbn; lia).
  split; [exact Hj|]. split; [exact Hwf|]. split; [exact HM|].
  split; [exact Hfuel|].
  destruct (proj2 (create_requests_in_preorder (P := demo 0) 10)
              [] two_legs "MOTION" ["Frames:"; "0"] Hj Hwf HM Hfuel)
    as (_ & Hreq & Hnames).
  split; [exact Hreq|exact Hnames].
Defined.

(** ** Files without a frame *)

(** X12: a file whose hierarchy is read to the end and is followed by
    MOTION Frames: [k] Frame Time: [t] with [k] zero or negative is
    accepted whatever the shape of the tree: no joint is visited by the
    motion section, a creation request is sent for every joint, and
    [reader] returns [kSuccess].  (With a positive [k] this only happens
    when no root has a child.) *)
Theorem reader_accepts_a_file_without_frames :
  forall `{P : Platform} (fuel : nat) (sc : Scene) (toks : list string)
         (roots : list nat) (n t : string) (rest : list string) (k : Z)
         (timeFrame : float),
    value (hierarchy fuel (initial sc toks)) = Some ("MOTION", roots) ->
    tokens (final (hierarchy fuel (initial sc toks)))
    = "Frames:" :: n :: "Frame" :: "Time:" :: t :: rest ->
    stoi n = Converted k -> k <= 0 ->
    stof t = Converted timeFrame ->
    (length (heap (final (hierarchy fuel (initial sc toks)))) <= fuel)%nat ->
    outcome (readTokens fuel sc toks) = Returned kSuccess
    /\ visited (final (readTokens fuel sc toks)) = []
    /\ tokens (final (readTokens fuel sc toks)) = rest
    /\ forall a,
         (a < length (heap (final (hierarchy fuel (initial sc toks)))))%nat ->
         a ∈ requests (final (readTokens fuel sc toks)).
Proof.
  intros P fuel sc toks roots n t rest k timeFrame Hv Htoks Hn Hk Ht Hfuel.
  pose proof (Ok_intro _ _ Hv) as Hh.
  set (s1 := final (hierarchy fuel (initial sc toks))) in *.
  pose proof (hierarchy_Forest fuel sc toks _ _ Hh) as HF. cbn [snd] in HF.
  assert (Hvis1 : visited s1 = []).
  { pose proof (preserves_hierarchy
                  (fun s s' => visited s' = visited s)) as Hp.
    specialize (Hp (fun s => eq_refl)).
    specialize (Hp (fun s1 s2 s3 H1 H2 => eq_trans H2 H1)).
    specialize (Hp (fun s t rest _ => eq_refl)).
    specialize (Hp (fun s => eq_refl) (fun s a f _ => eq_refl)
                  (fun s a => eq_refl) fuel (initial sc toks)).
    exact Hp. }
  assert (Hparse : parse fuel (initial sc toks)
                   = Ok roots (set_tokens rest s1)).
  { assert (Hm : motion fuel "MOTION" roots s1 = Ok tt (set_tokens rest s1)).
    { unfold motion.
      rewrite (bind_Ok _ _ _ _ _
                 (motionHeader_reads s1 _ _ _ _ _ Htoks Hn Ht)).
      cbn [fst snd]. apply framesLoop_no_frame. lia. }
    unfold parse. rewrite (bind_Ok _ _ _ _ _ Hh). cbn [fst snd].
    rewrite (bind_Ok _ _ _ _ _ Hm). reflexivity. }
  unfold readTokens. rewrite (bind_Ok _ _ _ _ _ Hparse).
  assert (HF2 : Forest roots (set_tokens rest s1))
    by (apply (Forest_same _ s1); [reflexivity|exact HF]).
  destruct (create_on_forest fuel roots (set_tokens rest s1) HF2 Hfuel)
    as [Hout Hreq].
  destruct (create_same_skeleton fuel roots (set_tokens rest s1))
    as (_ & HT & HV & _).
  split; [exact Hout|]. split; [rewrite HV; exact Hvis1|].
  split; [rewrite HT; reflexivity|exact Hreq].
Qed.

Lemma reader_accepts_a_file_without_frames_witness :
  value (hierarchy (P := demo 10) 6
           (initial (P := demo 10) [] (tokenize hips_end_foo)))
  = Some ("MOTION", [0%nat])
  /\ outcome (readTokens (P := demo 10) 6 [] (tokenize hips_end_foo))
     = Returned kSuccess.
Proof.
  assert (Hv : value (hierarchy (P := demo 10) 6
                        (initial (P := demo 10) [] (tokenize hips_end_foo)))
               = Some ("MOTION", [0%nat])) by (vm_compute; reflexivity).
  split; [exact Hv|].
  apply (reader_accepts_a_file_without_frames (P := demo 10) 6 []
           (tokenize hips_end_foo) [0%nat] "0" "0.1" [] 0
           {| mant := 1; expo := -1 |} Hv).
  - vm_compute. reflexivity.
  - reflexivity.
  - lia.
  - reflexivity.
  - vm_compute. lia.
Defined.

(** ** White space in the file *)

Lemma append_nil_l (s : string) : String.append "" s = s.
Proof. reflexivity. Qed.

Lemma append_cons (c : ascii) (r s : string) :
  String.append (String c r) s = String c (String.append r s).
Proof. reflexivity. Qed.

Lemma tokenize_from_separator (c : ascii) (s2 : string) :
  isspace c = true ->
  forall (s1 cur : string),
    tokenize_from cur (String.append s1 (String c s2))
    = tokenize_from cur s1 ++ tokenize_from "" s2.
Proof.
  intros Hc. induction s1 as [|d s1 IH]; intros cur.
  - rewrite append_nil_l. cbn [tokenize_from]. rewrite Hc.
    destruct (String.eqb cur ""); reflexivity.
  - rewrite append_cons. cbn [tokenize_from].
    destruct (isspace d); [destruct (String.eqb cur "")|];
      rewrite IH; reflexivity.
Qed.

Lemma tokenize_splits_at_white_space_aux (c : ascii) (s1 s2 : string) :
  isspace c = true ->
  tokenize (String.append s1 (String c s2)) = tokenize s1 ++ tokenize s2.
Proof.
  intros Hc. unfold tokenize. apply tokenize_from_separator. exact Hc.
Qed.

(** X13: every white-space character (space, tab, new line, vertical tab,
    form feed, carriage return) separates tokens in the same way and adds
    no token of its own: the tokens of a text cut at such a character are
    the tokens of the part before it followed by the tokens of the part
    after it.  So leading, trailing and repeated white space is
    immaterial. *)
Theorem tokenize_splits_at_white_space :
  forall (c : ascii) (s1 s2 : string),
    isspace c = true ->
    tokenize (String.append s1 (String c s2)) = tokenize s1 ++ tokenize s2.
Proof.
  intros c s1 s2 Hc. unfold tokenize.
  apply tokenize_from_separator. exact Hc.
Qed.

Lemma tokenize_splits_at_white_space_witness :
  isspace "010" = true
  /\ tokenize (String.append "OFFSET 0" (String "010" "  CHANNELS"))
     = tokenize "OFFSET 0" ++ tokenize "  CHANNELS".
Proof.
  split; [reflexivity|].
  apply (tokenize_splits_at_white_space "010" "OFFSET 0" "  CHANNELS").
  reflexivity.
Defined.

(** A word: not empty, no white space in it. *)
Fixpoint no_space (w : string) : bool :=
  match w with
  | EmptyString => true
  | String c r => negb (isspace c) && no_space r
  end.

Definition word (w : string) : Prop := w <> "" /\ no_space w = true.

(** The words of [ts], each followed by the character [c]. *)
Definition unwords (c : ascii) (ts : list string) : string :=
  fold_right (fun t acc => String.append t (String c acc)) "" ts.

Lemma append_snoc (cur : string) (d : ascii) (w : string) :
  String.append (String.append cur (String d "")) w
  = String.append cur (String d w).
Proof.
  induction cur as [|x cur IH]; [reflexivity|].
  rewrite !append_cons, IH. reflexivity.
Qed.

Lemma append_empty_r (w : string) : String.append w "" = w.
Proof.
  induction w as [|c w IH]; [reflexivity|]. rewrite append_cons, IH.
  reflexivity.
Qed.

Lemma tokenize_from_word (w : string) :
  no_space w = true ->
  forall cur : string,
    tokenize_from cur w
    = if String.eqb (String.append cur w) "" then []
      else [String.append cur w].
Proof.
  induction w as [|d w IH]; intros Hw cur.
  - cbn [tokenize_from]. rewrite append_empty_r. reflexivity.
  - cbn [no_space] in Hw. apply andb_true_iff in Hw as [Hd Hw].
    apply negb_true_iff in Hd. cbn [tokenize_from]. rewrite Hd.
    rewrite (IH Hw). rewrite append_snoc. reflexivity.
Qed.

(** X14: writing words one after the other, each followed by a
    white-space character, and reading the text back with the token
    stream gives the same words in the same order. *)
Theorem tokenize_unwords :
  forall (c : ascii) (ts : list string),
    isspace c = true ->
    Forall word ts ->
    tokenize (unwords c ts) = ts.
Proof.
  intros c ts Hc Hts. induction Hts as [|t ts [Hne Hw] _ IH];
    [reflexivity|].
  cbn [unwords fold_right]. fold (unwords c ts).
  rewrite tokenize_splits_at_white_space_aux by exact Hc.
  rewrite IH. unfold tokenize. rewrite (tokenize_from_word t Hw "").
  rewrite append_nil_l.
  destruct (String.eqb t "") eqn:E; [|reflexivity].
  apply String.eqb_eq in E. contradiction.
Qed.

Lemma tokenize_unwords_witness :
  isspace " " = true
  /\ Forall word ["ROOT"; "Hips"; "{"]
  /\ tokenize (unwords " " ["ROOT"; "Hips"; "{"]) = ["ROOT"; "Hips"; "{"].
Proof.
  assert (Hw : Forall word ["ROOT"; "Hips"; "{"]).
  { repeat constructor; discriminate. }
  split; [reflexivity|]. split; [exact Hw|].
  apply (tokenize_unwords " " ["ROOT"; "Hips"; "{"]); [reflexivity|exact Hw].
Defined.

(** ** Files that do not begin with HIERARCHY *)

(** X15: a file whose first token is not HIERARCHY, an empty file
    included, is refused at once: [reader] returns [kFailure] for every
    budget, allocates no joint, and sends nothing to Maya. *)
Theorem reader_refuses_a_file_without_HIERARCHY :
  forall `{P : Platform} (fuel : nat) (sc : Scene) (toks : list string),
    hd "" toks <> "HIERARCHY" ->
    outcome (readTokens fuel sc toks) = Returned kFailure
    /\ length (heap (final (readTokens fuel sc toks))) = 0%nat
    /\ requests (final (readTokens fuel sc toks)) = []
    /\ tokens (final (readTokens fuel sc toks)) = tl toks.
Proof.
  intros P fuel sc toks Hhd. apply String.eqb_neq in Hhd.
  unfold readTokens, parse, hierarchy, bind, extract.
  destruct toks as [|t toks]; cbn in *; rewrite ?Hhd; cbn; auto.
Qed.

Lemma reader_refuses_a_file_without_HIERARCHY_witness :
  hd "" (tokenize "") <> "HIERARCHY"
  /\ outcome (readTokens (P := demo 10) 5 [] (tokenize ""))
     = Returned kFailure.
Proof.
  assert (H : hd "" (tokenize "") <> "HIERARCHY") by discriminate.
  split; [exact H|].
  exact (proj1 (reader_refuses_a_file_without_HIERARCHY (P := demo 10) 5 []
                  (tokenize "") H)).
Defined.

(** ** Well-formed files are read as they stand *)

(** X16: the hierarchy section of a well-formed file is read as it
    stands.  [reader] leaves the loop over the ROOT blocks with the token
    that follows them and with the stream just after it; the heap holds
    one joint per block, in the order in which the blocks begin in the
    file, each with the name, the offset and the channel names of its
    block, with the joints of the blocks nested directly in it as its
    children, in the order of the file, and with the joint of the
    enclosing block as its parent; [rootVect] holds the roots in the order
    of the ROOT blocks; nothing was sent to Maya. *)
Theorem hierarchy_reads_a_well_formed_file :
  forall `{P : Platform} (fuel : nat) (sc : Scene) (rs : list Block)
         (t : string) (rest : list string),
    forallb is_joint rs = true ->
    forallb well_formed rs = true ->
    t <> "ROOT" ->
    (2 * sizes rs <= fuel)%nat ->
    hierarchy fuel (initial sc (hierarchy_tokens rs ++ t :: rest))
    = Ok (t, starts 0 rs)
        {| tokens := rest; heap := layouts None 0 rs; scene := sc;
           requests := []; visited := []; endSites := ends_of 0 rs |}.
Proof. intros P. apply hierarchy_reads. Qed.

Lemma hierarchy_reads_a_well_formed_file_witness :
  forallb is_joint two_legs = true
  /\ forallb (well_formed (P := demo 10)) two_legs = true
  /\ "MOTION" <> "ROOT"
  /\ (2 * sizes two_legs <= 10)%nat
  /\ value (hierarchy (P := demo 10) 10
              (initial (P := demo 10) []
                 (hierarchy_tokens two_legs ++ "MOTION" :: ["Frames:"; "0"])))
     = Some ("MOTION", [0; 4]%nat)
  /\ map children
       (heap (final (hierarchy (P := demo 10) 10
                       (initial (P := demo 10) []
                          (hierarchy_tokens two_legs
                             ++ "MOTION" :: ["Frames:"; "0"])))))
     = [[1; 3]; [2]; []; []; []]%nat.
Proof.
  assert (Hj : forallb is_joint two_legs = true) by reflexivity.
  assert (Hwf : forallb (well_formed (P := demo 10)) two_legs = true)
    by reflexivity.
  assert (HM : "MOTION" <> "ROOT") by discriminate.
  assert (Hfuel : (2 * sizes two_legs <= 10)%nat) by (cbn; lia).
  split; [exact Hj|]. split; [exact Hwf|]. split; [exact HM|].
  split; [exact Hfuel|].
  rewrite (hierarchy_reads_a_well_formed_file (P := demo 10) 10 [] two_legs
             "MOTION" ["Frames:"; "0"] Hj Hwf HM Hfuel).
  split; reflexivity.
Defined.
